(** * tinyphysicsengine (old/tinyphysicsengine.h, version 0.1d): a shallow embedding

    The engine works on [TPE_Unit = int32_t] fixed-point numbers with
    [TPE_FRACTIONS_PER_UNIT = 512] fractions per unit.  Every C function that
    the verified properties talk about is transcribed below as a Rocq function
    over [Z]; 32-bit two's complement wrap-around is written out ([wrap32]),
    C's truncating division is [Z.quot], and the two [while] loops of
    [TPE_sqrt] are defined by well-founded recursion on the bit length of the
    loop variable.  Functions that write through a pointer return the new
    contents; run-time traps are [None] in an error monad; automatic
    variables that the C code reads before it has assigned all of their
    fields get their initial contents from a parameter
    ([TPE_Indeterminate]). *)

From Stdlib Require Import ZArith NArith Lia List Bool Sorted.
From Equations Require Import Equations.
From stdpp Require Import base list.

Local Open Scope Z_scope.

(** ** 32-bit machine arithmetic *)

(** Conversion of a mathematical integer to [int32_t] (two's complement). *)
Definition wrap32 (v : Z) : Z := (v + 2 ^ 31) mod 2 ^ 32 - 2 ^ 31.

(** Conversion to [uint32_t]. *)
Definition u32 (n : N) : N := (n mod 2 ^ 32)%N.

Definition in_int32 (v : Z) : Prop := - 2 ^ 31 <= v < 2 ^ 31.

Definition add32 (a b : Z) : Z := wrap32 (a + b).
Definition sub32 (a b : Z) : Z := wrap32 (a - b).
Definition mul32 (a b : Z) : Z := wrap32 (a * b).
Definition neg32 (a : Z) : Z := wrap32 (- a).

(** C's [/] and [%] on [int32_t]: truncation towards zero.  The C division
    has no result for the divisor [0] and for [INT_MIN / -1], where the
    machine traps; [div32] and [rem32] are the quotient and the remainder
    everywhere else.  They are used where the divisor is a non-zero constant,
    comes out of [TPE_nonZero] or is guarded by a test in the source, and the
    properties of functions that divide by a computed value bound their
    arguments so that the division has a result.  Divisions by a value that
    nothing guards go through [div32_chk]. *)
Definition div32 (a b : Z) : Z := wrap32 (Z.quot a b).
Definition rem32 (a b : Z) : Z := wrap32 (Z.rem a b).

(** The division with its two traps, the divisor [0] and [INT_MIN / -1]:
    [None] models the trap. *)
Definition div32_chk (a b : Z) : option Z :=
  if (b =? 0) || ((a =? - 2 ^ 31) && (b =? -1)) then None
  else Some (div32 a b).

(** The machine operators are written with a prime, at the precedence of
    their C counterparts, so that the transcribed bodies read like the C
    source and never mix with the unbounded operators of [Z]. *)
Notation "a +' b" := (add32 a b) (at level 50, left associativity).
Notation "a -' b" := (sub32 a b) (at level 50, left associativity).
Notation "a *' b" := (mul32 a b) (at level 40, left associativity).
Notation "a /' b" := (div32 a b) (at level 40, left associativity).
Notation "a %' b" := (rem32 a b) (at level 40, left associativity).

(** C truth values ([x == 0] used as an integer). *)
Definition b2z (b : bool) : Z := if b then 1 else 0.

(** ** Constants *)

Definition TPE_FRACTIONS_PER_UNIT : Z := 512.
Definition TPE_INFINITY : Z := 2147483647.
Definition TPE_PI : Z := 1608.

Abbreviation F := TPE_FRACTIONS_PER_UNIT (only parsing).

(** ** Scalar kernel *)

Definition TPE_wrap (value modulus : Z) : Z :=
  (if value >=? 0 then value %' modulus
   else modulus +' (value %' modulus) -' 1).

Definition TPE_clamp (v v1 v2 : Z) : Z :=
  if v >=? v1 then (if v <=? v2 then v else v2) else v1.

Definition TPE_nonZero (a : Z) : Z := (a +' b2z (a =? 0)).

Definition TPE_abs (a : Z) : Z := if a >=? 0 then a else ((-1) *' a).

Definition TPE_sign (a : Z) : Z :=
  if a >? 0 then 1 else if a <? 0 then -1 else 0.

Definition TPE_SIN_TABLE_LENGTH : Z := 128.

(** The numerators of the quarter-period table; entry [i] of the C array is
    [(n_i * TPE_FRACTIONS_PER_UNIT) / 511]. *)
Definition TPE_sinTable_numerators : list Z :=
  [ 0; 6; 12; 18; 25; 31; 37; 43; 50; 56; 62; 68; 74; 81; 87; 93;
    99; 105; 111; 118; 124; 130; 136; 142; 148; 154; 160; 166; 172; 178;
    183; 189; 195; 201; 207; 212; 218; 224; 229; 235; 240; 246; 251; 257;
    262; 268; 273; 278; 283; 289; 294; 299; 304; 309; 314; 319; 324; 328;
    333; 338; 343; 347; 352; 356; 361; 365; 370; 374; 378; 382; 386; 391;
    395; 398; 402; 406; 410; 414; 417; 421; 424; 428; 431; 435; 438; 441;
    444; 447; 450; 453; 456; 459; 461; 464; 467; 469; 472; 474; 476; 478;
    481; 483; 485; 487; 488; 490; 492; 494; 495; 497; 498; 499; 501; 502;
    503; 504; 505; 506; 507; 507; 508; 509; 509; 510; 510; 510; 510; 510 ].

Definition TPE_sinTable : list Z :=
  map (fun n => (n *' F) /' 511) TPE_sinTable_numerators.

(** [TPE_sinTable[i]]; the index is always within [0, 128) in [TPE_sin]. *)
Definition TPE_sinTable_at (i : Z) : Z := nth (Z.to_nat i) TPE_sinTable 0.

Definition TPE_SIN_TABLE_UNIT_STEP : Z :=
  (F /' (TPE_SIN_TABLE_LENGTH *' 4)).

Definition TPE_sin (angle : Z) : Z :=
  let a := TPE_wrap (angle /' TPE_SIN_TABLE_UNIT_STEP)
                    (TPE_SIN_TABLE_LENGTH *' 4) in
  let '(a, positive) :=
    if a <? TPE_SIN_TABLE_LENGTH then (a, true)
    else if a <? (TPE_SIN_TABLE_LENGTH *' 2)
    then ((TPE_SIN_TABLE_LENGTH *' 2 -' a -' 1), true)
    else if a <? (TPE_SIN_TABLE_LENGTH *' 3)
    then ((a -' TPE_SIN_TABLE_LENGTH *' 2), false)
    else ((TPE_SIN_TABLE_LENGTH -' (a -' TPE_SIN_TABLE_LENGTH *' 3) -' 1),
          false) in
  if positive then TPE_sinTable_at a else ((-1) *' TPE_sinTable_at a).

Definition TPE_cos (angle : Z) : Z := TPE_sin (angle +' F /' 4).

(** *** Integer square root *)

(** [while (b > a) b >>= 2;] *)
Equations TPE_sqrt_seek (a b : N) : N by wf (N.size_nat b) lt :=
  TPE_sqrt_seek a b with decide (a < b)%N := {
    | left _ => TPE_sqrt_seek a (N.shiftr b 2)
    | right _ => b }.
Next Obligation.
  intros. destruct b as [|p]; [lia|].
  change (N.shiftr (N.pos p) 2) with (N.div2 (N.div2 (N.pos p))).
  destruct p as [[p|p|]|[p|p|]|]; simpl; lia.
Qed.

(** [while (b != 0) { if (a >= result + b) { a -= result + b;
    result = result + 2 * b; } b >>= 2; result >>= 1; }] on [uint32_t]. *)
Equations TPE_sqrt_loop (a result b : N) : N by wf (N.size_nat b) lt :=
  TPE_sqrt_loop a result b with decide (b = 0)%N := {
    | left _ => result
    | right _ =>
        let '(a', result') :=
          if (u32 (result + b) <=? a)%N
          then (u32 (a - u32 (result + b)), u32 (result + u32 (2 * b)))
          else (a, result) in
        TPE_sqrt_loop a' (N.shiftr result' 1) (N.shiftr b 2) }.
Next Obligation.
  intros. destruct b as [|p]; [lia|].
  change (N.shiftr (N.pos p) 2) with (N.div2 (N.div2 (N.pos p))).
  destruct p as [[p|p|]|[p|p|]|]; simpl; lia.
Qed.

Definition TPE_sqrt (value : Z) : Z :=
  let '(sign, value) :=
    if value <? 0 then (-1, (value *' (-1))) else (1, value) in
  let a : N := Z.to_N (value mod 2 ^ 32) in
  let b : N := N.shiftl 1 30 in
  let b := TPE_sqrt_seek a b in
  let result := TPE_sqrt_loop a 0%N b in
  (* [result * sign] is computed in [uint32_t], then converted back. *)
  wrap32 ((Z.of_N result * (sign mod 2 ^ 32)) mod 2 ^ 32).

Definition TPE_timesAntiZero (a b : Z) : Z :=
  let result := (a *' b) in
  if result >=? F then (result /' F)
  else if negb (result =? 0) then 1 else 0.

(** ** Vectors *)

Record TPE_Vec4 : Type := TPE_vec4 { x : Z; y : Z; z : Z; w : Z }.

Definition TPE_vec3Plus (a b : TPE_Vec4) : TPE_Vec4 :=
  TPE_vec4 (a.(x) +' b.(x)) (a.(y) +' b.(y)) (a.(z) +' b.(z)) a.(w).

Definition TPE_vec3Minus (a b : TPE_Vec4) : TPE_Vec4 :=
  TPE_vec4 (a.(x) -' b.(x)) (a.(y) -' b.(y)) (a.(z) -' b.(z)) a.(w).

Definition TPE_vec3Times (a : TPE_Vec4) (f : Z) : TPE_Vec4 :=
  TPE_vec4 ((a.(x) *' f) /' F) ((a.(y) *' f) /' F) ((a.(z) *' f) /' F)
           a.(w).

(** The [void f(..., TPE_Vec4 *result)] functions write three components of
    [*result]; the model takes the old contents of [*result] and returns the
    new ones. *)
Definition TPE_vec3Add (a b result : TPE_Vec4) : TPE_Vec4 :=
  TPE_vec4 (a.(x) +' b.(x)) (a.(y) +' b.(y)) (a.(z) +' b.(z))
           result.(w).

Definition TPE_vec3Substract (a b result : TPE_Vec4) : TPE_Vec4 :=
  TPE_vec4 (a.(x) -' b.(x)) (a.(y) -' b.(y)) (a.(z) -' b.(z))
           result.(w).

Definition TPE_vec3Average (a b result : TPE_Vec4) : TPE_Vec4 :=
  TPE_vec4 ((a.(x) +' b.(x)) /' 2) ((a.(y) +' b.(y)) /' 2)
           ((a.(z) +' b.(z)) /' 2) result.(w).

Definition TPE_vec3Multiply (v : TPE_Vec4) (f : Z) (result : TPE_Vec4)
  : TPE_Vec4 :=
  TPE_vec4 ((v.(x) *' f) /' F) ((v.(y) *' f) /' F) ((v.(z) *' f) /' F)
           result.(w).

Definition TPE_vec3MultiplyPlain (v : TPE_Vec4) (f : Z) (result : TPE_Vec4)
  : TPE_Vec4 :=
  TPE_vec4 (v.(x) *' f) (v.(y) *' f) (v.(z) *' f) result.(w).

Definition TPE_vec3Len (v : TPE_Vec4) : Z :=
  TPE_sqrt (v.(x) *' v.(x) +' v.(y) *' v.(y) +' v.(z) *' v.(z)).

Definition TPE_vec4Len (v : TPE_Vec4) : Z :=
  TPE_sqrt (v.(x) *' v.(x) +' v.(y) *' v.(y) +' v.(z) *' v.(z) +' v.(w) *' v.(w)).

Definition TPE_vec3Dist (a b : TPE_Vec4) : Z := TPE_vec3Len (TPE_vec3Minus a b).

Definition TPE_vec3DotProduct (v1 v2 : TPE_Vec4) : Z :=
  ((v1.(x) *' v2.(x) +' v1.(y) *' v2.(y) +' v1.(z) *' v2.(z)) /' F).

Definition TPE_vec3DotProductPlain (v1 v2 : TPE_Vec4) : Z :=
  (v1.(x) *' v2.(x) +' v1.(y) *' v2.(y) +' v1.(z) *' v2.(z)).

(** The divisor [l] is not zero; it is negative only when the sum of the
    squares has wrapped around (see [div32] for [INT_MIN / -1]). *)
Definition TPE_vec3Normalize (v : TPE_Vec4) : TPE_Vec4 :=
  let l := TPE_vec3Len v in
  if l =? 0 then TPE_vec4 F v.(y) v.(z) v.(w)
  else TPE_vec4 ((v.(x) *' F) /' l) ((v.(y) *' F) /' l)
                ((v.(z) *' F) /' l) v.(w).

Definition TPE_vec4Normalize (v : TPE_Vec4) : TPE_Vec4 :=
  let l := TPE_vec4Len v in
  if l =? 0 then TPE_vec4 F v.(y) v.(z) v.(w)
  else TPE_vec4 ((v.(x) *' F) /' l) ((v.(y) *' F) /' l)
                ((v.(z) *' F) /' l) ((v.(w) *' F) /' l).

Definition TPE_vec3Normalized (v : TPE_Vec4) : TPE_Vec4 := TPE_vec3Normalize v.

Definition TPE_lineSegmentClosestPoint (a b p : TPE_Vec4) : TPE_Vec4 :=
  let ab := TPE_vec3Minus b a in
  let t := ((TPE_vec3DotProduct ab (TPE_vec3Minus p a) *' F)
            /' TPE_nonZero (TPE_vec3DotProduct ab ab)) in
  let t := if t <? 0 then 0 else if t >? F then F else t in
  let ab := TPE_vec3Multiply ab t ab in
  TPE_vec3Plus a ab.

(** ** Rotations *)

(** [TPE_Unit matrix[4][4]], indexed [matrix[i][j]]; entry [i] of the outer
    list is the row of C memory [matrix[i][0..3]]. *)
Definition TPE_Mat4 : Type := list (list Z).

Definition mat_at (m : TPE_Mat4) (i j : nat) : Z := nth j (nth i m []) 0.

Definition TPE_quaternionInit : TPE_Vec4 := TPE_vec4 0 0 0 F.

Definition TPE_rotationToQuaternion (axis : TPE_Vec4) (angle : Z) : TPE_Vec4 :=
  let axis := TPE_vec3Normalize axis in
  let angle := (angle /' 2) in
  let s := TPE_sin angle in
  TPE_vec4 ((s *' axis.(x)) /' F) ((s *' axis.(y)) /' F)
           ((s *' axis.(z)) /' F) (TPE_cos angle).

Definition TPE_quaternionToRotationMatrix (quaternion : TPE_Vec4) : TPE_Mat4 :=
  let q := quaternion in
  let _2x2 := ((2 *' q.(x) *' q.(x)) /' F) in
  let _2y2 := ((2 *' q.(y) *' q.(y)) /' F) in
  let _2z2 := ((2 *' q.(z) *' q.(z)) /' F) in
  let _2xy := ((2 *' q.(x) *' q.(y)) /' F) in
  let _2xw := ((2 *' q.(x) *' q.(w)) /' F) in
  let _2zw := ((2 *' q.(z) *' q.(w)) /' F) in
  let _2xz := ((2 *' q.(x) *' q.(z)) /' F) in
  let _2yw := ((2 *' q.(y) *' q.(w)) /' F) in
  let _2yz := ((2 *' q.(y) *' q.(z)) /' F) in
  let ONE := F in
  [ [ (ONE -' _2y2 -' _2z2); (_2xy +' _2zw); (_2xz -' _2yw); 0 ];
    [ (_2xy -' _2zw); (ONE -' _2x2 -' _2z2); (_2yz +' _2xw); 0 ];
    [ (_2xz +' _2yw); (_2yz -' _2xw); (ONE -' _2x2 -' _2y2); 0 ];
    [ 0; 0; 0; ONE ] ].

(** The compiled ([#else]) branch of [TPE_rotatePoint]. *)
Definition TPE_rotatePoint (point quaternion : TPE_Vec4) : TPE_Vec4 :=
  let m := TPE_quaternionToRotationMatrix quaternion in
  let p := point in
  TPE_vec4
    ((p.(x) *' mat_at m 0 0 +' p.(y) *' mat_at m 0 1 +' p.(z) *' mat_at m 0 2) /' F)
    ((p.(x) *' mat_at m 1 0 +' p.(y) *' mat_at m 1 1 +' p.(z) *' mat_at m 1 2) /' F)
    ((p.(x) *' mat_at m 2 0 +' p.(y) *' mat_at m 2 1 +' p.(z) *' mat_at m 2 2) /' F)
    point.(w).

Definition TPE_quaternionMultiply (a b : TPE_Vec4) : TPE_Vec4 :=
  TPE_vec4
    ((a.(w) *' b.(x) +' a.(x) *' b.(w) +' a.(y) *' b.(z) -' a.(z) *' b.(y)) /' F)
    ((a.(w) *' b.(y) -' a.(x) *' b.(z) +' a.(y) *' b.(w) +' a.(z) *' b.(x)) /' F)
    ((a.(w) *' b.(z) +' a.(x) *' b.(y) -' a.(y) *' b.(x) +' a.(z) *' b.(w)) /' F)
    ((a.(w) *' b.(w) -' a.(x) *' b.(x) -' a.(y) *' b.(y) -' a.(z) *' b.(z)) /' F).

(** ** One-dimensional collision of two masses *)

Definition ANTI_OVERFLOW : Z := 30000.
Definition ANTI_OVERFLOW_SCALE : Z := 128.

(** [v1] and [v2] are in/out parameters; the pair returned holds their final
    values. *)
Definition TPE_getVelocitiesAfterCollision (v1 v2 m1 m2 elasticity : Z)
  : Z * Z :=
  let overflowDanger :=
    (m1 >? ANTI_OVERFLOW) || (v1 >? ANTI_OVERFLOW) ||
    (m2 >? ANTI_OVERFLOW) || (v2 >? ANTI_OVERFLOW) in
  let scale (a : Z) : Z :=
    if negb (a =? 0) then TPE_nonZero (a /' ANTI_OVERFLOW_SCALE) else 0 in
  let '(m1, m2, v1, v2) :=
    if overflowDanger then (scale m1, scale m2, scale v1, scale v2)
    else (m1, m2, v1, v2) in
  let m1Pm2 := TPE_nonZero (m1 +' m2) in
  let v2Mv1 := TPE_nonZero (v2 -' v1) in
  let m1v1Pm2v2 := ((m1 *' v1) +' (m2 *' v2)) in
  let v1 := ((((elasticity *' m2 /' F) *' v2Mv1) +' m1v1Pm2v2) /' m1Pm2) in
  let v2 := ((((elasticity *' m1 /' F) *' (-1) *' v2Mv1) +' m1v1Pm2v2) /' m1Pm2) in
  if overflowDanger
  then ((v1 *' ANTI_OVERFLOW_SCALE), (v2 *' ANTI_OVERFLOW_SCALE))
  else (v1, v2).

(** ** Bodies *)

Definition TPE_SHAPE_POINT : Z := 0.
Definition TPE_SHAPE_SPHERE : Z := 1.
Definition TPE_SHAPE_CAPSULE : Z := 2.
Definition TPE_SHAPE_CUBOID : Z := 3.
Definition TPE_SHAPE_PLANE : Z := 4.
Definition TPE_SHAPE_CYLINDER : Z := 5.
Definition TPE_SHAPE_TRIMESH : Z := 6.

Definition TPE_ANTI_VIBRATION_MAX_FRAMES : Z := 100.
Definition TPE_ANTI_VIBRATION_INCREMENT : Z := 20.
Definition TPE_ANTI_VIBRATION_VELOCITY_BREAK : Z := 60.

Record TPE_RotationState : Type := mkRotationState {
  originalOrientation : TPE_Vec4;
  axisVelocity : TPE_Vec4;
  currentAngle : Z }.

(** [TPE_Body].  [shape], [flags] and [antiVibration] are [uint8_t];
    [shapeParams] is the array [TPE_Unit shapeParams[3]].  The array
    [shapeParamPointers] is left out: none of the functions below reads or
    writes it. *)
Record TPE_Body : Type := mkBody {
  shape : Z;
  shapeParams : list Z;
  flags : Z;
  mass : Z;
  position : TPE_Vec4;
  velocity : TPE_Vec4;
  rotation : TPE_RotationState;
  boundingSphereRadius : Z;
  antiVibration : Z }.

Definition shapeParam (body : TPE_Body) (i : nat) : Z :=
  nth i body.(shapeParams) 0.

(** Assignments to single fields. *)
Definition set_position (body : TPE_Body) (p : TPE_Vec4) : TPE_Body :=
  mkBody body.(shape) body.(shapeParams) body.(flags) body.(mass)
         p body.(velocity) body.(rotation)
         body.(boundingSphereRadius) body.(antiVibration).

Definition set_velocity (body : TPE_Body) (v : TPE_Vec4) : TPE_Body :=
  mkBody body.(shape) body.(shapeParams) body.(flags) body.(mass)
         body.(position) v body.(rotation)
         body.(boundingSphereRadius) body.(antiVibration).

Definition set_rotation (body : TPE_Body) (r : TPE_RotationState) : TPE_Body :=
  mkBody body.(shape) body.(shapeParams) body.(flags) body.(mass)
         body.(position) body.(velocity) r
         body.(boundingSphereRadius) body.(antiVibration).

Definition set_antiVibration (body : TPE_Body) (a : Z) : TPE_Body :=
  mkBody body.(shape) body.(shapeParams) body.(flags) body.(mass)
         body.(position) body.(velocity) body.(rotation)
         body.(boundingSphereRadius) a.

Definition set_x (v : TPE_Vec4) (a : Z) : TPE_Vec4 := TPE_vec4 a v.(y) v.(z) v.(w).
Definition set_y (v : TPE_Vec4) (a : Z) : TPE_Vec4 := TPE_vec4 v.(x) a v.(z) v.(w).
Definition set_z (v : TPE_Vec4) (a : Z) : TPE_Vec4 := TPE_vec4 v.(x) v.(y) a v.(w).
Definition set_w (v : TPE_Vec4) (a : Z) : TPE_Vec4 := TPE_vec4 v.(x) v.(y) v.(z) a.

(** Conversion to [uint8_t]. *)
Definition u8 (v : Z) : Z := v mod 256.

Definition TPE_bodyStep (body : TPE_Body) : TPE_Body :=
  let body :=
    if negb (body.(mass) =? TPE_INFINITY) then
      let body :=
        set_position body
          (TPE_vec3Add body.(position) body.(velocity) body.(position)) in
      let r := body.(rotation) in
      set_rotation body
        (mkRotationState r.(originalOrientation) r.(axisVelocity)
           (r.(currentAngle) +' r.(axisVelocity).(w)))
    else body in
  if Z.land body.(antiVibration) 0x7f >? 0 then
    let body :=
      set_antiVibration body
        (u8 (Z.lor (Z.land body.(antiVibration) 0x80)
                   (Z.land body.(antiVibration) 0x7f - 1))) in
    if body.(antiVibration) =? 0x80 then set_antiVibration body 0 else body
  else body.

Definition TPE_createVecFromTo (pointFrom pointTo : TPE_Vec4) (size : Z)
  : TPE_Vec4 :=
  TPE_vec3Times (TPE_vec3Normalized (TPE_vec3Minus pointTo pointFrom)) size.

(** [body1] and [body2] are distinct objects; the pair returned holds their
    final contents. *)
Definition TPE_attractBodies (body1 body2 : TPE_Body) (acceleration : Z)
  : TPE_Body * TPE_Body :=
  let direction :=
    TPE_createVecFromTo body2.(position) body1.(position) acceleration in
  let body2 := set_velocity body2 (TPE_vec3Plus body2.(velocity) direction) in
  let body1 := set_velocity body1 (TPE_vec3Minus body1.(velocity) direction) in
  (body1, body2).

(** ** Worlds *)

(** [TPE_World]: [bodies] is the caller's array, [bodyCount] ([uint16_t]) the
    number of its entries the engine uses.  Accessing [bodies[i]] beyond the
    array is undefined in C; the total functions below leave the list as it
    is there, and every statement about them is for worlds with
    [bodyCount <= length bodies]. *)
Record TPE_World : Type := mkWorld {
  bodies : list TPE_Body;
  bodyCount : Z }.

Definition TPE_World_wf (world : TPE_World) : Prop :=
  0 <= world.(bodyCount) <= Z.of_nat (length world.(bodies)) /\
  world.(bodyCount) < 65536.

(** [for (uint16_t i = 0; i < world->bodyCount; ++i) f(&world->bodies[i]);] *)
Definition for_each_body (f : TPE_Body -> TPE_Body) (world : TPE_World)
  : TPE_World :=
  mkWorld
    (foldl (fun bs i => alter f i bs) world.(bodies)
           (seq 0 (Z.to_nat world.(bodyCount))))
    world.(bodyCount).

Definition TPE_worldStepBodies (world : TPE_World) : TPE_World :=
  for_each_body TPE_bodyStep world.

Definition TPE_worldApplyGravityDown (world : TPE_World) (g : Z) : TPE_World :=
  for_each_body
    (fun b =>
       if negb (b.(mass) =? TPE_INFINITY)
       then set_velocity b (set_y b.(velocity) (b.(velocity).(y) -' g))
       else b)
    world.


(** ** An error monad for run-time traps *)

(** [None] stands for an execution that does not yield a world: a division
    that traps or an access beyond the body array. *)
Notation "x <- e ;; k" :=
  (match e with Some x => k | None => None end)
  (at level 100, e at next level, k at level 200, right associativity).

Fixpoint fold_opt {S A : Type} (f : S -> A -> option S) (s : S) (l : list A)
  : option S :=
  match l with
  | [] => Some s
  | a :: l => s' <- f s a ;; fold_opt f s' l
  end.

(** ** Collisions *)

(** The initial contents of the automatic variables that the C code declares
    without an initialiser and then only partly assigns: [r] in
    [TPE_vec3CrossProduct], [r] in [TPE_vec3Projected], [distanceVec],
    [sphere1] and [sphere2] in [TPE_bodyCollides], [p] and [n] in
    [TPE_worldResolveCollisionNaive].  They are a parameter of the model. *)
Record TPE_Indeterminate : Type := mkIndeterminate {
  ind_cross_r : TPE_Vec4;
  ind_projected_r : TPE_Vec4;
  ind_distanceVec : TPE_Vec4;
  ind_sphere1 : TPE_Body;
  ind_sphere2 : TPE_Body;
  ind_p : TPE_Vec4;
  ind_n : TPE_Vec4 }.

Definition u16 (v : Z) : Z := v mod 65536.

Definition TPE_COLLISION_TYPE (shape1 shape2 : Z) : Z :=
  if shape1 <=? shape2 then Z.lor (u16 (Z.shiftl shape1 8)) shape2
  else Z.lor (u16 (Z.shiftl shape2 8)) shape1.

Definition set_shape (body : TPE_Body) (s : Z) : TPE_Body :=
  mkBody s body.(shapeParams) body.(flags) body.(mass)
         body.(position) body.(velocity) body.(rotation)
         body.(boundingSphereRadius) body.(antiVibration).

(** [body->shapeParams[i] = v] on the three-element array. *)
Definition set_shapeParam (body : TPE_Body) (i : nat) (v : Z) : TPE_Body :=
  mkBody body.(shape)
         (map (fun k => if Nat.eqb k i then v else shapeParam body k)
              [0; 1; 2]%nat)
         body.(flags) body.(mass)
         body.(position) body.(velocity) body.(rotation)
         body.(boundingSphereRadius) body.(antiVibration).

Definition TPE_bodyInit (body : TPE_Body) : TPE_Body :=
  mkBody body.(shape) body.(shapeParams) body.(flags)
         F
         (TPE_vec4 0 0 0 0)
         (TPE_vec4 0 0 0 0)
         (mkRotationState TPE_quaternionInit (TPE_vec4 F 0 0 0) 0)
         0
         0.

Definition TPE_bodyGetOrientation (body : TPE_Body) : TPE_Vec4 :=
  let axisRotation :=
    TPE_rotationToQuaternion body.(rotation).(axisVelocity)
                             body.(rotation).(currentAngle) in
  let result :=
    TPE_quaternionMultiply body.(rotation).(originalOrientation) axisRotation in
  TPE_vec4Normalize result.

Definition TPE_bodyGetMaxExtent (body : TPE_Body) : Z :=
  if body.(shape) =? TPE_SHAPE_SPHERE then shapeParam body 0
  else if body.(shape) =? TPE_SHAPE_CUBOID then
    TPE_vec3Len (TPE_vec4 (shapeParam body 0 /' 2) (shapeParam body 1 /' 2)
                          (shapeParam body 2 /' 2) 0)
  else 0.

Definition TPE_bodyGetKineticEnergy (body : TPE_Body) : Z :=
  let v := TPE_vec3Len body.(velocity) in
  let v := v *' v in
  let v := if (v =? 0) || (v >=? F) then v /' F else 1 in
  let v := (body.(mass) *' v) /' (2 *' F) in
  let r := TPE_bodyGetMaxExtent body in
  let aw := body.(rotation).(axisVelocity).(w) in
  let r :=
    (TPE_timesAntiZero (TPE_timesAntiZero r r) (TPE_timesAntiZero aw aw)
     *' body.(mass)) /' (5 *' F) in
  let r := if (r =? 0) && negb (aw =? 0) then 1 else r in
  v +' r.

Definition TPE_angularVelocityToLinear (velocity distance : Z) : Z :=
  let circumfence := (2 *' TPE_PI *' distance) /' F in
  (velocity *' circumfence) /' F.

Definition TPE_bodySetRotation (body : TPE_Body) (axis : TPE_Vec4)
  (velocity : Z) : TPE_Body :=
  let body :=
    if negb (body.(rotation).(currentAngle) =? 0) then
      set_rotation body
        (mkRotationState (TPE_bodyGetOrientation body)
           body.(rotation).(axisVelocity) body.(rotation).(currentAngle))
    else body in
  let '(axis, velocity) :=
    if velocity <? 0 then
      (TPE_vec4 (axis.(x) *' (-1)) (axis.(y) *' (-1)) (axis.(z) *' (-1))
                axis.(w),
       velocity *' (-1))
    else (axis, velocity) in
  let axis := TPE_vec3Normalize axis in
  let body :=
    set_antiVibration body
      (u8 (Z.lor (Z.land body.(antiVibration) 0x7f)
             (Z.shiftl
                (b2z (TPE_vec3DotProductPlain axis
                        body.(rotation).(axisVelocity) <=? 0)) 7))) in
  set_rotation body
    (mkRotationState body.(rotation).(originalOrientation)
       (set_w axis velocity) 0).

Definition TPE_bodyAddRotation (body : TPE_Body) (axis : TPE_Vec4)
  (velocity : Z) : TPE_Body :=
  if velocity =? 0 then body
  else
    let r := body.(rotation) in
    let av := r.(axisVelocity) in
    let av := set_x av ((av.(x) *' av.(w)) /' F) in
    let av := set_y av ((av.(y) *' av.(w)) /' F) in
    let av := set_z av ((av.(z) *' av.(w)) /' F) in
    let body :=
      set_rotation body
        (mkRotationState r.(originalOrientation) av r.(currentAngle)) in
    let axis := TPE_vec3Normalize axis in
    let axis := set_x axis ((axis.(x) *' velocity) /' F) in
    let axis := set_y axis ((axis.(y) *' velocity) /' F) in
    let axis := set_z axis ((axis.(z) *' velocity) /' F) in
    let axis := TPE_vec3Add body.(rotation).(axisVelocity) axis axis in
    let axis := set_w axis (TPE_vec3Len axis) in
    TPE_bodySetRotation body axis axis.(w).

Definition TPE_bodyMultiplyKineticEnergy (body : TPE_Body) (f : Z)
  : TPE_Body :=
  if body.(mass) =? TPE_INFINITY then body
  else
    let body :=
      set_velocity body (TPE_vec3Multiply body.(velocity) f body.(velocity)) in
    let f := TPE_sqrt (f *' F) in
    let body :=
      set_velocity body (TPE_vec3Multiply body.(velocity) f body.(velocity)) in
    let sign := TPE_sign body.(rotation).(axisVelocity).(w) in
    let r := body.(rotation) in
    let av := set_w r.(axisVelocity) ((r.(axisVelocity).(w) *' f) /' F) in
    let av :=
      if negb (f =? 0) && negb (sign =? 0) && (av.(w) =? 0)
      then set_w av sign else av in
    set_rotation body
      (mkRotationState r.(originalOrientation) av r.(currentAngle)).

(** [body1] and [body2] are distinct objects. *)
Definition TPE_correctEnergies (body1 body2 : TPE_Body)
  (previousEnergy restitution : Z) : TPE_Body * TPE_Body :=
  if previousEnergy =? 0 then (body1, body2)
  else
    let r :=
      if restitution >? F then 1 else if restitution <? F then -1 else 0 in
    let newEnergy :=
      TPE_bodyGetKineticEnergy body1 +' TPE_bodyGetKineticEnergy body2 in
    let f := (newEnergy *' F) /' previousEnergy in
    let restitution :=
      if negb (f =? 0) then (restitution *' F) /' f else F in
    if (restitution >? F +' 10) || (restitution <? F -' 10) then
      let f := (previousEnergy *' restitution) /' F in
      if ((r <? 0) && (f <? previousEnergy)) ||
         ((r =? 0) && (f =? previousEnergy)) ||
         ((r >? 0) && (f >? previousEnergy))
      then (TPE_bodyMultiplyKineticEnergy body1 restitution,
            TPE_bodyMultiplyKineticEnergy body2 restitution)
      else (body1, body2)
    else (body1, body2).

(** Returns the C return value (as a boolean) and the updated body. *)
Definition _TPE_bodyUpdateAntivibration (body : TPE_Body) : bool * TPE_Body :=
  let tmp := Z.land body.(antiVibration) 0x7f in
  if negb (Z.land body.(antiVibration) 0x80 =? 0) then
    let tmp :=
      if tmp <? 127 -' TPE_ANTI_VIBRATION_INCREMENT
      then u8 (tmp +' TPE_ANTI_VIBRATION_INCREMENT) else 127 in
    let body :=
      set_antiVibration body
        (u8 (Z.lor (Z.land body.(antiVibration) 0x80) tmp)) in
    (tmp <=? TPE_ANTI_VIBRATION_MAX_FRAMES, body)
  else (tmp <=? TPE_ANTI_VIBRATION_MAX_FRAMES, body).

Section Collisions.

Variable ind : TPE_Indeterminate.

(** [*result = r] copies all four components of the local [r], whose [w] was
    never assigned. *)
Definition TPE_vec3CrossProduct (a b : TPE_Vec4) : TPE_Vec4 :=
  let r := ind.(ind_cross_r) in
  let r := set_x r ((a.(y) *' b.(z) -' a.(z) *' b.(y)) /' F) in
  let r := set_y r ((a.(z) *' b.(x) -' a.(x) *' b.(z)) /' F) in
  let r := set_z r ((a.(x) *' b.(y) -' a.(y) *' b.(x)) /' F) in
  r.

Definition TPE_vec3Cross (a b : TPE_Vec4) : TPE_Vec4 :=
  TPE_vec3CrossProduct a b.

Definition TPE_vec3Project (v base result : TPE_Vec4) : TPE_Vec4 :=
  let p := TPE_vec3DotProduct v base in
  TPE_vec4 ((p *' base.(x)) /' F) ((p *' base.(y)) /' F)
           ((p *' base.(z)) /' F) result.(w).

(** The local [r] is returned with its [w] never assigned. *)
Definition TPE_vec3Projected (v base : TPE_Vec4) : TPE_Vec4 :=
  TPE_vec3Project v base ind.(ind_projected_r).

Definition TPE_bodyApplyImpulse (body : TPE_Body) (point impulse : TPE_Vec4)
  : option TPE_Body :=
  let pointDistance := TPE_vec3Len point in
  if negb (pointDistance =? 0) then
    ix <- div32_chk (impulse.(x) *' F) body.(mass) ;;
    iy <- div32_chk (impulse.(y) *' F) body.(mass) ;;
    iz <- div32_chk (impulse.(z) *' F) body.(mass) ;;
    let impulse := TPE_vec4 ix iy iz impulse.(w) in
    let body :=
      set_velocity body (TPE_vec3Add body.(velocity) impulse body.(velocity)) in
    let point :=
      TPE_vec4 ((point.(x) *' F) /' pointDistance)
               ((point.(y) *' F) /' pointDistance)
               ((point.(z) *' F) /' pointDistance) point.(w) in
    let impulse := TPE_vec3Cross impulse point in
    let r := TPE_bodyGetMaxExtent body in
    let r := TPE_nonZero ((2 *' r *' r) /' F) in
    let tmp := impulse in
    let impulse :=
      TPE_vec4 ((impulse.(x) *' 5 *' F) /' r) ((impulse.(y) *' 5 *' F) /' r)
               ((impulse.(z) *' 5 *' F) /' r) impulse.(w) in
    let impulse :=
      if (impulse.(x) =? 0) && (impulse.(y) =? 0) && (impulse.(z) =? 0) &&
         (negb (tmp.(x) =? 0) || negb (tmp.(y) =? 0) || negb (tmp.(z) =? 0))
      then TPE_vec4 (TPE_sign tmp.(x)) (TPE_sign tmp.(y)) (TPE_sign tmp.(z))
                    impulse.(w)
      else impulse in
    Some (TPE_bodyAddRotation body impulse (TPE_vec3Len impulse))
  else Some body.

Definition TPE_bodyGetPointVelocity (body : TPE_Body) (point : TPE_Vec4)
  : TPE_Vec4 :=
  let result := body.(velocity) in
  let normal :=
    TPE_vec3Cross point
      (TPE_vec3Minus point body.(rotation).(axisVelocity)) in
  let normal := TPE_vec3MultiplyPlain normal (-1) normal in
  let dist := TPE_vec3Len normal in
  let velocity :=
    TPE_angularVelocityToLinear body.(rotation).(axisVelocity).(w) dist in
  let normal := TPE_vec3Normalize normal in
  TPE_vec3Plus result (TPE_vec3Times normal velocity).

(** The body of [TPE_resolveCollision] from [TPE_Vec4 p1, p2;] on, that is
    after the two pointers have been exchanged if [body2] is static:
    [body1] and [body2] are what the pointers then refer to. *)
Definition TPE_resolveCollision_from_p1 (body1 body2 : TPE_Body)
  (collisionPoint collisionNormal : TPE_Vec4)
  (collisionDepth energyMultiplier : Z) : option (TPE_Body * TPE_Body) :=
  let p1 := TPE_vec3Minus collisionPoint body1.(position) in
  let p2 := TPE_vec3Minus collisionPoint body2.(position) in
  (* separate the bodies *)
  let collisionPoint := collisionNormal in
  let '(body1, body2) :=
    if negb (body1.(mass) =? TPE_INFINITY) then
      let collisionPoint :=
        TPE_vec3Multiply collisionPoint (collisionDepth /' 2) collisionPoint in
      let body2 :=
        set_position body2
          (TPE_vec3Add body2.(position) collisionPoint body2.(position)) in
      let body1 :=
        set_position body1
          (TPE_vec3Substract body1.(position) collisionPoint
             body1.(position)) in
      (body1, body2)
    else
      let collisionPoint :=
        TPE_vec3Multiply collisionPoint collisionDepth collisionPoint in
      let body2 :=
        set_position body2
          (TPE_vec3Add body2.(position) collisionPoint body2.(position)) in
      (body1, body2) in
  let vel1 := TPE_bodyGetPointVelocity body1 p1 in
  let vel2 := TPE_bodyGetPointVelocity body2 p2 in
  let '(body1, body2) :=
    if TPE_vec3Len (TPE_vec3Minus vel1 vel2)
         >=? TPE_ANTI_VIBRATION_VELOCITY_BREAK
    then (set_antiVibration body1 0, set_antiVibration body2 0)
    else (body1, body2) in
  if TPE_vec3DotProduct collisionNormal vel1
       <? TPE_vec3DotProduct collisionNormal vel2
  then Some (body1, body2) (* bodies going away from each other *)
  else
    let tmp := TPE_bodyGetMaxExtent body1 in
    let w1 := ((((body1.(mass) *' tmp) /' F) *' tmp) /' F) /' 5 in
    let q1 := (F *' F *' 2) /' TPE_nonZero w1 in
    let nxp1 := TPE_vec3Cross collisionNormal p1 in
    let rot1 :=
      TPE_vec3Times body1.(rotation).(axisVelocity)
                    body1.(rotation).(axisVelocity).(w) in
    let tmp := TPE_bodyGetMaxExtent body2 in
    let w2 := ((((body2.(mass) *' tmp) /' F) *' tmp) /' F) /' 5 in
    let q2 := (F *' F *' 2) /' TPE_nonZero w2 in
    let nxp2 := TPE_vec3Cross collisionNormal p2 in
    let rot2 :=
      TPE_vec3Times body2.(rotation).(axisVelocity)
                    body2.(rotation).(axisVelocity).(w) in
    let dynamic := b2z (negb (body1.(mass) =? TPE_INFINITY)) in
    (* quadratic equation coefficients *)
    a1 <- div32_chk (dynamic *' F *' F) body1.(mass) ;;
    a2 <- div32_chk (F *' F) body2.(mass) ;;
    let a :=
      (a1 +' a2) /' 2 +'
      (dynamic *' q1 *' TPE_vec3DotProduct nxp1 nxp1 +'
       q2 *' TPE_vec3DotProduct nxp2 nxp2) /' (2 *' F) in
    let b :=
      TPE_vec3DotProduct body2.(velocity) collisionNormal +'
      TPE_vec3DotProduct rot2 nxp2 -'
      dynamic *' (TPE_vec3DotProduct body1.(velocity) collisionNormal +'
                  TPE_vec3DotProduct rot1 nxp1) in
    let e1 := dynamic *' TPE_bodyGetKineticEnergy body1 in
    let e2 := TPE_bodyGetKineticEnergy body2 in
    let c :=
      (dynamic *' body1.(mass) *'
         TPE_vec3DotProduct body1.(velocity) body1.(velocity) +'
       body2.(mass) *' TPE_vec3DotProduct body2.(velocity) body2.(velocity))
        /' (2 *' F) +'
      (dynamic *' w1 *' TPE_vec3DotProduct rot1 rot1 +'
       w2 *' TPE_vec3DotProduct rot2 rot2) /' F -'
      (((e1 +' e2) *' energyMultiplier) /' F) in
    let c := TPE_sqrt (b *' b -' 4 *' a *' c) in (* discriminant *)
    let b := b *' (-1) in
    let a := a *' 2 in
    (* solutions *)
    x1 <- div32_chk ((b -' c) *' F) a ;;
    x2 <- div32_chk ((b +' c) *' F) a ;;
    let x1 := if TPE_abs x1 <? TPE_abs x2 then x2 else x1 in
    let collisionNormal := TPE_vec3Times collisionNormal x1 in
    let '(ok2, body2) := _TPE_bodyUpdateAntivibration body2 in
    body2 <- (if ok2 then TPE_bodyApplyImpulse body2 p2 collisionNormal
              else Some (TPE_bodyMultiplyKineticEnergy body2 0)) ;;
    body1 <- (if negb (body1.(mass) =? TPE_INFINITY) then
                let '(ok1, body1) := _TPE_bodyUpdateAntivibration body1 in
                if ok1 then
                  let collisionNormal :=
                    TPE_vec3MultiplyPlain collisionNormal (-1)
                                          collisionNormal in
                  TPE_bodyApplyImpulse body1 p1 collisionNormal
                else Some (TPE_bodyMultiplyKineticEnergy body1 0)
              else Some body1) ;;
    (* we try to correct possible numerical errors *)
    Some (TPE_correctEnergies body1 body2 (e1 +' e2) energyMultiplier).

(** [TPE_resolveCollision]; the pair returned holds the final contents of
    the caller's [*body1] and [*body2], in the caller's order. *)
Definition TPE_resolveCollision (body1 body2 : TPE_Body)
  (collisionPoint collisionNormal : TPE_Vec4)
  (collisionDepth energyMultiplier : Z) : option (TPE_Body * TPE_Body) :=
  if body2.(mass) =? TPE_INFINITY then (* handle static bodies *)
    if body1.(mass) =? TPE_INFINITY then
      Some (body1, body2) (* static-static collision: do nothing *)
    else
      (* switch the bodies so that the static body is always the first one *)
      let collisionNormal :=
        TPE_vec3MultiplyPlain collisionNormal (-1) collisionNormal in
      r <- TPE_resolveCollision_from_p1 body2 body1 collisionPoint
             collisionNormal collisionDepth energyMultiplier ;;
      Some (snd r, fst r)
  else
    TPE_resolveCollision_from_p1 body1 body2 collisionPoint collisionNormal
      collisionDepth energyMultiplier.



(** *** Collision detection *)

(** [_TPE_getShapes]: the two bodies, the one of shape [shape1] first. *)
Definition _TPE_getShapes (b1 b2 : TPE_Body) (shape1 : Z)
  : TPE_Body * TPE_Body :=
  if b1.(shape) =? shape1 then (b1, b2) else (b2, b1).

Definition _TPE_getCapsuleCyllinderEndpoints (body : TPE_Body)
  : TPE_Vec4 * TPE_Vec4 :=
  let quat := TPE_bodyGetOrientation body in
  let a := TPE_vec4 0 (shapeParam body 1 /' 2) 0 0 in
  let b := TPE_vec4 0 ((-1) *' a.(y)) 0 0 in
  let a := TPE_rotatePoint a quat in
  let b := TPE_rotatePoint b quat in
  let a := TPE_vec3Add a body.(position) a in
  let b := TPE_vec3Add b body.(position) b in
  (a, b).

(** The macro [tAntiOverflow] of [_TPE_cutLineSegmentByPlanes]. *)
Definition tAntiOverflow (sideOffset dc : TPE_Vec4) (da denom : Z) : Z :=
  let t := TPE_vec3DotProductPlain sideOffset dc -' da in
  if TPE_abs t <? 500000 then (t *' F) /' denom
  else ((t /' 64) *' F) /' TPE_nonZero (denom /' 64).

(** Returns the new values of [*t1] and [*t2]. *)
Definition _TPE_cutLineSegmentByPlanes (center sideOffset lineStart lineDir
  : TPE_Vec4) (t1 t2 : Z) : Z * Z :=
  let lineStart := TPE_vec3Minus lineStart center in
  let da := TPE_vec3DotProductPlain sideOffset lineStart in
  let dc := sideOffset in
  let denom := TPE_nonZero (TPE_vec3DotProductPlain sideOffset lineDir) in
  let tA := tAntiOverflow sideOffset dc da denom in
  let dc := TPE_vec3MultiplyPlain sideOffset (-1) dc in
  let tB := tAntiOverflow sideOffset dc da denom in
  let '(tA, tB) := if tB <? tA then (tB, tA) else (tA, tB) in
  let t1 := if tA >? t1 then tA else t1 in
  let t2 := if tB <? t2 then tB else t2 in
  (t1, t2).

(** [case TPE_COLLISION_TYPE(TPE_SHAPE_SPHERE,TPE_SHAPE_SPHERE)] followed by
    the final [return 0].  The triple holds the return value and the final
    contents of [*collisionPoint] and [*collisionNormal]. *)
Definition TPE_bodyCollides_sphere_sphere (body1 body2 : TPE_Body)
  (collisionPoint collisionNormal : TPE_Vec4) : Z * TPE_Vec4 * TPE_Vec4 :=
  let distanceVec :=
    TPE_vec3Substract body2.(position) body1.(position)
                      ind.(ind_distanceVec) in
  let distance := TPE_vec3Len distanceVec in
  let distance := distance -' (shapeParam body1 0 +' shapeParam body2 0) in
  if distance <? 0 then
    let collisionPoint :=
      TPE_vec3Average body1.(position) body2.(position) collisionPoint in
    let collisionNormal := TPE_vec3Normalize distanceVec in
    ((-1) *' distance, collisionPoint, collisionNormal)
  else (0, collisionPoint, collisionNormal).

(** [case TPE_COLLISION_TYPE(TPE_SHAPE_SPHERE,TPE_SHAPE_CAPSULE)].  The
    recursive call is on two bodies of shape [TPE_SHAPE_SPHERE], so it skips
    the bounding sphere test and runs the sphere-sphere case. *)
Definition TPE_bodyCollides_sphere_capsule (body1 body2 : TPE_Body)
  (collisionPoint collisionNormal : TPE_Vec4) : Z * TPE_Vec4 * TPE_Vec4 :=
  let '(sphere, capsule) := _TPE_getShapes body1 body2 TPE_SHAPE_SPHERE in
  let '(cA, cB) := _TPE_getCapsuleCyllinderEndpoints capsule in
  let sphere2 := TPE_bodyInit ind.(ind_sphere2) in
  let sphere2 := set_shape sphere2 TPE_SHAPE_SPHERE in
  let sphere2 := set_shapeParam sphere2 0 (shapeParam capsule 0) in
  let sphere2 :=
    set_position sphere2
      (TPE_lineSegmentClosestPoint cA cB sphere.(position)) in
  (* [sphere == body2] *)
  let swap := negb (body1.(shape) =? TPE_SHAPE_SPHERE) in
  TPE_bodyCollides_sphere_sphere
    (if swap then sphere2 else sphere) (if swap then sphere else sphere2)
    collisionPoint collisionNormal.

Definition squared_distance (tmp : TPE_Vec4) : Z :=
  tmp.(x) *' tmp.(x) +' tmp.(y) *' tmp.(y) +' tmp.(z) *' tmp.(z).

(** [case TPE_COLLISION_TYPE(TPE_SHAPE_CAPSULE,TPE_SHAPE_CAPSULE)]. *)
Definition TPE_bodyCollides_capsule_capsule (body1 body2 : TPE_Body)
  (collisionPoint collisionNormal : TPE_Vec4) : Z * TPE_Vec4 * TPE_Vec4 :=
  let '(a1, b1) := _TPE_getCapsuleCyllinderEndpoints body1 in
  let '(a2, b2) := _TPE_getCapsuleCyllinderEndpoints body2 in
  let aa := squared_distance (TPE_vec3Minus a1 a2) in
  let ab := squared_distance (TPE_vec3Minus a1 b2) in
  let ba := squared_distance (TPE_vec3Minus b1 a2) in
  let bb := squared_distance (TPE_vec3Minus b1 b2) in
  let aa := if ab <? aa then ab else aa in
  let ba := if bb <? ba then bb else ba in
  let a1 := if ba <? aa then b1 else a1 in
  let a2 := TPE_lineSegmentClosestPoint a2 b2 a1 in
  let a1 := TPE_lineSegmentClosestPoint a1 b1 a2 in
  let sphere1 := TPE_bodyInit ind.(ind_sphere1) in
  let sphere1 := set_shape sphere1 TPE_SHAPE_SPHERE in
  let sphere1 := set_shapeParam sphere1 0 (shapeParam body1 0) in
  let sphere1 := set_position sphere1 a1 in
  let sphere2 := TPE_bodyInit ind.(ind_sphere2) in
  let sphere2 := set_shape sphere2 TPE_SHAPE_SPHERE in
  let sphere2 := set_shapeParam sphere2 0 (shapeParam body2 0) in
  let sphere2 := set_position sphere2 a2 in
  TPE_bodyCollides_sphere_sphere sphere1 sphere2 collisionPoint
                                 collisionNormal.

(** [case TPE_COLLISION_TYPE(TPE_SHAPE_SPHERE,TPE_SHAPE_CYLINDER)]. *)
Definition TPE_bodyCollides_sphere_cylinder (body1 body2 : TPE_Body)
  (collisionPoint collisionNormal : TPE_Vec4) : Z * TPE_Vec4 * TPE_Vec4 :=
  let no_collision := (0, collisionPoint, collisionNormal) in
  let '(sphere, cylinder) := _TPE_getShapes body1 body2 TPE_SHAPE_SPHERE in
  (* [sphere == body1] *)
  let sphere_is_body1 := body1.(shape) =? TPE_SHAPE_SPHERE in
  let sphereRelativePos :=
    TPE_vec3Minus sphere.(position) cylinder.(position) in
  let cylinderAxis := TPE_vec4 0 F 0 0 in
  let cylinderAxis :=
    TPE_rotatePoint cylinderAxis (TPE_bodyGetOrientation cylinder) in
  let sphereAxisPos := TPE_vec3Projected sphereRelativePos cylinderAxis in
  let sphereAxisDistance := TPE_vec3Len sphereAxisPos in
  let tmp := shapeParam cylinder 1 /' 2 in
  if sphereAxisDistance >=? tmp +' shapeParam sphere 0 then no_collision
  else
    let sphereAxisToRelative :=
      TPE_vec3Minus sphereRelativePos sphereAxisPos in
    let sphereCylinderDistance := TPE_vec3Len sphereAxisToRelative in
    let tmp := sphereAxisDistance -' tmp in
    if tmp <? 0 then
      let penetration :=
        shapeParam cylinder 0 -'
        (sphereCylinderDistance -' shapeParam sphere 0) in
      if penetration >? 0 then
        let sphereAxisToRelative := TPE_vec3Normalize sphereAxisToRelative in
        let collisionPoint :=
          TPE_vec3Plus cylinder.(position)
            (TPE_vec3Plus sphereAxisPos
               (TPE_vec3Times sphereAxisToRelative (shapeParam cylinder 0))) in
        let collisionNormal := sphereAxisToRelative in
        let collisionNormal :=
          if sphere_is_body1
          then TPE_vec3MultiplyPlain collisionNormal (-1) collisionNormal
          else collisionNormal in
        (penetration, collisionPoint, collisionNormal)
      else no_collision
    else
      let cylinderPlaneMiddle :=
        TPE_vec3Times (TPE_vec3Normalized sphereAxisPos)
                      (shapeParam cylinder 1 /' 2) in
      if sphereCylinderDistance <? shapeParam cylinder 0 then
        let penetration :=
          shapeParam cylinder 1 /' 2 -'
          (sphereAxisDistance -' shapeParam sphere 0) in
        let penetration := if penetration <=? 0 then 1 else penetration in
        let collisionNormal := TPE_vec3Normalized sphereAxisPos in
        let collisionPoint :=
          TPE_vec3Plus cylinder.(position)
            (TPE_vec3Plus sphereAxisToRelative cylinderPlaneMiddle) in
        let collisionNormal :=
          if sphere_is_body1
          then TPE_vec3MultiplyPlain collisionNormal (-1) collisionNormal
          else collisionNormal in
        (penetration, collisionPoint, collisionNormal)
      else
        let edgePoint :=
          TPE_vec3Plus cylinderPlaneMiddle
            (TPE_vec3Times (TPE_vec3Normalized sphereAxisToRelative)
                           (shapeParam cylinder 0)) in
        let penetration :=
          shapeParam sphere 0 -' TPE_vec3Dist edgePoint sphereRelativePos in
        if penetration >? 0 then
          let collisionPoint := TPE_vec3Plus cylinder.(position) edgePoint in
          let collisionNormal :=
            TPE_vec3Normalized (TPE_vec3Minus sphereRelativePos edgePoint) in
          let collisionNormal :=
            if sphere_is_body1
            then TPE_vec3MultiplyPlain collisionNormal (-1) collisionNormal
            else collisionNormal in
          (penetration, collisionPoint, collisionNormal)
        else no_collision.

(** *** Two cuboids *)

(** The three half-extent vectors of a cuboid, turned by its orientation. *)
Definition cuboid_axes (body : TPE_Body) : TPE_Vec4 * TPE_Vec4 * TPE_Vec4 :=
  let q := TPE_bodyGetOrientation body in
  let aX := TPE_rotatePoint (TPE_vec4 (shapeParam body 0 /' 2) 0 0 0) q in
  let aY := TPE_rotatePoint (TPE_vec4 0 (shapeParam body 1 /' 2) 0 0) q in
  let aZ := TPE_rotatePoint (TPE_vec4 0 0 (shapeParam body 2 /' 2) 0) q in
  (aX, aY, aZ).

(** [uint8_t edges[12]]: all cuboid edges as combinations of axes. *)
Definition edges : list Z :=
  [ 0x3b; 0x3e; 0x13; 0x16; 0x29; 0x2c; 0x01; 0x04; 0x3d; 0x19; 0x10; 0x34 ].

(** The macro [offsetCenter(c,v,a)]. *)
Definition offsetCenter (edge c : Z) (v a : TPE_Vec4) : TPE_Vec4 :=
  if negb (Z.land edge c =? 0) then TPE_vec3Plus v a else TPE_vec3Minus v a.

(** [for (uint8_t k = 0; k < 3; ++k)]: the remaining side offsets are cut
    with until [t1 > t2]. *)
Fixpoint cut_by_sides (sides : list TPE_Vec4) (center lineStart edgeDir
  : TPE_Vec4) (t1 t2 : Z) : Z * Z :=
  match sides with
  | [] => (t1, t2)
  | sideOffset :: sides =>
      let '(t1, t2) :=
        _TPE_cutLineSegmentByPlanes center sideOffset lineStart edgeDir
                                    t1 t2 in
      if t1 >? t2 then (t1, t2)
      else cut_by_sides sides center lineStart edgeDir t1 t2
  end.

(** The variables that the edge loops of the cuboid case update. *)
Record edge_state : Type := mkEdgeState {
  collisionHappened : bool;
  collisionExtentMax : TPE_Vec4;
  collisionExtentMin : TPE_Vec4;
  es_collisionPoint : TPE_Vec4 }.

(** The six [if]s that widen the extent of the colliding area. *)
Definition widen_extent (cp : TPE_Vec4) (emax emin : TPE_Vec4)
  : TPE_Vec4 * TPE_Vec4 :=
  let emax := if cp.(x) >? emax.(x) then set_x emax cp.(x) else emax in
  let emin := if cp.(x) <? emin.(x) then set_x emin cp.(x) else emin in
  let emax := if cp.(y) >? emax.(y) then set_y emax cp.(y) else emax in
  let emin := if cp.(y) <? emin.(y) then set_y emin cp.(y) else emin in
  let emax := if cp.(z) >? emax.(z) then set_z emax cp.(z) else emax in
  let emin := if cp.(z) <? emin.(z) then set_z emin cp.(z) else emin in
  (emax, emin).

(** [*collisionPoint = edgeDir; ... *collisionPoint =
    TPE_vec3Plus(lineStart,*collisionPoint);] for the parameter [t]. *)
Definition point_on_edge (lineStart edgeDir : TPE_Vec4) (t : Z) : TPE_Vec4 :=
  let cp := edgeDir in
  let cp := set_x cp ((cp.(x) *' t) /' F) in
  let cp := set_y cp ((cp.(y) *' t) /' F) in
  let cp := set_z cp ((cp.(z) *' t) /' F) in
  TPE_vec3Plus lineStart cp.

(** One round of [for (uint8_t j = 0; j < 12; ++j)]: the edge [edge] of
    [body1] (axes [aX1], [aY1], [aZ1]) against the sides of [body2]. *)
Definition check_edge (body1 body2 : TPE_Body) (aX1 aY1 aZ1 aX2 aY2 aZ2
  : TPE_Vec4) (st : edge_state) (edge : Z) : edge_state :=
  let lineStart := body1.(position) in
  let lineEnd := body1.(position) in
  let lineStart := offsetCenter edge 0x04 lineStart aX1 in
  let lineStart := offsetCenter edge 0x02 lineStart aY1 in
  let lineStart := offsetCenter edge 0x01 lineStart aZ1 in
  let lineEnd := offsetCenter edge 0x20 lineEnd aX1 in
  let lineEnd := offsetCenter edge 0x10 lineEnd aY1 in
  let lineEnd := offsetCenter edge 0x08 lineEnd aZ1 in
  let t1 := 0 in
  let t2 := F in
  let edgeDir := TPE_vec3Minus lineEnd lineStart in
  let '(t1, t2) :=
    cut_by_sides [aX2; aY2; aZ2] body2.(position) lineStart edgeDir t1 t2 in
  if t2 >? t1 then
    let cp := point_on_edge lineStart edgeDir t1 in
    let '(emax, emin) :=
      widen_extent cp st.(collisionExtentMax) st.(collisionExtentMin) in
    let cp := point_on_edge lineStart edgeDir t2 in
    let '(emax, emin) := widen_extent cp emax emin in
    mkEdgeState true emax emin cp
  else st.

(** One round of [for (uint8_t i = 0; i < 2; ++i)], for the bodies that
    [body1] and [body2] point to in that round. *)
Definition check_edges (body1 body2 : TPE_Body) (st : edge_state)
  : edge_state :=
  let '(aX1, aY1, aZ1) := cuboid_axes body1 in
  let '(aX2, aY2, aZ2) := cuboid_axes body2 in
  foldl (check_edge body1 body2 aX1 aY1 aZ1 aX2 aY2 aZ2) st edges.

(** The macro [checkAxis(a)], on the pair [(bestDot, bestAxis)]. *)
Definition checkAxis (a collisionExtentMin : TPE_Vec4) (best : Z * TPE_Vec4)
  : Z * TPE_Vec4 :=
  let '(bestDot, bestAxis) := best in
  let currentDot :=
    (TPE_vec3DotProduct a collisionExtentMin *' F)
    /' TPE_nonZero (TPE_vec3DotProduct a a) in
  if currentDot >? bestDot then (currentDot, a)
  else
    let currentDot := currentDot *' (-1) in
    if currentDot >? bestDot
    then (currentDot, TPE_vec3MultiplyPlain a (-1) a)
    else (bestDot, bestAxis).

(** One round of [for (int i = 0; i < 2; ++i)] after the edge loops: [pos]
    is the position of that round's body, [aX1], [aY1], [aZ1] its axes,
    [first] tells whether [i == 0].  The state is [result] and the contents
    of [*collisionNormal]. *)
Definition closest_side (collisionPoint pos aX1 aY1 aZ1 : TPE_Vec4)
  (first : bool) (st : Z * TPE_Vec4) : Z * TPE_Vec4 :=
  let '(result, collisionNormal) := st in
  let best := (-1, TPE_vec4 1 0 0 0) in
  let collisionExtentMin := TPE_vec3Minus collisionPoint pos in
  let best := checkAxis aX1 collisionExtentMin best in
  let best := checkAxis aY1 collisionExtentMin best in
  let best := checkAxis aZ1 collisionExtentMin best in
  let bestAxis := snd best in
  let len := TPE_nonZero (TPE_vec3Len bestAxis) in
  let len :=
    len -' TPE_vec3DotProductPlain bestAxis
             (TPE_vec3Minus collisionPoint pos) /' len in
  if len >? result then
    let n := TPE_vec3Normalize bestAxis in
    let n := if first then TPE_vec3MultiplyPlain n (-1) n else n in
    (len, n)
  else (result, collisionNormal).

(** [case TPE_COLLISION_TYPE(TPE_SHAPE_CUBOID,TPE_SHAPE_CUBOID)].  After the
    edge loops the pointers [body1] and [body2] are exchanged, and [aX1],
    [aY1], [aZ1] hold the axes of the caller's [body2].

    [*collisionNormal] is written only under [if (len > result)]: when
    neither round of the last loop passes that test, the function returns
    the depth [1] and [*collisionNormal] is still what the caller's variable
    held. *)
Definition TPE_bodyCollides_cuboid_cuboid (body1 body2 : TPE_Body)
  (collisionPoint collisionNormal : TPE_Vec4)
  : option (Z * TPE_Vec4 * TPE_Vec4) :=
  let st :=
    mkEdgeState false
      (TPE_vec4 (- TPE_INFINITY) (- TPE_INFINITY) (- TPE_INFINITY) 0)
      (TPE_vec4 TPE_INFINITY TPE_INFINITY TPE_INFINITY 0)
      collisionPoint in
  let st := check_edges body1 body2 st in
  let st := check_edges body2 body1 st in
  if st.(collisionHappened) then
    let collisionPoint :=
      TPE_vec3Plus st.(collisionExtentMin) st.(collisionExtentMax) in
    let collisionPoint :=
      TPE_vec4 (collisionPoint.(x) /' 2) (collisionPoint.(y) /' 2)
               (collisionPoint.(z) /' 2) 0 in
    let '(aX1, aY1, aZ1) := cuboid_axes body2 in
    let '(aX2, aY2, aZ2) := cuboid_axes body1 in
    let r := (- TPE_INFINITY, collisionNormal) in
    let r :=
      closest_side collisionPoint body2.(position) aX1 aY1 aZ1 true r in
    let r :=
      closest_side collisionPoint body1.(position) aX2 aY2 aZ2 false r in
    Some (if fst r >? 1 then fst r else 1, collisionPoint, snd r)
  else Some (0, collisionPoint, collisionNormal).

(** [TPE_bodyCollides]: the return value and the final contents of
    [*collisionPoint] and [*collisionNormal]. *)
Definition TPE_bodyCollides (body1 body2 : TPE_Body)
  (collisionPoint collisionNormal : TPE_Vec4)
  : option (Z * TPE_Vec4 * TPE_Vec4) :=
  let collType := TPE_COLLISION_TYPE body1.(shape) body2.(shape) in
  if negb (collType =? TPE_COLLISION_TYPE TPE_SHAPE_SPHERE TPE_SHAPE_SPHERE)
     && (TPE_vec3Len (TPE_vec3Minus body1.(position) body2.(position))
         >? body1.(boundingSphereRadius) +' body2.(boundingSphereRadius))
  then Some (0, collisionPoint, collisionNormal)
  else if collType =? TPE_COLLISION_TYPE TPE_SHAPE_SPHERE TPE_SHAPE_SPHERE
  then Some (TPE_bodyCollides_sphere_sphere body1 body2 collisionPoint
               collisionNormal)
  else if collType =? TPE_COLLISION_TYPE TPE_SHAPE_SPHERE TPE_SHAPE_CAPSULE
  then Some (TPE_bodyCollides_sphere_capsule body1 body2 collisionPoint
               collisionNormal)
  else if collType =? TPE_COLLISION_TYPE TPE_SHAPE_CAPSULE TPE_SHAPE_CAPSULE
  then Some (TPE_bodyCollides_capsule_capsule body1 body2 collisionPoint
               collisionNormal)
  else if collType =? TPE_COLLISION_TYPE TPE_SHAPE_SPHERE TPE_SHAPE_CYLINDER
  then Some (TPE_bodyCollides_sphere_cylinder body1 body2 collisionPoint
               collisionNormal)
  else if collType =? TPE_COLLISION_TYPE TPE_SHAPE_CUBOID TPE_SHAPE_CUBOID
  then TPE_bodyCollides_cuboid_cuboid body1 body2 collisionPoint
         collisionNormal
  else Some (0, collisionPoint, collisionNormal).

(** *** The naive collision pass over a world *)

(** The inner loop body for the pair [(i, j)]: the state is the body array
    and the current contents of [p] and [n]. *)
Definition resolve_pair (i j : nat)
  (st : list TPE_Body * TPE_Vec4 * TPE_Vec4)
  : option (list TPE_Body * TPE_Vec4 * TPE_Vec4) :=
  let '(bs, p, n) := st in
  b1 <- bs !! i ;;
  b2 <- bs !! j ;;
  if negb (b1.(mass) =? TPE_INFINITY) || negb (b2.(mass) =? TPE_INFINITY)
  then
    c <- TPE_bodyCollides b1 b2 p n ;;
    let '(d, p, n) := c in
    if negb (d =? 0) then
      r <- TPE_resolveCollision b1 b2 p n d 300 ;;
      Some (<[j := snd r]> (<[i := fst r]> bs), p, n)
    else Some (bs, p, n)
  else Some (bs, p, n).

(** [for (uint16_t i = 0; i < world->bodyCount - 1; ++i) { TPE_Vec4 p, n;
    for (uint16_t j = i + 1; j < world->bodyCount; ++j) ... }] *)
Definition TPE_worldResolveCollisionNaive (world : TPE_World)
  : option TPE_World :=
  let count := Z.to_nat world.(bodyCount) in
  bs <- fold_opt
          (fun bs i =>
             st <- fold_opt (fun st j => resolve_pair i j st)
                     (bs, ind.(ind_p), ind.(ind_n))
                     (seq (S i) (count - S i)) ;;
             Some (fst (fst st)))
          world.(bodies) (seq 0 (count - 1)) ;;
  Some (mkWorld bs world.(bodyCount)).

End Collisions.

(** ** Functions outside the world step *)

(** *** Arcus sine and cosine *)

(** Conversion to [int16_t]. *)
Definition i16 (v : Z) : Z := (v + 32768) mod 65536 - 32768.

(** [while (low <= high) { middle = (low + high) / 2; ... }], the binary
    search of [TPE_asin]; [fuel] bounds the number of rounds, [None] is a
    search that has not ended within it.  The result is the final [middle]. *)
Fixpoint TPE_asin_search (fuel : nat) (x low high middle : Z) : option Z :=
  match fuel with
  | O => None
  | S fuel =>
      if low <=? high then
        let middle := i16 ((low +' high) /' 2) in
        let v := TPE_sinTable_at middle in
        if v >? x then TPE_asin_search fuel x low (i16 (middle -' 1)) middle
        else if v <? x then TPE_asin_search fuel x (i16 (middle +' 1)) high middle
        else Some middle
      else Some middle
  end.

(** [TPE_asin]; [middle0] is the indeterminate initial value of the local
    [middle], which the C code declares without an initialiser. *)
Definition TPE_asin (middle0 : Z) (x : Z) : option Z :=
  let x := TPE_clamp x (neg32 F) F in
  let '(sign, x) := if x <? 0 then (-1, x *' (-1)) else (1, x) in
  middle <-
    TPE_asin_search (Z.to_nat TPE_SIN_TABLE_LENGTH) x 0
      (i16 (TPE_SIN_TABLE_LENGTH -' 1)) middle0 ;;
  let middle := i16 (middle *' TPE_SIN_TABLE_UNIT_STEP) in
  Some (sign *' middle).

Definition TPE_acos (middle0 : Z) (x : Z) : option Z :=
  a <- TPE_asin middle0 ((-1) *' x) ;;
  Some (a +' F /' 4).

(** *** Vector operations *)

(** [a.x *= f; if (a.x != 0) a.x = a.x >= F ? a.x / F : (a.x > 0 ? 1 : -1);]
    for one component. *)
Definition timesAntiZero_component (c f : Z) : Z :=
  let c := c *' f in
  if negb (c =? 0)
  then (if c >=? F then c /' F else if c >? 0 then 1 else -1)
  else c.

Definition TPE_vec3TimesAntiZero (a : TPE_Vec4) (f : Z) : TPE_Vec4 :=
  let a := set_x a (timesAntiZero_component a.(x) f) in
  let a := set_y a (timesAntiZero_component a.(y) f) in
  let a := set_z a (timesAntiZero_component a.(z) f) in
  a.

Definition TPE_vec3LenTaxicab (v : TPE_Vec4) : Z :=
  TPE_abs v.(x) +' TPE_abs v.(y) +' TPE_abs v.(z).

(** *** Velocities *)

(** The division by [circumfence] traps when it is zero. *)
Definition TPE_linearVelocityToAngular (velocity distance : Z) : option Z :=
  let circumfence := (2 *' TPE_PI *' distance) /' F in
  div32_chk (velocity *' F) circumfence.

(** * Vocabulary of the properties *)

(** ** Exact quantities *)

Definition TPE_Vec4_bounded (c : Z) (v : TPE_Vec4) : Prop :=
  Z.abs v.(x) <= c /\ Z.abs v.(y) <= c /\ Z.abs v.(z) <= c.

(** The exact (unbounded) dot product of the first three components. *)
Definition dot3 (u v : TPE_Vec4) : Z :=
  u.(x) * v.(x) + u.(y) * v.(y) + u.(z) * v.(z).

(** The exact difference of the first three components. *)
Definition diff3 (u v : TPE_Vec4) : TPE_Vec4 :=
  TPE_vec4 (u.(x) - v.(x)) (u.(y) - v.(y)) (u.(z) - v.(z)) u.(w).

(** [u] and [v] agree within [eps] in each of the three space coordinates. *)
Definition TPE_within (eps : Z) (u v : TPE_Vec4) : Prop :=
  Z.abs (u.(x) - v.(x)) <= eps /\ Z.abs (u.(y) - v.(y)) <= eps /\
  Z.abs (u.(z) - v.(z)) <= eps.

(** [| sin(a)^2 / F + cos(a)^2 / F - F |], each square normalised on its own. *)
Definition TPE_unit_circle_error (a : Z) : Z :=
  Z.abs (Z.quot (TPE_sin a * TPE_sin a) F + Z.quot (TPE_cos a * TPE_cos a) F - F).

(** [| (sin(a)^2 + cos(a)^2) / F - F |], the sum normalised once. *)
Definition TPE_unit_circle_error_sum (a : Z) : Z :=
  Z.abs (Z.quot (TPE_sin a * TPE_sin a + TPE_cos a * TPE_cos a) F - F).

(** ** Two runs of the same code *)

(** Agreement on the three space components; the fourth one is where the
    indeterminate values travel. *)
Definition eq3 (u v : TPE_Vec4) : Prop :=
  u.(x) = v.(x) /\ u.(y) = v.(y) /\ u.(z) = v.(z).

(** Two results of [TPE_bodyCollides] carry the same information for the
    caller: the same depth, the same normal in space and, when the depth is
    not zero, the same point in space.  The normal counts also at depth
    zero: the caller keeps it for the next pair. *)
Definition coll_rel (r r' : Z * TPE_Vec4 * TPE_Vec4) : Prop :=
  fst (fst r) = fst (fst r') /\ eq3 (snd r) (snd r') /\
  (fst (fst r) <> 0 -> eq3 (snd (fst r)) (snd (fst r'))).

(** Both runs trap, or both yield related values. *)
Definition opt_rel {A : Type} (R : A -> A -> Prop) (o o' : option A) : Prop :=
  match o, o' with
  | Some a, Some a' => R a a'
  | None, None => True
  | _, _ => False
  end.

(** The edge loops of the cuboid case read the extents and the flag of
    their state, never the collision point in it. *)
Definition edge_state_rel (st st' : edge_state) : Prop :=
  collisionHappened st = collisionHappened st' /\
  collisionExtentMax st = collisionExtentMax st' /\
  collisionExtentMin st = collisionExtentMin st'.

(** ** The order of the collision pass *)

(** The index pairs of the two nested loops of
    [TPE_worldResolveCollisionNaive], in the order in which they are run. *)
Definition TPE_bodyPairs (count : nat) : list (nat * nat) :=
  flat_map (fun i => map (pair i) (seq (S i) (count - S i)))
           (seq 0 (count - 1)).

(** Lexicographic order on index pairs. *)
Definition pair_lt (a b : nat * nat) : Prop :=
  (fst a < fst b)%nat \/ (fst a = fst b /\ (snd a < snd b)%nat).

(** The inner loop body at the pair [(i, j)]: [p] and [n] are declared anew
    when the inner loop starts, at [j = i + 1], and carried over from the
    pair before otherwise. *)
Definition resolve_pair_at (ind : TPE_Indeterminate)
  (st : list TPE_Body * TPE_Vec4 * TPE_Vec4) (ij : nat * nat)
  : option (list TPE_Body * TPE_Vec4 * TPE_Vec4) :=
  resolve_pair ind (fst ij) (snd ij)
    (if (snd ij =? S (fst ij))%nat
     then (fst (fst st), ind.(ind_p), ind.(ind_n)) else st).

(** ** Examples *)

(** A world of two bodies: a unit sphere of mass [F] at rest and a static
    sphere at [(100,0,0)]. *)
Definition example_rotation : TPE_RotationState :=
  mkRotationState (TPE_vec4 0 0 0 F) (TPE_vec4 F 0 0 0) 0.

Definition example_dynamic_body : TPE_Body :=
  mkBody TPE_SHAPE_SPHERE [F; 0; 0] 0 F (TPE_vec4 0 0 0 0) (TPE_vec4 0 0 0 0)
         example_rotation F 0.

Definition example_static_body : TPE_Body :=
  mkBody TPE_SHAPE_SPHERE [F; 0; 0] 0 TPE_INFINITY (TPE_vec4 100 0 0 0)
         (TPE_vec4 0 0 0 0) example_rotation F 0.

Definition example_world : TPE_World :=
  mkWorld [example_dynamic_body; example_static_body] 2.

(** Two different contents of the storage that the code leaves
    uninitialised. *)
Definition junk1 : TPE_Indeterminate :=
  mkIndeterminate (TPE_vec4 1 2 3 4) (TPE_vec4 5 6 7 8) (TPE_vec4 9 10 11 12)
                  example_dynamic_body example_static_body
                  (TPE_vec4 13 14 15 16) (TPE_vec4 17 18 19 20).







(** ** Frames and partial results *)

(** Equality of two results of [TPE_asin], as a boolean. *)
Definition opt_Z_eqb (a b : option Z) : bool :=
  match a, b with
  | Some u, Some v => u =? v
  | None, None => true
  | _, _ => false
  end.

(** All four components are [int32_t] values. *)
Definition TPE_Vec4_int32 (v : TPE_Vec4) : Prop :=
  in_int32 v.(x) /\ in_int32 v.(y) /\ in_int32 v.(z) /\ in_int32 v.(w).

(** What a collision may change of a body, and what it may not: the shape,
    its parameters, the flags, the mass and the bounding sphere stay, and a
    static body also keeps its position, velocity and rotation. *)
Definition TPE_body_frame (b b' : TPE_Body) : Prop :=
  b'.(shape) = b.(shape) /\ b'.(shapeParams) = b.(shapeParams) /\
  b'.(flags) = b.(flags) /\ b'.(mass) = b.(mass) /\
  b'.(boundingSphereRadius) = b.(boundingSphereRadius) /\
  (b.(mass) = TPE_INFINITY ->
   b'.(position) = b.(position) /\ b'.(velocity) = b.(velocity) /\
   b'.(rotation) = b.(rotation)).

(** A property of the value of a run that may trap; a trap satisfies it. *)
Definition opt_holds {A : Type} (P : A -> Prop) (o : option A) : Prop :=
  match o with
  | Some a => P a
  | None => True
  end.

(** The example world after the collision pass: the dynamic sphere has been
    pushed out of the static one. *)
Definition example_world_resolved : TPE_World :=
  mkWorld [set_position example_dynamic_body (TPE_vec4 (-924) 0 0 0);
           example_static_body] 2.

(** * Properties *)

(** ** Machine arithmetic *)

Lemma wrap32_small (v : Z) : in_int32 v -> wrap32 v = v.
Proof.
  unfold in_int32, wrap32. intros Hv.
  rewrite Z.mod_small by lia. lia.
Qed.

Lemma wrap32_range (v : Z) : in_int32 (wrap32 v).
Proof.
  unfold in_int32, wrap32.
  pose proof (Z.mod_pos_bound (v + 2 ^ 31) (2 ^ 32) ltac:(lia)). lia.
Qed.

(** Removes every [wrap32] whose argument is shown to fit into 32 bits. *)
Ltac unwrap32 :=
  repeat match goal with
  | |- context [wrap32 ?e] =>
      rewrite (wrap32_small e) by (unfold in_int32; first [lia | nia])
  end.

Lemma TPE_nonZero_nonzero (a : Z) : in_int32 a -> TPE_nonZero a <> 0.
Proof.
  unfold TPE_nonZero, add32, b2z, in_int32. intros Ha.
  destruct (Z.eqb_spec a 0) as [->|Hne]; [discriminate|].
  rewrite Z.add_0_r, wrap32_small by (unfold in_int32; lia). assumption.
Qed.


(** ** [TPE_timesAntiZero] *)

(** What the function computes, for every product that fits into 32 bits:
    the normalised product from [F] upwards, [1] for every other non-zero
    product (negative ones included), [0] for a zero product. *)
Lemma TPE_timesAntiZero_spec (a b : Z) :
  in_int32 (a * b) ->
  TPE_timesAntiZero a b =
    if F <=? a * b then Z.quot (a * b) F
    else if a * b =? 0 then 0 else 1.
Proof.
  intros Hab. unfold TPE_timesAntiZero, mul32, div32.
  rewrite (wrap32_small _ Hab). unfold in_int32 in Hab.
  rewrite Z.geb_leb. destruct (Z.leb_spec F (a * b)) as [Hge|Hlt].
  - unfold TPE_FRACTIONS_PER_UNIT in *.
    pose proof (Z.quot_pos (a * b) 512 ltac:(lia) ltac:(lia)).
    pose proof (Z.quot_le_upper_bound (a * b) 512 (a * b) ltac:(lia) ltac:(lia)).
    apply wrap32_small. unfold in_int32. lia.
  - destruct (Z.eqb_spec (a * b) 0); reflexivity.
Qed.

(** C1 (code defect): for the operands [a = -1024], [b = 512] the true product
    [-524288] is negative and [a*b/F] is [-1024], yet [TPE_timesAntiZero]
    returns [1]: the comparison [result >= F] sends every negative product to
    the anti-zero branch. *)
Theorem TPE_timesAntiZero_negative_product :
  TPE_timesAntiZero (-1024) 512 = 1 /\
  in_int32 (-1024 * 512) /\ -1024 * 512 < 0 /\
  Z.quot (-1024 * 512) TPE_FRACTIONS_PER_UNIT = -1024.
Proof.
  split; [reflexivity|]. unfold in_int32. repeat split; try lia; reflexivity.
Qed.

(** ** [TPE_vec3Normalize] *)

(** C9: normalising the zero vector yields exactly [(F,0,0)]; the fourth
    component, which the function never touches, is kept. *)
Theorem TPE_vec3Normalize_zero (w0 : Z) :
  TPE_vec3Normalize (TPE_vec4 0 0 0 w0) = TPE_vec4 TPE_FRACTIONS_PER_UNIT 0 0 w0.
Proof.
  unfold TPE_vec3Normalize.
  assert (Hl : TPE_vec3Len (TPE_vec4 0 0 0 w0) = 0) by (vm_compute; reflexivity).
  rewrite Hl. reflexivity.
Qed.

(** ** [TPE_getVelocitiesAfterCollision] *)

(** C10: equal masses [0 < m <= 30000], distinct velocities of magnitude at
    most 30000 and elasticity [F]: the two velocities are swapped exactly. *)
Theorem TPE_getVelocitiesAfterCollision_swap (m v1 v2 : Z) :
  0 < m <= 30000 -> Z.abs v1 <= 30000 -> Z.abs v2 <= 30000 -> v1 <> v2 ->
  TPE_getVelocitiesAfterCollision v1 v2 m m TPE_FRACTIONS_PER_UNIT = (v2, v1).
Proof.
  intros Hm Hv1 Hv2 Hne.
  unfold TPE_getVelocitiesAfterCollision, ANTI_OVERFLOW.
  assert (Hle : forall a, a <= 30000 -> (a >? 30000) = false)
    by (intros a Ha; rewrite Z.gtb_ltb; apply Z.ltb_ge; exact Ha).
  rewrite !Hle by lia. cbn [orb negb].
  unfold TPE_nonZero, b2z, TPE_FRACTIONS_PER_UNIT, add32, sub32, mul32, div32.
  assert (Hq : Z.quot (512 * m) 512 = m)
    by (rewrite Z.mul_comm; apply Z.quot_mul; lia).
  unwrap32. rewrite Hq.
  destruct (Z.eqb_spec (m + m) 0) as [?|_]; [lia|].
  destruct (Z.eqb_spec (v2 - v1) 0) as [?|_]; [lia|].
  rewrite !Z.add_0_r.
  unwrap32.
  replace (m * (v2 - v1) + (m * v1 + m * v2)) with (v2 * (m + m)) by ring.
  replace (m * -1 * (v2 - v1) + (m * v1 + m * v2)) with (v1 * (m + m)) by ring.
  rewrite !Z.quot_mul by lia.
  unwrap32. reflexivity.
Qed.

Lemma TPE_getVelocitiesAfterCollision_swap_witness :
  TPE_getVelocitiesAfterCollision 100 (-50) 20 20 TPE_FRACTIONS_PER_UNIT
    = (-50, 100).
Proof.
  apply (TPE_getVelocitiesAfterCollision_swap 20 100 (-50)); lia.
Defined.

(** ** [TPE_sqrt] *)

Lemma TPE_sqrt_seek_step (a b : N) :
  TPE_sqrt_seek a b =
    if decide (a < b)%N then TPE_sqrt_seek a (N.shiftr b 2) else b.
Proof.
  rewrite TPE_sqrt_seek_equation_1. destruct (decide (a < b)%N); reflexivity.
Qed.

Lemma TPE_sqrt_loop_step (a result b : N) :
  TPE_sqrt_loop a result b =
    if decide (b = 0)%N then result
    else
      let '(a', result') :=
        if (u32 (result + b) <=? a)%N
        then (u32 (a - u32 (result + b)), u32 (result + u32 (2 * b)))
        else (a, result) in
      TPE_sqrt_loop a' (N.shiftr result' 1) (N.shiftr b 2).
Proof.
  rewrite TPE_sqrt_loop_equation_1. destruct (decide (b = 0)%N); [reflexivity|].
  cbn. destruct (u32 (result + b) <=? a)%N; reflexivity.
Qed.

Local Open Scope N_scope.

Lemma shiftr2_pow4 (k : nat) : N.shiftr (4 ^ N.of_nat (S k)) 2 = 4 ^ N.of_nat k.
Proof.
  rewrite N.shiftr_div_pow2. change (2 ^ 2) with 4.
  rewrite Nat2N.inj_succ, N.pow_succ_r', N.mul_comm, N.div_mul; lia.
Qed.

Lemma TPE_sqrt_seek_spec (k : nat) (a : N) :
  a < 4 ^ N.of_nat (S k) ->
  let b := TPE_sqrt_seek a (4 ^ N.of_nat k) in
  (b = 0 /\ a = 0) \/
  (exists j : nat, (j <= k)%nat /\ b = 4 ^ N.of_nat j /\ b <= a < 4 * b).
Proof.
  induction k as [|k IH]; intros Ha; cbn zeta.
  - rewrite TPE_sqrt_seek_step. change (4 ^ N.of_nat 0) with 1 in *.
    destruct (decide (a < 1)) as [Hlt|Hge].
    + left. change (N.shiftr 1 2) with 0. rewrite TPE_sqrt_seek_step.
      destruct (decide (a < 0)); [lia|]. split; lia.
    + right. exists 0%nat. change (4 ^ N.of_nat 1) with 4 in Ha.
      change (4 ^ N.of_nat 0) with 1. repeat split; lia.
  - rewrite TPE_sqrt_seek_step.
    destruct (decide (a < 4 ^ N.of_nat (S k))) as [Hlt|Hge].
    + rewrite shiftr2_pow4. destruct (IH Hlt) as [?|(j & Hj & Hb & Hr)]; [now left|].
      right. exists j. repeat split; try lia; assumption.
    + right. exists (S k). split; [lia|]. split; [reflexivity|].
      rewrite (Nat2N.inj_succ (S k)), N.pow_succ_r' in Ha. lia.
Qed.

Lemma half_double (m : N) : N.shiftr (2 * m) 1 = m.
Proof.
  rewrite N.shiftr_div_pow2. change (2 ^ 1) with 2.
  rewrite N.mul_comm. apply N.div_mul. lia.
Qed.

Lemma u32_small (m : N) : m < 4294967296 -> u32 m = m.
Proof. intros Hm. unfold u32. apply N.mod_small. exact Hm. Qed.

Lemma TPE_sqrt_loop_spec (k : nat) :
  forall q a res n : N,
    let b := 4 ^ N.of_nat k in
    res = 4 * b * q -> n = a + 4 * b * q * q ->
    n < 4 * b * (q + 1) * (q + 1) -> n < 2147483648 -> b <= 1073741824 ->
    let r := TPE_sqrt_loop a res b in
    r * r <= n < (r + 1) * (r + 1).
Proof.
  induction k as [|k IH]; intros q a res n b Hres Hn Hup Hn31 Hb30 r; subst r.
  - change (4 ^ N.of_nat 0) with 1 in b. subst b.
    rewrite TPE_sqrt_loop_step. destruct (decide (1 = 0)) as [?|_]; [lia|].
    assert (Hq : q <= q * q) by nia.
    rewrite (u32_small (res + 1)) by lia.
    change (u32 (2 * 1)) with 2.
    rewrite (u32_small (res + 2)) by lia.
    change (N.shiftr 1 2) with 0.
    destruct (N.leb_spec (res + 1) a) as [Hle|Hgt].
    + rewrite TPE_sqrt_loop_step. destruct (decide (0 = 0)) as [_|?]; [|lia].
      replace (res + 2) with (2 * (2 * q + 1)) by lia.
      rewrite half_double. nia.
    + rewrite TPE_sqrt_loop_step. destruct (decide (0 = 0)) as [_|?]; [|lia].
      replace res with (2 * (2 * q)) by lia.
      rewrite half_double. nia.
  - set (b' := 4 ^ N.of_nat k) in *.
    assert (Hb : b = 4 * b')
      by (subst b b'; rewrite Nat2N.inj_succ, N.pow_succ_r'; reflexivity).
    assert (Hb'pos : 1 <= b') by (subst b'; pose proof (N.pow_nonzero 4 (N.of_nat k)); lia).
    clearbody b b'. subst b.
    rewrite TPE_sqrt_loop_step. destruct (decide (4 * b' = 0)) as [?|_]; [lia|].
    assert (Hq : b' * q <= b' * q * q).
    { destruct (N.eq_dec q 0) as [->|Hq0]; [lia|].
      rewrite <- (N.mul_1_r (b' * q)) at 1. apply N.mul_le_mono_l. lia. }
    assert (Hq' : q = 0 \/ b' <= b' * q).
    { destruct (N.eq_dec q 0) as [->|Hq0]; [now left|right].
      rewrite <- (N.mul_1_r b') at 1. apply N.mul_le_mono_l. lia. }
    rewrite (u32_small (res + 4 * b')) by lia.
    rewrite (u32_small (2 * (4 * b'))) by lia.
    rewrite (u32_small (res + 2 * (4 * b'))) by lia.
    replace (N.shiftr (4 * b') 2) with b'
      by (rewrite N.shiftr_div_pow2; change (2 ^ 2) with 4;
          rewrite N.mul_comm, N.div_mul; lia).
    destruct (N.leb_spec (res + 4 * b') a) as [Hle|Hgt].
    + rewrite (u32_small (a - (res + 4 * b'))) by lia.
      replace (res + 2 * (4 * b')) with (2 * (4 * b' * (2 * q + 1))) by lia.
      rewrite half_double.
      apply (IH (2 * q + 1)); try lia; try nia.
    + replace res with (2 * (4 * b' * (2 * q))) by lia.
      rewrite half_double.
      apply (IH (2 * q)); try lia; try nia.
Qed.

Lemma TPE_sqrt_unsigned_spec (a : N) :
  a < 2147483648 ->
  let r := TPE_sqrt_loop a 0 (TPE_sqrt_seek a (N.shiftl 1 30)) in
  r * r <= a < (r + 1) * (r + 1).
Proof.
  intros Ha. change (N.shiftl 1 30) with (4 ^ N.of_nat 15).
  destruct (TPE_sqrt_seek_spec 15 a) as [[Hb Ha0]|(j & Hj & Hb & Hr)].
  - change (4 ^ N.of_nat 16) with 4294967296. lia.
  - cbn zeta. rewrite Hb, Ha0, TPE_sqrt_loop_step.
    destruct (decide (0 = 0)); lia.
  - cbn zeta. rewrite Hb in *.
    apply (TPE_sqrt_loop_spec j 0 a 0 a); try lia.
    change 1073741824 with (4 ^ N.of_nat 15).
    apply N.pow_le_mono_r; lia.
Qed.

Local Close Scope N_scope.

Lemma TPE_sqrt_nonneg (v : Z) :
  0 <= v < 2 ^ 31 -> TPE_sqrt v = Z.sqrt v.
Proof.
  intros Hv. unfold TPE_sqrt.
  destruct (Z.ltb_spec v 0) as [?|_]; [lia|].
  rewrite (Z.mod_small v) by lia.
  pose proof (TPE_sqrt_unsigned_spec (Z.to_N v) ltac:(lia)) as Hr.
  cbn zeta in Hr.
  set (r := TPE_sqrt_loop _ _ _) in *. clearbody r.
  assert (Hr' : Z.of_N r * Z.of_N r <= v < (Z.of_N r + 1) * (Z.of_N r + 1)) by nia.
  assert (Hsmall : Z.of_N r < 2 ^ 31) by nia.
  change (1 mod 2 ^ 32) with 1. rewrite Z.mul_1_r.
  rewrite Z.mod_small by lia. rewrite wrap32_small by (unfold in_int32; lia).
  symmetry. apply Z.sqrt_unique. unfold Z.succ. lia.
Qed.

Lemma TPE_sqrt_neg (v : Z) :
  - 2 ^ 31 < v < 0 -> TPE_sqrt v = - Z.sqrt (- v).
Proof.
  intros Hv. unfold TPE_sqrt.
  destruct (Z.ltb_spec v 0) as [_|?]; [|lia].
  unfold mul32. replace (v * -1) with (- v) by ring.
  rewrite (wrap32_small (- v)) by (unfold in_int32; lia).
  rewrite (Z.mod_small (- v)) by lia.
  pose proof (TPE_sqrt_unsigned_spec (Z.to_N (- v)) ltac:(lia)) as Hr.
  cbn zeta in Hr.
  set (r := TPE_sqrt_loop _ _ _) in *. clearbody r.
  assert (Hr' : Z.of_N r * Z.of_N r <= - v < (Z.of_N r + 1) * (Z.of_N r + 1)) by nia.
  assert (Hsmall : 0 <= Z.of_N r < 2 ^ 31) by nia.
  rewrite (Z.sqrt_unique (- v) (Z.of_N r)) by (unfold Z.succ; lia).
  change (-1 mod 2 ^ 32) with (2 ^ 32 - 1).
  unfold wrap32. rewrite Z.add_mod_idemp_l by lia.
  replace (Z.of_N r * (2 ^ 32 - 1) + 2 ^ 31)
    with (- Z.of_N r + 2 ^ 31 + Z.of_N r * 2 ^ 32) by ring.
  rewrite Z_mod_plus_full. rewrite Z.mod_small by lia. lia.
Qed.

(** C6: for [x >= 0] the result is exactly the integer square root; for
    [-2^31 < x < 0] it is [- TPE_sqrt (- x)]. *)
Theorem TPE_sqrt_correct (v : Z) :
  (0 <= v < 2 ^ 31 -> TPE_sqrt v = Z.sqrt v) /\
  (- 2 ^ 31 < v < 0 -> TPE_sqrt v = - TPE_sqrt (- v)).
Proof.
  split; intros Hv.
  - apply TPE_sqrt_nonneg, Hv.
  - rewrite (TPE_sqrt_nonneg (- v)) by lia. apply TPE_sqrt_neg, Hv.
Qed.

(** ** [TPE_lineSegmentClosestPoint] *)

Lemma mul_abs_bound (u v c d : Z) :
  Z.abs u <= c -> Z.abs v <= d -> - (c * d) <= u * v <= c * d.
Proof.
  intros Hu Hv.
  assert (H : Z.abs (u * v) <= c * d).
  { rewrite Z.abs_mul. apply Z.mul_le_mono_nonneg; lia. }
  lia.
Qed.

Lemma TPE_vec3Minus_exact (u v : TPE_Vec4) :
  TPE_Vec4_bounded 10000 u -> TPE_Vec4_bounded 10000 v ->
  TPE_vec3Minus u v = diff3 u v /\ TPE_Vec4_bounded 20000 (diff3 u v).
Proof.
  unfold TPE_Vec4_bounded, TPE_vec3Minus, diff3, sub32.
  destruct u as [ux uy uz uw], v as [vx vy vz vw]; cbn [x y z w].
  intros (Hx & Hy & Hz) (Hx' & Hy' & Hz').
  rewrite !wrap32_small by (unfold in_int32; lia).
  split; [reflexivity|lia].
Qed.

Lemma TPE_vec3DotProduct_exact (u v : TPE_Vec4) :
  TPE_Vec4_bounded 20000 u -> TPE_Vec4_bounded 20000 v ->
  TPE_vec3DotProduct u v = Z.quot (dot3 u v) 512 /\
  - 1200000000 <= dot3 u v <= 1200000000.
Proof.
  unfold TPE_Vec4_bounded, TPE_vec3DotProduct, dot3, add32, mul32, div32.
  destruct u as [ux uy uz uw], v as [vx vy vz vw]; cbn [x y z w].
  intros (Hx & Hy & Hz) (Hx' & Hy' & Hz').
  pose proof (mul_abs_bound _ _ _ _ Hx Hx').
  pose proof (mul_abs_bound _ _ _ _ Hy Hy').
  pose proof (mul_abs_bound _ _ _ _ Hz Hz').
  repeat match goal with
  | |- context [wrap32 ?e] => rewrite (wrap32_small e) by (unfold in_int32; lia)
  end.
  unfold TPE_FRACTIONS_PER_UNIT.
  set (s := ux * vx + uy * vy + uz * vz) in *.
  assert (Hs : - 1200000000 <= s <= 1200000000) by (subst s; lia).
  split; [|exact Hs].
  apply wrap32_small. unfold in_int32.
  pose proof (Z.quot_rem' s 512). pose proof (Z.rem_bound_abs s 512 ltac:(lia)).
  lia.
Qed.

Lemma TPE_nonZero_pos (d : Z) :
  0 <= d < 2 ^ 30 -> TPE_nonZero d = Z.max d 1.
Proof.
  intros Hd. unfold TPE_nonZero, add32, b2z.
  destruct (Z.eqb_spec d 0) as [->|Hne]; [reflexivity|].
  rewrite wrap32_small by (unfold in_int32; lia). lia.
Qed.

Lemma TPE_lineSegmentClosestPoint_formula (a b p : TPE_Vec4) :
  TPE_lineSegmentClosestPoint a b p =
    let ab := TPE_vec3Minus b a in
    let t := TPE_clamp
               ((TPE_vec3DotProduct ab (TPE_vec3Minus p a) *' F)
                /' TPE_nonZero (TPE_vec3DotProduct ab ab)) 0 F in
    TPE_vec3Plus a (TPE_vec3Multiply ab t ab).
Proof.
  unfold TPE_lineSegmentClosestPoint, TPE_clamp. cbv zeta.
  set (t := _ /' _).
  rewrite Z.geb_leb, Z.gtb_ltb.
  destruct (Z.ltb_spec t 0), (Z.leb_spec 0 t), (Z.ltb_spec F t),
    (Z.leb_spec t F); try lia; reflexivity.
Qed.

Lemma quot_nonpos_bounds (n d : Z) :
  n <= 0 -> 0 < d -> n <= Z.quot n d <= 0.
Proof.
  intros Hn Hd. split.
  - apply Z.quot_le_lower_bound; [exact Hd|]. nia.
  - apply Z.quot_le_upper_bound; [exact Hd|]. nia.
Qed.

Lemma quot_scaled_bounds (n d : Z) :
  0 < d -> d <= n -> 512 <= Z.quot (n * 512) d <= n * 512.
Proof.
  intros Hd Hn. split.
  - apply Z.quot_le_lower_bound; [exact Hd|]. nia.
  - apply Z.quot_le_upper_bound; [exact Hd|]. nia.
Qed.

Lemma quot512_sign (s : Z) :
  (s <= 0 -> Z.quot s 512 <= 0) /\ (0 <= s -> 0 <= Z.quot s 512) /\
  512 * Z.abs (Z.quot s 512) <= Z.abs s.
Proof.
  pose proof (Z.quot_rem' s 512) as Hq.
  repeat split.
  - intros Hs. pose proof (Z.rem_nonpos s 512 ltac:(lia) Hs).
    pose proof (Z.rem_bound_abs s 512 ltac:(lia)). lia.
  - intros Hs. apply Z.quot_pos; lia.
  - pose proof (Z.rem_bound_abs s 512 ltac:(lia)).
    destruct (Z.le_ge_cases 0 s) as [Hs|Hs].
    + pose proof (Z.rem_nonneg s 512 ltac:(lia) Hs).
      pose proof (Z.quot_pos s 512 Hs ltac:(lia)). lia.
    + pose proof (Z.rem_nonpos s 512 ltac:(lia) Hs). lia.
Qed.

Lemma quot512_mono (s t : Z) : 0 <= s <= t -> Z.quot s 512 <= Z.quot t 512.
Proof. intros Hst. apply Z.quot_le_mono; lia. Qed.

Lemma clamp_low (t : Z) : t <= 0 -> TPE_clamp t 0 F = 0.
Proof.
  intros Ht. unfold TPE_clamp, TPE_FRACTIONS_PER_UNIT. rewrite Z.geb_leb.
  destruct (Z.leb_spec 0 t); [|reflexivity].
  destruct (Z.leb_spec t 512); lia.
Qed.

Lemma clamp_high (t : Z) : F <= t -> TPE_clamp t 0 F = F.
Proof.
  unfold TPE_clamp, TPE_FRACTIONS_PER_UNIT. intros Ht. rewrite Z.geb_leb.
  destruct (Z.leb_spec 0 t); [|lia].
  destruct (Z.leb_spec t 512); lia.
Qed.

Lemma TPE_lineSegmentClosestPoint_ends (a b p : TPE_Vec4) :
  TPE_Vec4_bounded 10000 a -> TPE_Vec4_bounded 10000 b ->
  TPE_Vec4_bounded 10000 p ->
  let s1 := dot3 (diff3 b a) (diff3 p a) in
  let s2 := dot3 (diff3 b a) (diff3 b a) in
  (s1 <= 0 -> TPE_lineSegmentClosestPoint a b p = a) /\
  (F <= s2 <= s1 ->
   TPE_lineSegmentClosestPoint a b p = TPE_vec4 b.(x) b.(y) b.(z) a.(w)).
Proof.
  intros Ha Hb Hp s1 s2.
  rewrite TPE_lineSegmentClosestPoint_formula. cbv zeta.
  destruct (TPE_vec3Minus_exact b a Hb Ha) as [-> Hab].
  destruct (TPE_vec3Minus_exact p a Hp Ha) as [-> Hpa].
  destruct (TPE_vec3DotProduct_exact _ _ Hab Hpa) as [-> Hs1].
  destruct (TPE_vec3DotProduct_exact _ _ Hab Hab) as [-> Hs2].
  fold s1 s2 in Hs1, Hs2 |- *.
  assert (Hs2pos : 0 <= s2) by (subst s2; unfold dot3; nia).
  clearbody s1 s2. clear Hpa Hp.
  destruct (quot512_sign s1) as (Hneg1 & Hpos1 & Habs1).
  destruct (quot512_sign s2) as (_ & Hpos2 & Habs2).
  specialize (Hpos2 Hs2pos).
  pose proof (quot512_mono s2 s1) as Hmono.
  pose proof (Z.quot_le_lower_bound s2 512 1 ltac:(lia)) as Hd2ge.
  set (d1 := Z.quot s1 512) in *. set (d2 := Z.quot s2 512) in *.
  clearbody d1 d2.
  rewrite (TPE_nonZero_pos d2) by lia.
  unfold mul32, div32, TPE_FRACTIONS_PER_UNIT in *.
  rewrite (wrap32_small (d1 * 512)) by (unfold in_int32; lia).
  unfold TPE_Vec4_bounded, diff3 in *.
  destruct a as [ax ay az aw], b as [bx by_ bz bw].
  cbn [x y z w] in *.
  split.
  - intros Hle. specialize (Hneg1 Hle).
    pose proof (quot_nonpos_bounds (d1 * 512) (Z.max d2 1)
                  ltac:(lia) ltac:(lia)) as Ht.
    rewrite wrap32_small by (unfold in_int32; lia).
    rewrite clamp_low by lia.
    unfold TPE_vec3Plus, TPE_vec3Multiply, add32, mul32, div32,
      TPE_FRACTIONS_PER_UNIT; cbn [x y z w].
    rewrite !Z.mul_0_r. change (Z.quot 0 512) with 0.
    change (wrap32 0) with 0. rewrite !Z.add_0_r.
    rewrite !wrap32_small by (unfold in_int32; lia). reflexivity.
  - intros [HF Hle].
    assert (Hd2 : 1 <= d2) by lia.
    assert (Hd12 : d2 <= d1) by lia.
    rewrite Z.max_l by lia.
    pose proof (quot_scaled_bounds d1 d2 ltac:(lia) Hd12) as Ht.
    rewrite wrap32_small by (unfold in_int32; lia).
    rewrite clamp_high by (unfold TPE_FRACTIONS_PER_UNIT; lia).
    unfold TPE_vec3Plus, TPE_vec3Multiply, add32, mul32, div32,
      TPE_FRACTIONS_PER_UNIT; cbn [x y z w].
    rewrite !(wrap32_small (_ * 512)) by (unfold in_int32; lia).
    rewrite !Z.quot_mul by lia.
    rewrite !(wrap32_small (_ - _)) by (unfold in_int32; lia).
    rewrite !wrap32_small by (unfold in_int32; lia).
    f_equal; lia.
Qed.

Lemma TPE_sqrt_correct_witness :
  TPE_sqrt 1000000 = Z.sqrt 1000000 /\ TPE_sqrt (-17) = - TPE_sqrt (- -17).
Proof.
  split.
  - apply (proj1 (TPE_sqrt_correct 1000000)). lia.
  - apply (proj2 (TPE_sqrt_correct (-17))). lia.
Defined.

(** C2 (as stated, refuted): the midpoint query on the segment
    [(0,0,0)-(100,0,0)] yields [(47,0,0)], not [(50,0,0)]; and the query
    [(20,0,0)] past the end [(10,0,0)] of a short segment yields the other
    end [(0,0,0)]. *)
Lemma TPE_lineSegmentClosestPoint_inexact :
  TPE_lineSegmentClosestPoint
    (TPE_vec4 0 0 0 0) (TPE_vec4 100 0 0 0) (TPE_vec4 50 0 0 0)
    = TPE_vec4 47 0 0 0 /\
  TPE_vec4 47 0 0 0 <> TPE_vec4 50 0 0 0 /\
  TPE_lineSegmentClosestPoint
    (TPE_vec4 0 0 0 0) (TPE_vec4 10 0 0 0) (TPE_vec4 20 0 0 0)
    = TPE_vec4 0 0 0 0 /\
  TPE_vec4 0 0 0 0 <> TPE_vec4 10 0 0 0.
Proof.
  repeat split; try (vm_compute; reflexivity); discriminate.
Qed.

(** C2 (amended): the function is the clamped fixed-point projection
    [a + ((b-a) * t) / F] with
    [t = clamp((dot(b-a,p-a) * F) / nonZero(dot(b-a,b-a)), 0, F)];
    on the segment [(0,0,0)-(100,0,0)] the query [(50,0,0)] yields [(47,0,0)],
    less than 10 away from [(50,0,0)] as the repository's test asks; and for
    coordinates of magnitude at most 10000, a query whose exact projection
    falls at or before [a] yields exactly [a], while one whose exact
    projection falls at or past [b] yields exactly [b] (with [a]'s fourth
    component) provided the squared length of the segment is at least [F]. *)
Theorem TPE_lineSegmentClosestPoint_spec :
  (forall a b p : TPE_Vec4,
     TPE_lineSegmentClosestPoint a b p =
       let ab := TPE_vec3Minus b a in
       let t := TPE_clamp
                  ((TPE_vec3DotProduct ab (TPE_vec3Minus p a) *' F)
                   /' TPE_nonZero (TPE_vec3DotProduct ab ab)) 0 F in
       TPE_vec3Plus a (TPE_vec3Multiply ab t ab)) /\
  (let r := TPE_lineSegmentClosestPoint
              (TPE_vec4 0 0 0 0) (TPE_vec4 100 0 0 0) (TPE_vec4 50 0 0 0) in
   r = TPE_vec4 47 0 0 0 /\ TPE_vec3Dist r (TPE_vec4 50 0 0 0) < 10) /\
  (forall a b p : TPE_Vec4,
     TPE_Vec4_bounded 10000 a -> TPE_Vec4_bounded 10000 b ->
     TPE_Vec4_bounded 10000 p ->
     let s1 := dot3 (diff3 b a) (diff3 p a) in
     let s2 := dot3 (diff3 b a) (diff3 b a) in
     (s1 <= 0 -> TPE_lineSegmentClosestPoint a b p = a) /\
     (F <= s2 <= s1 ->
      TPE_lineSegmentClosestPoint a b p = TPE_vec4 b.(x) b.(y) b.(z) a.(w))).
Proof.
  split; [exact TPE_lineSegmentClosestPoint_formula|].
  split; [split; vm_compute; reflexivity|].
  exact TPE_lineSegmentClosestPoint_ends.
Qed.

Lemma TPE_lineSegmentClosestPoint_spec_witness :
  TPE_lineSegmentClosestPoint
    (TPE_vec4 (-100) (-100) 20 0) (TPE_vec4 1000 10000 2000 0)
    (TPE_vec4 (-3000) (-5000) (-1000) 0) = TPE_vec4 (-100) (-100) 20 0 /\
  TPE_lineSegmentClosestPoint
    (TPE_vec4 0 0 0 7) (TPE_vec4 100 0 0 0) (TPE_vec4 200 0 0 0)
    = TPE_vec4 100 0 0 7.
Proof.
  split.
  - apply (proj1 (proj2 (proj2 TPE_lineSegmentClosestPoint_spec)
             (TPE_vec4 (-100) (-100) 20 0) (TPE_vec4 1000 10000 2000 0)
             (TPE_vec4 (-3000) (-5000) (-1000) 0)
             ltac:(vm_compute; intuition discriminate)
             ltac:(vm_compute; intuition discriminate)
             ltac:(vm_compute; intuition discriminate)));
      vm_compute; discriminate.
  - apply (proj2 (proj2 (proj2 TPE_lineSegmentClosestPoint_spec)
             (TPE_vec4 0 0 0 7) (TPE_vec4 100 0 0 0) (TPE_vec4 200 0 0 0)
             ltac:(vm_compute; intuition discriminate)
             ltac:(vm_compute; intuition discriminate)
             ltac:(vm_compute; intuition discriminate)));
      vm_compute; split; discriminate.
Defined.

(** ** Rotation of a point *)

(** The quaternion of a quarter turn about the z axis. *)
Lemma TPE_rotationToQuaternion_quarter_z (wa : Z) :
  TPE_rotationToQuaternion (TPE_vec4 0 0 TPE_FRACTIONS_PER_UNIT wa) 128
    = TPE_vec4 0 0 361 356.
Proof. vm_compute. reflexivity. Qed.

(** C3 (as stated, refuted): the rotated vector is [(3,-502,0)]; its second
    coordinate is more than a whole unit [F] away from that of [(0,F,0)]. *)
Lemma TPE_rotatePoint_quarter_z_not_plus_y :
  TPE_rotatePoint (TPE_vec4 TPE_FRACTIONS_PER_UNIT 0 0 0)
    (TPE_rotationToQuaternion (TPE_vec4 0 0 TPE_FRACTIONS_PER_UNIT 0)
       (Z.quot TPE_FRACTIONS_PER_UNIT 4))
    = TPE_vec4 3 (-502) 0 0 /\
  ~ TPE_within TPE_FRACTIONS_PER_UNIT
      (TPE_vec4 3 (-502) 0 0) (TPE_vec4 0 TPE_FRACTIONS_PER_UNIT 0 0).
Proof.
  split; [vm_compute; reflexivity|].
  unfold TPE_within, TPE_FRACTIONS_PER_UNIT; cbn [x y z]. lia.
Qed.

(** C3 (amended): rotating [(F,0,0)] by the quaternion that
    [TPE_rotationToQuaternion] builds for axis [(0,0,F)] and angle [F/4]
    yields [(3,-502,0)], which is within 10 (the tolerance of the repository's
    tests) of [(0,-F,0)]: [TPE_rotatePoint] multiplies the row vector by the
    matrix, so the quarter turn takes +x to -y. *)
Theorem TPE_rotatePoint_quarter_z (w0 wa : Z) :
  let r := TPE_rotatePoint (TPE_vec4 TPE_FRACTIONS_PER_UNIT 0 0 w0)
             (TPE_rotationToQuaternion
                (TPE_vec4 0 0 TPE_FRACTIONS_PER_UNIT wa)
                (Z.quot TPE_FRACTIONS_PER_UNIT 4)) in
  r = TPE_vec4 3 (-502) 0 w0 /\
  TPE_within 10 r (TPE_vec4 0 (- TPE_FRACTIONS_PER_UNIT) 0 w0).
Proof.
  cbv zeta. change (Z.quot TPE_FRACTIONS_PER_UNIT 4) with 128.
  rewrite TPE_rotationToQuaternion_quarter_z.
  assert (Hr : TPE_rotatePoint (TPE_vec4 TPE_FRACTIONS_PER_UNIT 0 0 w0)
                 (TPE_vec4 0 0 361 356) = TPE_vec4 3 (-502) 0 w0)
    by (vm_compute; reflexivity).
  rewrite Hr. split; [reflexivity|].
  unfold TPE_within, TPE_FRACTIONS_PER_UNIT; cbn [x y z]. lia.
Qed.

(** ** Sine and cosine *)

Lemma forallb_Z_range (f : Z -> bool) (n : nat) :
  forallb f (map Z.of_nat (seq 0 n)) = true ->
  forall a : Z, 0 <= a < Z.of_nat n -> f a = true.
Proof.
  intros Hall a Ha.
  rewrite forallb_forall in Hall. apply Hall.
  apply in_map_iff. exists (Z.to_nat a). split; [lia|].
  apply in_seq. lia.
Qed.

(** C5 (as stated, refuted): at the angle [a = 54] both normalised readings
    of [sin^2 + cos^2] miss [F] by 11, more than twice the claimed 5; the
    unnormalised sum is [257776], nowhere near [F*F/F = 512]. *)
Lemma TPE_unit_circle_error_exceeds_5 :
  TPE_unit_circle_error 54 = 11 /\ TPE_unit_circle_error_sum 54 = 11 /\
  TPE_sin 54 * TPE_sin 54 + TPE_cos 54 * TPE_cos 54 = 257000 /\
  5 < 11.
Proof. repeat split; try (vm_compute; reflexivity). Qed.

(** C5 (amended): for every angle [a] in [[0, F)],
    [sin(a)^2/F + cos(a)^2/F] (and likewise [(sin(a)^2 + cos(a)^2)/F]) differs
    from [F] by at least 3 and at most 11, i.e. the tolerance is about
    [F/46], not [F/100]. *)
Theorem TPE_unit_circle_error_bound (a : Z) :
  0 <= a < TPE_FRACTIONS_PER_UNIT ->
  3 <= TPE_unit_circle_error a <= 11 /\
  3 <= TPE_unit_circle_error_sum a <= 11.
Proof.
  intros Ha.
  pose proof (forallb_Z_range
    (fun a => (3 <=? TPE_unit_circle_error a) &&
              (TPE_unit_circle_error a <=? 11) &&
              (3 <=? TPE_unit_circle_error_sum a) &&
              (TPE_unit_circle_error_sum a <=? 11)) 512
    ltac:(vm_compute; reflexivity) a Ha) as Hall.
  cbv beta in Hall.
  repeat (apply andb_prop in Hall; destruct Hall as [Hall ?]).
  repeat match goal with H : (_ <=? _) = true |- _ => apply Z.leb_le in H end.
  lia.
Qed.

Lemma TPE_unit_circle_error_bound_witness :
  3 <= TPE_unit_circle_error 64 <= 11 /\
  3 <= TPE_unit_circle_error_sum 64 <= 11.
Proof.
  apply (TPE_unit_circle_error_bound 64). unfold TPE_FRACTIONS_PER_UNIT. lia.
Defined.

(** ** Loops over the bodies of a world *)

Lemma foldl_alter_seq_lookup (f : TPE_Body -> TPE_Body) (bs : list TPE_Body)
    (n i : nat) :
  foldl (fun bs i => alter f i bs) bs (seq 0 n) !! i =
    if decide (i < n)%nat then f <$> bs !! i else bs !! i.
Proof.
  induction n as [|n IH]; [reflexivity|].
  rewrite seq_S, foldl_app. cbn [foldl Nat.add].
  destruct (decide (i = n)) as [->|Hne].
  - rewrite list_lookup_alter_eq, IH.
    destruct (decide (n < n)%nat); [lia|].
    destruct (decide (n < S n)%nat); [reflexivity|lia].
  - rewrite list_lookup_alter_ne by congruence. rewrite IH.
    destruct (decide (i < n)%nat), (decide (i < S n)%nat); try lia; reflexivity.
Qed.

Lemma foldl_alter_seq_length (f : TPE_Body -> TPE_Body) (bs : list TPE_Body)
    (n : nat) :
  length (foldl (fun bs i => alter f i bs) bs (seq 0 n)) = length bs.
Proof.
  induction n as [|n IH]; [reflexivity|].
  rewrite seq_S, foldl_app. cbn [foldl]. rewrite length_alter. exact IH.
Qed.

Lemma for_each_body_lookup (f : TPE_Body -> TPE_Body) (world : TPE_World)
    (i : nat) :
  (for_each_body f world).(bodies) !! i =
    if decide (Z.of_nat i < world.(bodyCount))
    then f <$> world.(bodies) !! i else world.(bodies) !! i.
Proof.
  unfold for_each_body; cbn [bodies]. rewrite foldl_alter_seq_lookup.
  destruct (decide (i < Z.to_nat (bodyCount world))%nat),
    (decide (Z.of_nat i < bodyCount world)); try lia; reflexivity.
Qed.

(** C8: gravity subtracts [g] (in 32-bit arithmetic, hence exactly [g]
    whenever the difference fits) from the y velocity of each of the first
    [bodyCount] bodies whose mass is not [TPE_INFINITY]; every other body and
    every other field stays as it was. *)
Theorem TPE_worldApplyGravityDown_effect (world : TPE_World) (g : Z) :
  TPE_World_wf world ->
  let world' := TPE_worldApplyGravityDown world g in
  world'.(bodyCount) = world.(bodyCount) /\
  length world'.(bodies) = length world.(bodies) /\
  forall (i : nat) (b : TPE_Body),
    world.(bodies) !! i = Some b ->
    exists b' : TPE_Body,
      world'.(bodies) !! i = Some b' /\
      (Z.of_nat i < world.(bodyCount) -> b.(mass) <> TPE_INFINITY ->
         b' = set_velocity b
                (TPE_vec4 b.(velocity).(x) (b.(velocity).(y) -' g)
                          b.(velocity).(z) b.(velocity).(w)) /\
         (in_int32 (b.(velocity).(y) - g) ->
          b'.(velocity).(y) = b.(velocity).(y) - g)) /\
      (b.(mass) = TPE_INFINITY -> b' = b) /\
      (world.(bodyCount) <= Z.of_nat i -> b' = b) /\
      b'.(shape) = b.(shape) /\ b'.(shapeParams) = b.(shapeParams) /\
      b'.(flags) = b.(flags) /\ b'.(mass) = b.(mass) /\
      b'.(position) = b.(position) /\ b'.(rotation) = b.(rotation) /\
      b'.(boundingSphereRadius) = b.(boundingSphereRadius) /\
      b'.(antiVibration) = b.(antiVibration) /\
      b'.(velocity).(x) = b.(velocity).(x) /\
      b'.(velocity).(z) = b.(velocity).(z) /\
      b'.(velocity).(w) = b.(velocity).(w).
Proof.
  intros Hwf world'. subst world'. unfold TPE_worldApplyGravityDown.
  split; [reflexivity|]. split.
  { unfold for_each_body; cbn [bodies]. apply foldl_alter_seq_length. }
  intros i b Hb. rewrite for_each_body_lookup, Hb.
  destruct (decide (Z.of_nat i < bodyCount world)) as [Hlt|Hge].
  - cbn [fmap option_fmap option_map].
    destruct (Z.eqb_spec (mass b) TPE_INFINITY) as [Hinf|Hfin]; cbn [negb].
    + exists b. split; [reflexivity|]. repeat split; try reflexivity; congruence.
    + eexists. split; [reflexivity|].
      split; [intros _ _; split; [reflexivity|]|].
      * intros Hfit. cbn. unfold sub32. apply wrap32_small, Hfit.
      * split; [congruence|]. split; [lia|]. repeat split.
  - exists b. split; [reflexivity|]. repeat split; try reflexivity; lia.
Qed.

Lemma example_world_wf : TPE_World_wf example_world.
Proof. unfold TPE_World_wf; cbn. lia. Qed.

Lemma TPE_worldApplyGravityDown_effect_witness :
  TPE_World_wf example_world /\
  (exists b' : TPE_Body,
     (TPE_worldApplyGravityDown example_world 5).(bodies) !! 0%nat = Some b' /\
     b'.(velocity).(y) = 0 - 5 /\
     b'.(position) = example_dynamic_body.(position)) /\
  (TPE_worldApplyGravityDown example_world 5).(bodies) !! 1%nat
    = Some example_static_body.
Proof.
  pose proof (TPE_worldApplyGravityDown_effect example_world 5
                example_world_wf) as (_ & _ & Hall).
  split; [exact example_world_wf|]. split.
  - destruct (Hall 0%nat example_dynamic_body eq_refl)
      as (b' & Hb' & Hdyn & _ & _ & _ & _ & _ & _ & Hpos & _).
    exists b'. split; [exact Hb'|]. split; [|exact Hpos].
    apply Hdyn; [cbn; lia|discriminate|unfold in_int32; cbn; lia].
  - destruct (Hall 1%nat example_static_body eq_refl)
      as (b' & Hb' & _ & Hstat & _).
    rewrite Hb'. f_equal. apply Hstat. reflexivity.
Defined.

(** ** Static bodies *)

(** [TPE_bodyStep] neither moves nor accelerates nor turns a body of mass
    [TPE_INFINITY]. *)
Lemma TPE_bodyStep_static (body : TPE_Body) :
  body.(mass) = TPE_INFINITY ->
  (TPE_bodyStep body).(position) = body.(position) /\
  (TPE_bodyStep body).(velocity) = body.(velocity) /\
  (TPE_bodyStep body).(rotation) = body.(rotation) /\
  (TPE_bodyStep body).(mass) = body.(mass).
Proof.
  intros Hm. unfold TPE_bodyStep. rewrite Hm, Z.eqb_refl. cbn [negb].
  destruct (Z.land (antiVibration body) 127 >? 0); [|now rewrite Hm].
  destruct (antiVibration (set_antiVibration body _) =? 128);
    cbn [position velocity rotation mass set_antiVibration]; now rewrite Hm.
Qed.

(** C4 (code defect): [TPE_attractBodies] has no test of the mass.  A static
    body (mass [TPE_INFINITY]) at rest at the origin, attracted with
    acceleration [F] towards a body at [(100,0,0)], leaves the call with the
    velocity [(512,0,0)]. *)
Theorem TPE_attractBodies_accelerates_static :
  let body1 :=
    mkBody TPE_SHAPE_SPHERE [F; 0; 0] 0 TPE_INFINITY (TPE_vec4 0 0 0 0)
           (TPE_vec4 0 0 0 0) example_rotation F 0 in
  let body2 :=
    mkBody TPE_SHAPE_SPHERE [F; 0; 0] 0 F (TPE_vec4 100 0 0 0)
           (TPE_vec4 0 0 0 0) example_rotation F 0 in
  body1.(mass) = TPE_INFINITY /\ body1.(velocity) = TPE_vec4 0 0 0 0 /\
  (fst (TPE_attractBodies body1 body2 F)).(velocity) = TPE_vec4 512 0 0 0 /\
  (fst (TPE_attractBodies body1 body2 F)).(mass) = TPE_INFINITY.
Proof. cbv zeta. repeat split. Qed.

(** ** The world step and the storage it leaves uninitialised *)

(** *** What the indeterminate storage can reach *)

Lemma eq3_refl (u : TPE_Vec4) : eq3 u u.
Proof. repeat split. Qed.

Lemma eq3_intro (a a' b b' c c' w1 w2 : Z) :
  a = a' -> b = b' -> c = c' ->
  eq3 (TPE_vec4 a b c w1) (TPE_vec4 a' b' c' w2).
Proof. now intros -> -> ->. Qed.

Lemma eq3_of_eq (u v : TPE_Vec4) : u = v -> eq3 u v.
Proof. intros ->. apply eq3_refl. Qed.

(** Proves a congruence of a component-wise vector operation: [eq3] (or
    equal) arguments give [eq3] (or equal) results. *)
Ltac vec_cong :=
  intros; subst;
  repeat match goal with v : TPE_Vec4 |- _ => destruct v end;
  unfold eq3 in *; cbn [x y z w] in *;
  repeat match goal with H : _ /\ _ |- _ => destruct H end;
  subst; cbv beta iota zeta delta [x y z w];
  repeat split.

Lemma TPE_vec3Plus_eq3 (a a' b b' : TPE_Vec4) :
  eq3 a a' -> eq3 b b' ->
  eq3 (TPE_vec3Plus a b) (TPE_vec3Plus a' b').
Proof. unfold TPE_vec3Plus. vec_cong. Qed.

Lemma TPE_vec3Plus_eq (a a' b b' : TPE_Vec4) :
  a = a' -> eq3 b b' ->
  TPE_vec3Plus a b = TPE_vec3Plus a' b'.
Proof. unfold TPE_vec3Plus. vec_cong. Qed.

Lemma TPE_vec3Minus_eq3 (a a' b b' : TPE_Vec4) :
  eq3 a a' -> eq3 b b' ->
  eq3 (TPE_vec3Minus a b) (TPE_vec3Minus a' b').
Proof. unfold TPE_vec3Minus. vec_cong. Qed.

Lemma TPE_vec3Minus_eq (a a' b b' : TPE_Vec4) :
  a = a' -> eq3 b b' ->
  TPE_vec3Minus a b = TPE_vec3Minus a' b'.
Proof. unfold TPE_vec3Minus. vec_cong. Qed.

Lemma TPE_vec3Times_eq3 (a a' : TPE_Vec4) (f f' : Z) :
  eq3 a a' -> f = f' ->
  eq3 (TPE_vec3Times a f) (TPE_vec3Times a' f').
Proof. unfold TPE_vec3Times. vec_cong. Qed.

Lemma TPE_vec3Add_eq3 (a a' b b' r r' : TPE_Vec4) :
  eq3 a a' -> eq3 b b' ->
  eq3 (TPE_vec3Add a b r) (TPE_vec3Add a' b' r').
Proof. unfold TPE_vec3Add. vec_cong. Qed.

Lemma TPE_vec3Add_eq (a a' b b' r r' : TPE_Vec4) :
  eq3 a a' -> eq3 b b' -> r = r' ->
  TPE_vec3Add a b r = TPE_vec3Add a' b' r'.
Proof. unfold TPE_vec3Add. vec_cong. Qed.

Lemma TPE_vec3Substract_eq3 (a a' b b' r r' : TPE_Vec4) :
  eq3 a a' -> eq3 b b' ->
  eq3 (TPE_vec3Substract a b r) (TPE_vec3Substract a' b' r').
Proof. unfold TPE_vec3Substract. vec_cong. Qed.

Lemma TPE_vec3Substract_eq (a a' b b' r r' : TPE_Vec4) :
  eq3 a a' -> eq3 b b' -> r = r' ->
  TPE_vec3Substract a b r = TPE_vec3Substract a' b' r'.
Proof. unfold TPE_vec3Substract. vec_cong. Qed.

Lemma TPE_vec3Average_eq3 (a a' b b' r r' : TPE_Vec4) :
  eq3 a a' -> eq3 b b' ->
  eq3 (TPE_vec3Average a b r) (TPE_vec3Average a' b' r').
Proof. unfold TPE_vec3Average. vec_cong. Qed.

Lemma TPE_vec3Average_eq (a a' b b' r r' : TPE_Vec4) :
  eq3 a a' -> eq3 b b' -> r = r' ->
  TPE_vec3Average a b r = TPE_vec3Average a' b' r'.
Proof. unfold TPE_vec3Average. vec_cong. Qed.

Lemma TPE_vec3Multiply_eq3 (a a' r r' : TPE_Vec4) (f f' : Z) :
  eq3 a a' -> f = f' ->
  eq3 (TPE_vec3Multiply a f r) (TPE_vec3Multiply a' f' r').
Proof. unfold TPE_vec3Multiply. vec_cong. Qed.

Lemma TPE_vec3Multiply_eq (a a' r r' : TPE_Vec4) (f f' : Z) :
  eq3 a a' -> f = f' -> r = r' ->
  TPE_vec3Multiply a f r = TPE_vec3Multiply a' f' r'.
Proof. unfold TPE_vec3Multiply. vec_cong. Qed.

Lemma TPE_vec3MultiplyPlain_eq3 (a a' r r' : TPE_Vec4) (f f' : Z) :
  eq3 a a' -> f = f' ->
  eq3 (TPE_vec3MultiplyPlain a f r) (TPE_vec3MultiplyPlain a' f' r').
Proof. unfold TPE_vec3MultiplyPlain. vec_cong. Qed.

Lemma TPE_vec3MultiplyPlain_eq (a a' r r' : TPE_Vec4) (f f' : Z) :
  eq3 a a' -> f = f' -> r = r' ->
  TPE_vec3MultiplyPlain a f r = TPE_vec3MultiplyPlain a' f' r'.
Proof. unfold TPE_vec3MultiplyPlain. vec_cong. Qed.

Lemma TPE_vec3Len_eq (a a' : TPE_Vec4) :
  eq3 a a' ->
  TPE_vec3Len a = TPE_vec3Len a'.
Proof. unfold TPE_vec3Len. vec_cong. Qed.

Lemma TPE_vec3Dist_eq (a a' b b' : TPE_Vec4) :
  eq3 a a' -> eq3 b b' ->
  TPE_vec3Dist a b = TPE_vec3Dist a' b'.
Proof. unfold TPE_vec3Dist, TPE_vec3Len, TPE_vec3Minus. vec_cong. Qed.

Lemma TPE_vec3DotProduct_eq (a a' b b' : TPE_Vec4) :
  eq3 a a' -> eq3 b b' ->
  TPE_vec3DotProduct a b = TPE_vec3DotProduct a' b'.
Proof. unfold TPE_vec3DotProduct. vec_cong. Qed.

Lemma TPE_vec3DotProductPlain_eq (a a' b b' : TPE_Vec4) :
  eq3 a a' -> eq3 b b' ->
  TPE_vec3DotProductPlain a b = TPE_vec3DotProductPlain a' b'.
Proof. unfold TPE_vec3DotProductPlain. vec_cong. Qed.

Lemma squared_distance_eq (a a' : TPE_Vec4) :
  eq3 a a' ->
  squared_distance a = squared_distance a'.
Proof. unfold squared_distance. vec_cong. Qed.

Lemma set_x_eq3 (a a' : TPE_Vec4) (f f' : Z) :
  eq3 a a' -> f = f' ->
  eq3 (set_x a f) (set_x a' f').
Proof. unfold set_x. vec_cong. Qed.

Lemma set_y_eq3 (a a' : TPE_Vec4) (f f' : Z) :
  eq3 a a' -> f = f' ->
  eq3 (set_y a f) (set_y a' f').
Proof. unfold set_y. vec_cong. Qed.

Lemma set_z_eq3 (a a' : TPE_Vec4) (f f' : Z) :
  eq3 a a' -> f = f' ->
  eq3 (set_z a f) (set_z a' f').
Proof. unfold set_z. vec_cong. Qed.

Lemma set_w_eq (a a' : TPE_Vec4) (f f' : Z) :
  eq3 a a' -> f = f' ->
  set_w a f = set_w a' f'.
Proof. unfold set_w. vec_cong. Qed.

Lemma TPE_vec3Project_eq3 (a a' b b' r r' : TPE_Vec4) :
  eq3 a a' -> eq3 b b' ->
  eq3 (TPE_vec3Project a b r) (TPE_vec3Project a' b' r').
Proof. unfold TPE_vec3Project, TPE_vec3DotProduct. vec_cong. Qed.

Lemma TPE_vec3Project_eq (a a' b b' r r' : TPE_Vec4) :
  eq3 a a' -> eq3 b b' -> r = r' ->
  TPE_vec3Project a b r = TPE_vec3Project a' b' r'.
Proof. unfold TPE_vec3Project, TPE_vec3DotProduct. vec_cong. Qed.

Lemma x_eq3 (a a' : TPE_Vec4) : eq3 a a' -> a.(x) = a'.(x).
Proof. now intros (? & ? & ?). Qed.

Lemma y_eq3 (a a' : TPE_Vec4) : eq3 a a' -> a.(y) = a'.(y).
Proof. now intros (? & ? & ?). Qed.

Lemma z_eq3 (a a' : TPE_Vec4) : eq3 a a' -> a.(z) = a'.(z).
Proof. now intros (? & ? & ?). Qed.

Lemma TPE_vec3Normalize_eq3 (a a' : TPE_Vec4) :
  eq3 a a' -> eq3 (TPE_vec3Normalize a) (TPE_vec3Normalize a').
Proof.
  intros H. unfold TPE_vec3Normalize. rewrite (TPE_vec3Len_eq a a' H).
  destruct H as (Hx & Hy & Hz).
  destruct (_ =? 0); unfold eq3; cbn [x y z]; rewrite ?Hx, ?Hy, ?Hz; auto.
Qed.

Lemma TPE_vec3Normalized_eq3 (a a' : TPE_Vec4) :
  eq3 a a' -> eq3 (TPE_vec3Normalized a) (TPE_vec3Normalized a').
Proof. apply TPE_vec3Normalize_eq3. Qed.

Lemma TPE_vec3CrossProduct_eq3 (ind ind' : TPE_Indeterminate)
    (a a' b b' : TPE_Vec4) :
  eq3 a a' -> eq3 b b' ->
  eq3 (TPE_vec3CrossProduct ind a b) (TPE_vec3CrossProduct ind' a' b').
Proof. unfold TPE_vec3CrossProduct, set_x, set_y, set_z. vec_cong. Qed.

Lemma TPE_vec3Cross_eq3 (ind ind' : TPE_Indeterminate) (a a' b b' : TPE_Vec4) :
  eq3 a a' -> eq3 b b' -> eq3 (TPE_vec3Cross ind a b) (TPE_vec3Cross ind' a' b').
Proof. apply TPE_vec3CrossProduct_eq3. Qed.

Lemma TPE_vec3Projected_eq3 (ind ind' : TPE_Indeterminate)
    (a a' b b' : TPE_Vec4) :
  eq3 a a' -> eq3 b b' ->
  eq3 (TPE_vec3Projected ind a b) (TPE_vec3Projected ind' a' b').
Proof.
  intros Ha Hb. unfold TPE_vec3Projected, TPE_vec3Project.
  rewrite (TPE_vec3DotProduct_eq a a' b b' Ha Hb).
  destruct Hb as (Hx & Hy & Hz).
  unfold eq3; cbn [x y z]; rewrite ?Hx, ?Hy, ?Hz; auto.
Qed.


Lemma if_eq3 (c c' : bool) (a a' b b' : TPE_Vec4) :
  c = c' -> eq3 a a' -> eq3 b b' ->
  eq3 (if c then a else b) (if c' then a' else b').
Proof. intros -> ? ?. now destruct c'. Qed.

Lemma if_eq {A : Type} (c c' : bool) (a a' b b' : A) :
  c = c' -> a = a' -> b = b' ->
  (if c then a else b) = (if c' then a' else b').
Proof. now intros -> -> ->. Qed.

Lemma app_cong {A B : Type} (f g : A -> B) (a b : A) :
  f = g -> a = b -> f a = g b.
Proof. now intros -> ->. Qed.

(** The congruences of the functions proved further down. *)
Ltac cong_more := fail.

(** One congruence step on a goal [a = b] or [eq3 a b] between two
    expressions of the same shape. *)
Ltac cong_step :=
  lazymatch goal with
  | |- ?a = ?b =>
      first
        [ constr_eq a b; reflexivity
        | match goal with H : a = b |- _ => exact H end
        | simple apply x_eq3 | simple apply y_eq3 | simple apply z_eq3
        | simple apply TPE_vec3Plus_eq
        | simple apply TPE_vec3Minus_eq
        | simple apply TPE_vec3Add_eq
        | simple apply TPE_vec3Substract_eq
        | simple apply TPE_vec3Average_eq
        | simple apply TPE_vec3Multiply_eq
        | simple apply TPE_vec3MultiplyPlain_eq
        | simple apply TPE_vec3Len_eq
        | simple apply TPE_vec3Dist_eq
        | simple apply TPE_vec3DotProduct_eq
        | simple apply TPE_vec3DotProductPlain_eq
        | simple apply squared_distance_eq
        | simple apply set_w_eq
        | simple apply TPE_vec3Project_eq
        | simple apply if_eq
        | cong_more
        | lazymatch goal with
          | |- ?f ?u = ?g ?v => apply (app_cong f g u v)
          end ]
  | |- eq3 ?a ?b =>
      first
        [ constr_eq a b; apply eq3_refl
        | match goal with H : eq3 a b |- _ => exact H end
        | simple apply eq3_intro
        | simple apply TPE_vec3Plus_eq3
        | simple apply TPE_vec3Minus_eq3
        | simple apply TPE_vec3Times_eq3
        | simple apply TPE_vec3Add_eq3
        | simple apply TPE_vec3Substract_eq3
        | simple apply TPE_vec3Average_eq3
        | simple apply TPE_vec3Multiply_eq3
        | simple apply TPE_vec3MultiplyPlain_eq3
        | simple apply set_x_eq3
        | simple apply set_y_eq3
        | simple apply set_z_eq3
        | simple apply TPE_vec3Project_eq3
        | simple apply TPE_vec3Normalize_eq3
        | simple apply TPE_vec3Normalized_eq3
        | simple apply TPE_vec3CrossProduct_eq3
        | simple apply TPE_vec3Cross_eq3
        | simple apply TPE_vec3Projected_eq3
        | simple apply if_eq3
        | apply eq3_of_eq ]
  end.

Ltac cong := repeat cong_step.

(** Stepping through two runs of the same code: related values of a local
    variable, then the rest of the code for any two related values. *)
Lemma let_rel {A B : Type} (R : A -> A -> Prop) (Q : B -> B -> Prop)
    (a a' : A) (k k' : A -> B) :
  R a a' -> (forall v v', R v v' -> Q (k v) (k' v')) ->
  Q (let v := a in k v) (let v := a' in k' v).
Proof. intros Ha Hk. exact (Hk a a' Ha). Qed.

Lemma let_same {A B : Type} (Q : B -> B -> Prop) (a a' : A) (k k' : A -> B) :
  a = a' -> (forall v, Q (k v) (k' v)) ->
  Q (let v := a in k v) (let v := a' in k' v).
Proof. intros -> Hk. exact (Hk a'). Qed.

Lemma if_same {B : Type} (Q : B -> B -> Prop) (c c' : bool) (a a' b b' : B) :
  c = c' -> Q a a' -> Q b b' ->
  Q (if c then a else b) (if c' then a' else b').
Proof. intros -> ? ?. now destruct c'. Qed.

Lemma bind_same {A B : Type} (e e' : option A) (k k' : A -> option B) :
  e = e' -> (forall v, k v = k' v) ->
  (v <- e ;; k v) = (v <- e' ;; k' v).
Proof. intros -> Hk. destruct e'; auto. Qed.

Lemma pair_same {A1 A2 B : Type} (Q : B -> B -> Prop) (e e' : A1 * A2)
    (k k' : A1 -> A2 -> B) :
  e = e' -> (forall u v, Q (k u v) (k' u v)) ->
  Q (let '(u, v) := e in k u v) (let '(u, v) := e' in k' u v).
Proof. intros -> Hk. destruct e'. apply Hk. Qed.

(** A leaf of the stepping: two expressions of the same shape. *)
Ltac leaf := solve [ cbv zeta; cong ].

(** One step through the two runs. *)
Ltac step :=
  lazymatch goal with
  | |- ?Q (let v := ?a in @?k v) (let v' := ?a' in @?k' v') =>
      first
        [ apply (let_same Q a a' k k'); [ leaf | intros ?; cbv beta ]
        | apply (let_rel eq3 Q a a' k k'); [ leaf | intros ? ? ?; cbv beta ] ]
  | |- ?Q (if ?c then ?a else ?b) (if ?c' then ?a' else ?b') =>
      apply (if_same Q c c' a a' b b'); [ leaf | | ]
  | |- (match ?e with Some v => @?k v | None => None end)
       = (match ?e' with Some v' => @?k' v' | None => None end) =>
      apply (bind_same e e' k k'); [ try leaf | intros ?; cbv beta ]
  | |- ?Q (let '(u, v) := ?e in @?k u v) (let '(u', v') := ?e' in @?k' u' v') =>
      apply (pair_same Q e e' k k'); [ leaf | intros ? ?; cbv beta ]
  | |- _ = _ => leaf
  end.

Lemma TPE_bodyGetPointVelocity_indep (ind ind' : TPE_Indeterminate)
    (body body' : TPE_Body) (point point' : TPE_Vec4) :
  body = body' -> eq3 point point' ->
  TPE_bodyGetPointVelocity ind body point
    = TPE_bodyGetPointVelocity ind' body' point'.
Proof. intros <- H. unfold TPE_bodyGetPointVelocity. leaf. Qed.

Lemma TPE_bodySetRotation_eq (body body' : TPE_Body) (axis axis' : TPE_Vec4)
    (velocity velocity' : Z) :
  body = body' -> eq3 axis axis' -> velocity = velocity' ->
  TPE_bodySetRotation body axis velocity
    = TPE_bodySetRotation body' axis' velocity'.
Proof.
  intros <- H <-. unfold TPE_bodySetRotation.
  destruct (velocity <? 0); cbv beta iota zeta; cong.
Qed.

Ltac cong_more ::=
  first
    [ simple apply TPE_bodyGetPointVelocity_indep
    | simple apply TPE_bodySetRotation_eq ].

Lemma TPE_bodyAddRotation_eq (body body' : TPE_Body) (axis axis' : TPE_Vec4)
    (velocity velocity' : Z) :
  body = body' -> eq3 axis axis' -> velocity = velocity' ->
  TPE_bodyAddRotation body axis velocity
    = TPE_bodyAddRotation body' axis' velocity'.
Proof.
  intros <- H <-. unfold TPE_bodyAddRotation.
  destruct (velocity =? 0); [reflexivity|]. cbv zeta. cong.
Qed.

Ltac cong_more ::=
  first
    [ simple apply TPE_bodyGetPointVelocity_indep
    | simple apply TPE_bodySetRotation_eq
    | simple apply TPE_bodyAddRotation_eq ].

Lemma TPE_bodyApplyImpulse_indep (ind ind' : TPE_Indeterminate)
    (body body' : TPE_Body) (point point' impulse impulse' : TPE_Vec4) :
  body = body' -> eq3 point point' -> eq3 impulse impulse' ->
  TPE_bodyApplyImpulse ind body point impulse
    = TPE_bodyApplyImpulse ind' body' point' impulse'.
Proof.
  intros <- Hp Hi. lazy beta delta [TPE_bodyApplyImpulse].
  repeat step.
Qed.

Ltac cong_more ::=
  first
    [ simple apply TPE_bodyGetPointVelocity_indep
    | simple apply TPE_bodySetRotation_eq
    | simple apply TPE_bodyAddRotation_eq
    | simple apply TPE_bodyApplyImpulse_indep ].

Lemma TPE_resolveCollision_from_p1_indep (ind ind' : TPE_Indeterminate)
    (body1 body2 : TPE_Body) (collisionPoint collisionPoint' : TPE_Vec4)
    (collisionNormal collisionNormal' : TPE_Vec4)
    (collisionDepth energyMultiplier : Z) :
  eq3 collisionPoint collisionPoint' ->
  eq3 collisionNormal collisionNormal' ->
  TPE_resolveCollision_from_p1 ind body1 body2 collisionPoint
      collisionNormal collisionDepth energyMultiplier
    = TPE_resolveCollision_from_p1 ind' body1 body2 collisionPoint'
        collisionNormal' collisionDepth energyMultiplier.
Proof.
  intros Hp Hn. lazy beta delta [TPE_resolveCollision_from_p1].
  repeat step.
Qed.

Lemma TPE_resolveCollision_indep (ind ind' : TPE_Indeterminate)
    (body1 body2 : TPE_Body) (collisionPoint collisionPoint' : TPE_Vec4)
    (collisionNormal collisionNormal' : TPE_Vec4)
    (collisionDepth energyMultiplier : Z) :
  eq3 collisionPoint collisionPoint' ->
  eq3 collisionNormal collisionNormal' ->
  TPE_resolveCollision ind body1 body2 collisionPoint
      collisionNormal collisionDepth energyMultiplier
    = TPE_resolveCollision ind' body1 body2 collisionPoint'
        collisionNormal' collisionDepth energyMultiplier.
Proof.
  intros Hp Hn. lazy beta delta [TPE_resolveCollision].
  destruct (mass body2 =? TPE_INFINITY).
  - destruct (mass body1 =? TPE_INFINITY); [reflexivity|]. cbv zeta.
    rewrite (TPE_resolveCollision_from_p1_indep ind ind' body2 body1
               collisionPoint collisionPoint'
               (TPE_vec3MultiplyPlain collisionNormal (-1) collisionNormal)
               (TPE_vec3MultiplyPlain collisionNormal' (-1) collisionNormal'))
      by cong.
    reflexivity.
  - now apply TPE_resolveCollision_from_p1_indep.
Qed.

(** *** Collision detection *)

Lemma coll_rel_none (p p' n n' : TPE_Vec4) :
  eq3 n n' -> coll_rel (0, p, n) (0, p', n').
Proof. intros Hn. split; [reflexivity|]. split; [exact Hn | intros []; reflexivity]. Qed.

Lemma coll_rel_hit (d d' : Z) (p p' n n' : TPE_Vec4) :
  d = d' -> eq3 p p' -> eq3 n n' -> coll_rel (d, p, n) (d', p', n').
Proof. intros -> Hp Hn. split; [reflexivity|]. split; [exact Hn | now intros _]. Qed.

Ltac step_coll :=
  lazymatch goal with
  | |- coll_rel (0, _, _) (0, _, _) => apply coll_rel_none; assumption
  | |- coll_rel (_, _, _) (_, _, _) => apply coll_rel_hit; leaf
  | H : coll_rel ?a ?b |- coll_rel ?a ?b => exact H
  | |- coll_rel (let v := ?a in @?k v) (let v' := ?a' in @?k' v') =>
      first
        [ step
        | apply (let_rel coll_rel coll_rel a a' k k');
          [ apply coll_rel_none; assumption | intros ? ? ?; cbv beta ] ]
  | |- _ => step
  end.

Lemma TPE_bodyCollides_sphere_sphere_rel (ind ind' : TPE_Indeterminate)
    (body1 body1' body2 body2' : TPE_Body) (p p' n n' : TPE_Vec4) :
  position body1 = position body1' ->
  shapeParam body1 0 = shapeParam body1' 0 ->
  position body2 = position body2' ->
  shapeParam body2 0 = shapeParam body2' 0 ->
  eq3 n n' ->
  coll_rel (TPE_bodyCollides_sphere_sphere ind body1 body2 p n)
           (TPE_bodyCollides_sphere_sphere ind' body1' body2' p' n').
Proof.
  intros H1 H2 H3 H4 Hn. lazy beta delta [TPE_bodyCollides_sphere_sphere].
  rewrite H1, H2, H3, H4. repeat step_coll.
Qed.

Lemma TPE_bodyCollides_sphere_capsule_rel (ind ind' : TPE_Indeterminate)
    (body1 body2 : TPE_Body) (p p' n n' : TPE_Vec4) :
  eq3 n n' ->
  coll_rel (TPE_bodyCollides_sphere_capsule ind body1 body2 p n)
           (TPE_bodyCollides_sphere_capsule ind' body1 body2 p' n').
Proof.
  intros Hn. unfold TPE_bodyCollides_sphere_capsule.
  destruct (_TPE_getShapes body1 body2 TPE_SHAPE_SPHERE) as [sphere capsule].
  destruct (_TPE_getCapsuleCyllinderEndpoints capsule) as [cA cB].
  apply TPE_bodyCollides_sphere_sphere_rel;
    solve [ exact Hn
          | destruct (negb (shape body1 =? TPE_SHAPE_SPHERE)); reflexivity ].
Qed.

Lemma TPE_bodyCollides_capsule_capsule_rel (ind ind' : TPE_Indeterminate)
    (body1 body2 : TPE_Body) (p p' n n' : TPE_Vec4) :
  eq3 n n' ->
  coll_rel (TPE_bodyCollides_capsule_capsule ind body1 body2 p n)
           (TPE_bodyCollides_capsule_capsule ind' body1 body2 p' n').
Proof.
  intros Hn. unfold TPE_bodyCollides_capsule_capsule.
  destruct (_TPE_getCapsuleCyllinderEndpoints body1) as [a1 b1].
  destruct (_TPE_getCapsuleCyllinderEndpoints body2) as [a2 b2].
  apply TPE_bodyCollides_sphere_sphere_rel; solve [exact Hn | reflexivity].
Qed.

Lemma TPE_bodyCollides_sphere_cylinder_rel (ind ind' : TPE_Indeterminate)
    (body1 body2 : TPE_Body) (p p' n n' : TPE_Vec4) :
  eq3 n n' ->
  coll_rel (TPE_bodyCollides_sphere_cylinder ind body1 body2 p n)
           (TPE_bodyCollides_sphere_cylinder ind' body1 body2 p' n').
Proof.
  intros Hn. lazy beta delta [TPE_bodyCollides_sphere_cylinder].
  repeat step_coll.
Qed.

Lemma check_edge_rel (body1 body2 : TPE_Body)
    (aX1 aY1 aZ1 aX2 aY2 aZ2 : TPE_Vec4) (st st' : edge_state) (edge : Z) :
  edge_state_rel st st' ->
  edge_state_rel (check_edge body1 body2 aX1 aY1 aZ1 aX2 aY2 aZ2 st edge)
                 (check_edge body1 body2 aX1 aY1 aZ1 aX2 aY2 aZ2 st' edge).
Proof.
  intros (Hh & Hmax & Hmin). unfold check_edge. cbv zeta.
  rewrite Hmax, Hmin.
  destruct (cut_by_sides _ _ _ _ _ _) as [t1 t2].
  destruct (t2 >? t1); [| now repeat split].
  destruct (widen_extent _ _ _) as [emax emin].
  destruct (widen_extent _ _ _) as [emax' emin'].
  now repeat split.
Qed.

Lemma check_edges_rel (body1 body2 : TPE_Body) (st st' : edge_state) :
  edge_state_rel st st' ->
  edge_state_rel (check_edges body1 body2 st) (check_edges body1 body2 st').
Proof.
  unfold check_edges.
  destruct (cuboid_axes body1) as [[aX1 aY1] aZ1].
  destruct (cuboid_axes body2) as [[aX2 aY2] aZ2].
  generalize edges. intros l. revert st st'.
  induction l as [|e l IH]; intros st st' H; cbn [foldl]; [exact H|].
  apply IH. now apply check_edge_rel.
Qed.

(** A step through a local variable whose two values are related by [R]. *)
Ltac step_let R tac :=
  lazymatch goal with
  | |- ?Q (let v := ?a in @?k v) (let v' := ?a' in @?k' v') =>
      apply (let_rel R Q a a' k k'); [ tac | intros ? ? ?; cbv beta ]
  end.

(** A round of the last loop of the cuboid case either stores a normal of
    its own or leaves the one it finds. *)
Lemma closest_side_rel (collisionPoint pos aX1 aY1 aZ1 : TPE_Vec4)
    (first : bool) (result : Z) (n n' : TPE_Vec4) :
  eq3 n n' ->
  fst (closest_side collisionPoint pos aX1 aY1 aZ1 first (result, n))
    = fst (closest_side collisionPoint pos aX1 aY1 aZ1 first (result, n')) /\
  eq3 (snd (closest_side collisionPoint pos aX1 aY1 aZ1 first (result, n)))
      (snd (closest_side collisionPoint pos aX1 aY1 aZ1 first (result, n'))).
Proof.
  intros Hn. unfold closest_side. cbv zeta.
  match goal with
  | |- context [if ?c then _ else _] => destruct c
  end; cbn [fst snd]; split; solve [reflexivity | apply eq3_refl | exact Hn].
Qed.

(** The cuboid case hands the caller's normal back untouched when no round
    stores one: its result depends on the space components of [n], and on
    nothing else of [p] and [n]. *)
Lemma TPE_bodyCollides_cuboid_cuboid_rel (body1 body2 : TPE_Body)
    (p p' n n' : TPE_Vec4) :
  eq3 n n' ->
  opt_rel coll_rel (TPE_bodyCollides_cuboid_cuboid body1 body2 p n)
                   (TPE_bodyCollides_cuboid_cuboid body1 body2 p' n').
Proof.
  intros Hn. lazy beta delta [TPE_bodyCollides_cuboid_cuboid].
  step_let edge_state_rel ltac:(now repeat split).
  step_let edge_state_rel ltac:(now apply check_edges_rel).
  step_let edge_state_rel ltac:(now apply check_edges_rel).
  match goal with
  | H : edge_state_rel ?a ?b
    |- opt_rel _ (if collisionHappened ?a then _ else _) _ =>
      destruct H as (Hh & Hmax & Hmin); rewrite Hh, Hmax, Hmin;
      destruct (collisionHappened b)
  end.
  - cbv zeta.
    destruct (cuboid_axes body2) as [[aX1 aY1] aZ1].
    destruct (cuboid_axes body1) as [[aX2 aY2] aZ2].
    match goal with
    | |- context [closest_side ?cp ?pos aX1 aY1 aZ1 true (?r0, n)] =>
        destruct (closest_side_rel cp pos aX1 aY1 aZ1 true r0 n n' Hn)
          as [E1 N1];
        destruct (closest_side cp pos aX1 aY1 aZ1 true (r0, n)) as [r1 m1];
        destruct (closest_side cp pos aX1 aY1 aZ1 true (r0, n')) as [r1' m1']
    end.
    cbn [fst snd] in E1, N1. subst r1'.
    match goal with
    | |- context [closest_side ?cp ?pos aX2 aY2 aZ2 false (r1, m1)] =>
        destruct (closest_side_rel cp pos aX2 aY2 aZ2 false r1 m1 m1' N1)
          as [E2 N2];
        destruct (closest_side cp pos aX2 aY2 aZ2 false (r1, m1)) as [r2 m2];
        destruct (closest_side cp pos aX2 aY2 aZ2 false (r1, m1')) as [r2' m2']
    end.
    cbn [fst snd] in E2, N2. subst r2'. cbn [opt_rel fst snd].
    apply coll_rel_hit; [reflexivity | apply eq3_refl | exact N2].
  - cbn [opt_rel]. now apply coll_rel_none.
Qed.

Lemma TPE_bodyCollides_rel (ind ind' : TPE_Indeterminate)
    (body1 body2 : TPE_Body) (p p' n n' : TPE_Vec4) :
  eq3 n n' ->
  opt_rel coll_rel (TPE_bodyCollides ind body1 body2 p n)
                   (TPE_bodyCollides ind' body1 body2 p' n').
Proof.
  intros Hn. unfold TPE_bodyCollides. cbv zeta.
  repeat match goal with
         | |- opt_rel _ (if ?c then _ else _) _ => destruct c
         end;
    cbn [opt_rel];
    auto using coll_rel_none, TPE_bodyCollides_sphere_sphere_rel,
      TPE_bodyCollides_sphere_capsule_rel, TPE_bodyCollides_capsule_capsule_rel,
      TPE_bodyCollides_sphere_cylinder_rel, TPE_bodyCollides_cuboid_cuboid_rel.
Qed.

(** *** The pass over the world *)

(** Of [p] and [n] only the space components of [n] can reach the bodies and
    the next pair. *)
Lemma resolve_pair_rel (ind ind' : TPE_Indeterminate) (i j : nat)
    (bs : list TPE_Body) (p p' n n' : TPE_Vec4) :
  eq3 n n' ->
  opt_rel (fun st st' => fst (fst st) = fst (fst st') /\ eq3 (snd st) (snd st'))
          (resolve_pair ind i j (bs, p, n))
          (resolve_pair ind' i j (bs, p', n')).
Proof.
  intros Hn. unfold resolve_pair.
  destruct (bs !! i) as [b1|]; [| exact I].
  destruct (bs !! j) as [b2|]; [| exact I].
  destruct (_ || _); [| now split].
  pose proof (TPE_bodyCollides_rel ind ind' b1 b2 p p' n n' Hn) as H.
  destruct (TPE_bodyCollides ind b1 b2 p n) as [[[d q] m]|],
           (TPE_bodyCollides ind' b1 b2 p' n') as [[[d' q'] m']|];
    cbn [opt_rel] in H; try contradiction; [| exact I].
  destruct H as (Hd & Hm & H). cbn [fst snd] in Hd, Hm, H. subst d'.
  destruct (Z.eqb_spec d 0) as [Hz | Hz]; cbn [negb]; [now split|].
  specialize (H Hz).
  rewrite (TPE_resolveCollision_indep ind ind' b1 b2 q q' m m' d 300 H Hm).
  destruct (TPE_resolveCollision ind' b1 b2 q' m' d 300); cbn; [now split | exact I].
Qed.

Lemma fold_opt_rel {S A : Type} (R : S -> S -> Prop)
    (f f' : S -> A -> option S) (l : list A) :
  (forall s s' a, R s s' -> opt_rel R (f s a) (f' s' a)) ->
  forall s s', R s s' -> opt_rel R (fold_opt f s l) (fold_opt f' s' l).
Proof.
  intros Hf. induction l as [|a l IH]; intros s s' H; cbn [fold_opt].
  - exact H.
  - specialize (Hf s s' a H).
    destruct (f s a), (f' s' a); cbn [opt_rel] in Hf; try contradiction.
    + now apply IH.
    + exact I.
Qed.

Lemma fold_opt_ext {S A : Type} (f f' : S -> A -> option S) (l : list A) :
  (forall s a, f s a = f' s a) ->
  forall s, fold_opt f s l = fold_opt f' s l.
Proof.
  intros Hf. induction l as [|a l IH]; intros s; cbn [fold_opt]; [reflexivity|].
  rewrite Hf. destruct (f' s a); auto.
Qed.

(** The bodies after the inner loop for [i] depend on the indeterminate
    values at most through the space components of [n]. *)
Lemma inner_loop_indep (ind ind' : TPE_Indeterminate) (i : nat)
    (js : list nat) (bs : list TPE_Body) (p p' n n' : TPE_Vec4) :
  eq3 n n' ->
  (st <- fold_opt (fun st j => resolve_pair ind i j st) (bs, p, n) js ;;
   Some (fst (fst st)))
  = (st <- fold_opt (fun st j => resolve_pair ind' i j st) (bs, p', n') js ;;
     Some (fst (fst st))).
Proof.
  intros Hn.
  pose proof (fold_opt_rel
                (fun st st' : list TPE_Body * TPE_Vec4 * TPE_Vec4 =>
                   fst (fst st) = fst (fst st') /\ eq3 (snd st) (snd st'))
                (fun st j => resolve_pair ind i j st)
                (fun st j => resolve_pair ind' i j st) js) as H.
  assert (Hstep : forall s s' a,
             fst (fst s) = fst (fst s') /\ eq3 (snd s) (snd s') ->
             opt_rel (fun st st' => fst (fst st) = fst (fst st') /\
                                    eq3 (snd st) (snd st'))
                     (resolve_pair ind i a s) (resolve_pair ind' i a s')).
  { intros [[bs0 q] m] [[bs0' q'] m'] a [E Hm]. cbn [fst snd] in E, Hm.
    subst bs0'. now apply resolve_pair_rel. }
  specialize (H Hstep (bs, p, n) (bs, p', n') (conj eq_refl Hn)).
  destruct (fold_opt _ (bs, p, n) js), (fold_opt _ (bs, p', n') js);
    cbn [opt_rel] in H; try contradiction; [| reflexivity].
  destruct H as [H _]. now rewrite H.
Qed.

(** The outcome of the collision pass, a world or a trap, depends on the
    storage that the code leaves uninitialised at most through the space
    components of [n]. *)
Lemma TPE_worldResolveCollisionNaive_indep (ind ind' : TPE_Indeterminate)
    (world : TPE_World) :
  eq3 ind.(ind_n) ind'.(ind_n) ->
  TPE_worldResolveCollisionNaive ind world
    = TPE_worldResolveCollisionNaive ind' world.
Proof.
  intros Hn. unfold TPE_worldResolveCollisionNaive. cbv zeta.
  rewrite (fold_opt_ext _
             (fun bs i =>
                st <- fold_opt (fun st j => resolve_pair ind' i j st)
                        (bs, ind_p ind', ind_n ind')
                        (seq (S i) (Z.to_nat (bodyCount world) - S i)) ;;
                Some (fst (fst st)))).
  - reflexivity.
  - intros bs i. now apply inner_loop_indep.
Qed.

(** *** The order in which the pairs are visited *)

Lemma fold_opt_app {S A : Type} (f : S -> A -> option S) (s : S)
    (l1 l2 : list A) :
  fold_opt f s (l1 ++ l2) = (s' <- fold_opt f s l1 ;; fold_opt f s' l2).
Proof.
  revert s. induction l1 as [|a l1 IH]; intros s; cbn; [reflexivity|].
  destruct (f s a); auto.
Qed.

Lemma fold_opt_flat_map {S A B : Type} (f : S -> B -> option S)
    (g : A -> list B) (l : list A) (s : S) :
  fold_opt f s (flat_map g l) = fold_opt (fun s a => fold_opt f s (g a)) s l.
Proof.
  revert s. induction l as [|a l IH]; intros s; cbn; [reflexivity|].
  rewrite fold_opt_app. destruct (fold_opt f s (g a)); auto.
Qed.

Lemma TPE_bodyPairs_In (count i j : nat) :
  In (i, j) (TPE_bodyPairs count) <-> (i < j < count)%nat.
Proof.
  unfold TPE_bodyPairs. rewrite List.in_flat_map. split.
  - intros (i' & Hi & Hj). apply List.in_map_iff in Hj as (j' & E & Hj).
    inversion E; subst. apply List.in_seq in Hi, Hj. lia.
  - intros H. exists i. split; [apply List.in_seq; lia|].
    apply List.in_map_iff. exists j. split; [reflexivity | apply List.in_seq; lia].
Qed.

Lemma StronglySorted_seq (a n : nat) : StronglySorted lt (seq a n).
Proof.
  revert a. induction n as [|n IH]; intros a; cbn; constructor.
  - apply IH.
  - apply List.Forall_forall. intros k Hk. apply List.in_seq in Hk. lia.
Qed.

Lemma StronglySorted_app_intro {A : Type} (R : A -> A -> Prop)
    (l1 l2 : list A) :
  StronglySorted R l1 -> StronglySorted R l2 ->
  (forall u v, In u l1 -> In v l2 -> R u v) ->
  StronglySorted R (l1 ++ l2).
Proof.
  intros H1 H2 H. induction H1 as [|a l1 H1 IH Ha]; cbn; [exact H2|].
  constructor.
  - apply IH. intros u v Hu. apply H. now right.
  - apply List.Forall_app. split; [exact Ha|].
    apply List.Forall_forall. intros v Hv. apply H; [now left | exact Hv].
Qed.

(** The pairs are visited in strictly ascending lexicographic order. *)
Lemma TPE_bodyPairs_sorted (count : nat) :
  StronglySorted pair_lt (TPE_bodyPairs count).
Proof.
  unfold TPE_bodyPairs.
  pose proof (StronglySorted_seq 0 (count - 1)) as Hs.
  induction Hs as [|i l Hs IH Hi]; cbn [flat_map]; [constructor|].
  apply StronglySorted_app_intro; [| exact IH |].
  - generalize (StronglySorted_seq (S i) (count - S i)).
    generalize (seq (S i) (count - S i)). intros js Hjs.
    induction Hjs as [|j js Hjs IHj Hj]; cbn [map]; constructor; [exact IHj|].
    apply List.Forall_forall. intros u Hu.
    apply List.in_map_iff in Hu as (j' & <- & Hj').
    right. cbn. split; [reflexivity|].
    rewrite List.Forall_forall in Hj. now apply Hj.
  - intros u v Hu Hv.
    apply List.in_map_iff in Hu as (j & <- & _).
    apply List.in_flat_map in Hv as (i' & Hi' & Hv).
    apply List.in_map_iff in Hv as (j' & <- & _).
    left. cbn. rewrite List.Forall_forall in Hi. now apply Hi.
Qed.

Lemma fold_opt_ext_in {S A : Type} (f f' : S -> A -> option S) (l : list A) :
  (forall s a, In a l -> f s a = f' s a) ->
  forall s, fold_opt f s l = fold_opt f' s l.
Proof.
  induction l as [|a l IH]; intros Hf s; cbn [fold_opt]; [reflexivity|].
  rewrite (Hf s a) by now left.
  destruct (f' s a); [|reflexivity].
  apply IH. intros s' a' Ha'. apply Hf. now right.
Qed.

Lemma fold_opt_map {S A B : Type} (f : S -> B -> option S) (g : A -> B)
    (l : list A) (s : S) :
  fold_opt f s (map g l) = fold_opt (fun s a => f s (g a)) s l.
Proof.
  revert s. induction l as [|a l IH]; intros s; cbn; [reflexivity|].
  destruct (f s (g a)); auto.
Qed.

(** The inner loop for [i] declares [p] and [n] anew and then carries them
    from pair to pair. *)
Lemma inner_loop_at (ind : TPE_Indeterminate) (i k : nat)
    (st : list TPE_Body * TPE_Vec4 * TPE_Vec4) :
  fold_opt (resolve_pair_at ind) st (map (pair i) (seq (S i) (S k)))
  = fold_opt (fun st j => resolve_pair ind i j st)
             (fst (fst st), ind.(ind_p), ind.(ind_n)) (seq (S i) (S k)).
Proof.
  rewrite fold_opt_map. cbn [seq fold_opt].
  unfold resolve_pair_at at 1. cbn [fst snd]. rewrite Nat.eqb_refl.
  destruct (resolve_pair ind i (S i) _) as [st1|]; [|reflexivity].
  apply fold_opt_ext_in. intros s j Hj. apply List.in_seq in Hj.
  unfold resolve_pair_at. cbn [fst snd].
  destruct (Nat.eqb_spec j (S i)); [lia | reflexivity].
Qed.

(** The pass runs its loop body on the index pairs [TPE_bodyPairs], in that
    order. *)
Lemma TPE_worldResolveCollisionNaive_pairs (ind : TPE_Indeterminate)
    (world : TPE_World) :
  TPE_worldResolveCollisionNaive ind world
    = (st <- fold_opt (resolve_pair_at ind)
               (world.(bodies), ind.(ind_p), ind.(ind_n))
               (TPE_bodyPairs (Z.to_nat world.(bodyCount))) ;;
       Some (mkWorld (fst (fst st)) world.(bodyCount))).
Proof.
  unfold TPE_worldResolveCollisionNaive, TPE_bodyPairs. cbv zeta.
  rewrite fold_opt_flat_map.
  set (count := Z.to_nat (bodyCount world)).
  assert (H : forall (l : list nat) (bs : list TPE_Body)
                (st : list TPE_Body * TPE_Vec4 * TPE_Vec4),
             fst (fst st) = bs ->
             (forall i, In i l -> (i < count - 1)%nat) ->
             (bs' <- fold_opt
                       (fun bs i =>
                          st <- fold_opt (fun st j => resolve_pair ind i j st)
                                  (bs, ind_p ind, ind_n ind)
                                  (seq (S i) (count - S i)) ;;
                          Some (fst (fst st))) bs l ;;
              Some (mkWorld bs' (bodyCount world)))
             = (st' <- fold_opt
                         (fun st i =>
                            fold_opt (resolve_pair_at ind) st
                              (map (pair i) (seq (S i) (count - S i)))) st l ;;
                Some (mkWorld (fst (fst st')) (bodyCount world)))).
  { induction l as [|i l IH]; intros bs st E Hl; cbn [fold_opt].
    - now rewrite E.
    - assert (Hi : (i < count - 1)%nat) by (apply Hl; now left).
      replace (count - S i)%nat with (S (count - S i - 1)) by lia.
      rewrite inner_loop_at, E.
      destruct (fold_opt _ (bs, ind_p ind, ind_n ind) _) as [st1|];
        [|reflexivity].
      replace (S (count - S i - 1)) with (count - S i)%nat in IH |- * by lia.
      apply IH; [reflexivity|]. intros i' Hi'. apply Hl. now right. }
  apply H; [reflexivity|].
  intros i Hi. apply List.in_seq in Hi. lia.
Qed.

(** *** The normal that no round of the cuboid case stores *)

(** ** [TPE_wrap] *)

Lemma forallb_Z_from (f : Z -> bool) (lo : Z) (n : nat) :
  forallb (fun k => f (lo + k)) (map Z.of_nat (seq 0 n)) = true ->
  forall a : Z, lo <= a < lo + Z.of_nat n -> f a = true.
Proof.
  intros Hall a Ha.
  pose proof (forallb_Z_range (fun k => f (lo + k)) n Hall (a - lo)
                ltac:(lia)) as H.
  cbv beta in H. now replace (lo + (a - lo)) with a in H by lia.
Qed.

Lemma rem32_small (a m : Z) :
  in_int32 a -> 0 < m -> in_int32 m -> a %' m = Z.rem a m.
Proof.
  intros Ha Hm Hm'. unfold rem32. apply wrap32_small.
  unfold in_int32 in *.
  pose proof (Z.rem_bound_abs a m ltac:(lia)). lia.
Qed.

Lemma TPE_wrap_value (v m : Z) :
  in_int32 v -> 0 < m -> in_int32 m ->
  TPE_wrap v m = if 0 <=? v then v mod m else m - 1 - (- v) mod m.
Proof.
  intros Hv Hm Hm'. unfold TPE_wrap. rewrite Z.geb_leb.
  rewrite (rem32_small v m Hv Hm Hm').
  unfold in_int32 in *.
  destruct (Z.leb_spec 0 v) as [H|H].
  - apply Z.rem_mod_nonneg; lia.
  - assert (E : Z.rem v m = - ((- v) mod m)).
    { rewrite <- (Z.opp_involutive v) at 1. rewrite Z.rem_opp_l by lia.
      rewrite Z.rem_mod_nonneg by lia. reflexivity. }
    rewrite E. pose proof (Z.mod_pos_bound (- v) m Hm).
    unfold add32, sub32.
    rewrite (wrap32_small (m + _)) by (unfold in_int32; lia).
    rewrite wrap32_small by (unfold in_int32; lia). lia.
Qed.

Lemma TPE_wrap_bounds (v m : Z) :
  in_int32 v -> 0 < m -> in_int32 m -> 0 <= TPE_wrap v m < m.
Proof.
  intros Hv Hm Hm'. rewrite (TPE_wrap_value v m Hv Hm Hm').
  pose proof (Z.mod_pos_bound v m Hm). pose proof (Z.mod_pos_bound (- v) m Hm).
  destruct (Z.leb_spec 0 v); lia.
Qed.

(** X1: [TPE_wrap] maps every value into [[0, mod)] for a positive modulus;
    on non-negative values it is the remainder, while a negative value [v]
    goes to [mod - 1 - ((-v) mod mod)], one below the mathematical residue
    class (so [-1] goes to [mod - 2]). *)
Theorem TPE_wrap_range (v m : Z) :
  in_int32 v -> 0 < m -> in_int32 m ->
  0 <= TPE_wrap v m < m /\
  (0 <= v -> TPE_wrap v m = v mod m) /\
  (v < 0 -> TPE_wrap v m = m - 1 - (- v) mod m).
Proof.
  intros Hv Hm Hm'. rewrite (TPE_wrap_value v m Hv Hm Hm').
  pose proof (Z.mod_pos_bound v m Hm). pose proof (Z.mod_pos_bound (- v) m Hm).
  destruct (Z.leb_spec 0 v); repeat split; intros; lia.
Qed.

Lemma TPE_wrap_range_witness :
  in_int32 (-1) /\ 0 < 512 /\ in_int32 512 /\
  0 <= TPE_wrap (-1) 512 < 512 /\
  (0 <= -1 -> TPE_wrap (-1) 512 = (-1) mod 512) /\
  (-1 < 0 -> TPE_wrap (-1) 512 = 512 - 1 - (- -1) mod 512).
Proof.
  assert (H1 : in_int32 (-1)) by (unfold in_int32; lia).
  assert (H2 : in_int32 512) by (unfold in_int32; lia).
  split; [exact H1|]. split; [lia|]. split; [exact H2|].
  exact (TPE_wrap_range (-1) 512 H1 ltac:(lia) H2).
Defined.

(** ** Sine *)

(** The table index that [TPE_sin] computes from its argument. *)
Lemma TPE_sin_reduce (x : Z) :
  in_int32 x -> TPE_sin x = TPE_sin (TPE_wrap x 512).
Proof.
  intros Hx.
  assert (H512 : in_int32 512) by (unfold in_int32; lia).
  pose proof (TPE_wrap_bounds x 512 Hx ltac:(lia) H512) as Hr.
  unfold TPE_sin.
  change TPE_SIN_TABLE_UNIT_STEP with 1.
  change (TPE_SIN_TABLE_LENGTH *' 4) with 512.
  assert (Hq : forall y, in_int32 y -> y /' 1 = y).
  { intros y Hy. unfold div32. rewrite Z.quot_1_r. now apply wrap32_small. }
  rewrite (Hq x Hx).
  rewrite (Hq (TPE_wrap x 512)) by (unfold in_int32; lia).
  assert (Hi : TPE_wrap (TPE_wrap x 512) 512 = TPE_wrap x 512).
  { rewrite (TPE_wrap_value (TPE_wrap x 512) 512) by (unfold in_int32; lia).
    destruct (Z.leb_spec 0 (TPE_wrap x 512)); [|lia].
    apply Z.mod_small; lia. }
  rewrite Hi. reflexivity.
Qed.

(** X2: the sine never leaves [[-510, 510]], whatever the angle: the table
    ends at [510], two short of [TPE_FRACTIONS_PER_UNIT]. *)
Theorem TPE_sin_bound (x : Z) :
  in_int32 x -> - 510 <= TPE_sin x <= 510.
Proof.
  intros Hx. rewrite (TPE_sin_reduce x Hx).
  assert (H512 : in_int32 512) by (unfold in_int32; lia).
  pose proof (TPE_wrap_bounds x 512 Hx ltac:(lia) H512) as Hr.
  generalize dependent (TPE_wrap x 512). intros a Ha.
  pose proof (forallb_Z_range
                (fun a => (- 510 <=? TPE_sin a) && (TPE_sin a <=? 510)) 512
                ltac:(vm_compute; reflexivity) a ltac:(lia)) as H.
  cbv beta in H. apply andb_prop in H as [H1 H2]. lia.
Qed.

Lemma TPE_sin_bound_witness :
  in_int32 128 /\ - 510 <= TPE_sin 128 <= 510.
Proof.
  assert (H : in_int32 128) by (unfold in_int32; lia).
  split; [exact H | exact (TPE_sin_bound 128 H)].
Defined.

Lemma TPE_sin_odd_pos (x : Z) :
  0 < x < 2 ^ 31 -> TPE_sin (- x) = - TPE_sin x.
Proof.
  intros Hx.
  assert (H512 : in_int32 512) by (unfold in_int32; lia).
  rewrite (TPE_sin_reduce (- x)) by (unfold in_int32; lia).
  rewrite (TPE_sin_reduce x) by (unfold in_int32; lia).
  rewrite (TPE_wrap_value (- x) 512) by (unfold in_int32; lia).
  rewrite (TPE_wrap_value x 512) by (unfold in_int32; lia).
  destruct (Z.leb_spec 0 (- x)); [lia|].
  destruct (Z.leb_spec 0 x); [|lia].
  rewrite Z.opp_involutive.
  pose proof (Z.mod_pos_bound x 512 ltac:(lia)) as Ha.
  generalize dependent (x mod 512). intros a Ha.
  pose proof (forallb_Z_range
                (fun a => TPE_sin (512 - 1 - a) =? - TPE_sin a) 512
                ltac:(vm_compute; reflexivity) a ltac:(lia)) as Hc.
  cbv beta in Hc. lia.
Qed.

(** X3: the sine is an odd function, exactly: [TPE_sin (-x) = - TPE_sin x]
    for every angle (the shift by one that [TPE_wrap] gives to negative
    values is what mirrors the table index). *)
Theorem TPE_sin_odd (x : Z) :
  - 2 ^ 31 < x < 2 ^ 31 -> TPE_sin (- x) = - TPE_sin x.
Proof.
  intros Hx.
  destruct (Z.lt_trichotomy x 0) as [H|[->|H]].
  - pose proof (TPE_sin_odd_pos (- x) ltac:(lia)) as E.
    rewrite Z.opp_involutive in E. lia.
  - reflexivity.
  - apply TPE_sin_odd_pos. lia.
Qed.

Lemma TPE_sin_odd_witness :
  - 2 ^ 31 < 100 < 2 ^ 31 /\ TPE_sin (- 100) = - TPE_sin 100.
Proof.
  split; [lia | exact (TPE_sin_odd 100 ltac:(lia))].
Defined.

(** X4: on non-negative angles the sine has period [TPE_FRACTIONS_PER_UNIT]
    and changes sign after half a period. *)
Theorem TPE_sin_periodic (x : Z) :
  0 <= x -> x + 512 < 2 ^ 31 ->
  TPE_sin (x + TPE_FRACTIONS_PER_UNIT) = TPE_sin x /\
  TPE_sin (x + TPE_FRACTIONS_PER_UNIT / 2) = - TPE_sin x.
Proof.
  intros Hx Hx'.
  change TPE_FRACTIONS_PER_UNIT with 512. change (512 / 2) with 256.
  rewrite (TPE_sin_reduce (x + 512)) by (unfold in_int32; lia).
  rewrite (TPE_sin_reduce (x + 256)) by (unfold in_int32; lia).
  rewrite (TPE_sin_reduce x) by (unfold in_int32; lia).
  rewrite !TPE_wrap_value by (unfold in_int32; lia).
  destruct (Z.leb_spec 0 (x + 512)); [|lia].
  destruct (Z.leb_spec 0 (x + 256)); [|lia].
  destruct (Z.leb_spec 0 x); [|lia].
  replace ((x + 512) mod 512) with (x mod 512)
    by (rewrite <- (Z.mul_1_l 512) at 2; now rewrite Z_mod_plus_full).
  rewrite <- (Zplus_mod_idemp_l x 256 512).
  pose proof (Z.mod_pos_bound x 512 ltac:(lia)) as Ha.
  generalize dependent (x mod 512). intros a Ha.
  split; [reflexivity|].
  pose proof (forallb_Z_range
                (fun a => TPE_sin ((a + 256) mod 512) =? - TPE_sin a) 512
                ltac:(vm_compute; reflexivity) a ltac:(lia)) as Hc.
  cbv beta in Hc. lia.
Qed.

Lemma TPE_sin_periodic_witness :
  0 <= 700 /\ 700 + 512 < 2 ^ 31 /\
  TPE_sin (700 + TPE_FRACTIONS_PER_UNIT) = TPE_sin 700 /\
  TPE_sin (700 + TPE_FRACTIONS_PER_UNIT / 2) = - TPE_sin 700.
Proof.
  split; [lia|]. split; [lia|].
  exact (TPE_sin_periodic 700 ltac:(lia) ltac:(lia)).
Defined.

(** ** Arcus sine and cosine *)

Lemma TPE_clamp_F_range (x : Z) : - 512 <= TPE_clamp x (- 512) 512 <= 512.
Proof.
  unfold TPE_clamp. rewrite Z.geb_leb.
  destruct (Z.leb_spec (- 512) x); [|lia].
  destruct (Z.leb_spec x 512); lia.
Qed.

Lemma TPE_clamp_F_id (x : Z) : - 512 <= x <= 512 -> TPE_clamp x (- 512) 512 = x.
Proof.
  intros Hx. unfold TPE_clamp. rewrite Z.geb_leb.
  destruct (Z.leb_spec (- 512) x); [|lia].
  destruct (Z.leb_spec x 512); lia.
Qed.

Lemma TPE_clamp_F_opp (x : Z) :
  TPE_clamp (- x) (- 512) 512 = - TPE_clamp x (- 512) 512.
Proof.
  unfold TPE_clamp. rewrite !Z.geb_leb.
  destruct (Z.leb_spec (- 512) (- x)), (Z.leb_spec (- x) 512),
    (Z.leb_spec (- 512) x), (Z.leb_spec x 512); lia.
Qed.

(** The first round of the search overwrites [middle]. *)
Lemma TPE_asin_search_first (fuel : nat) (x low high m m' : Z) :
  low <= high ->
  TPE_asin_search (S fuel) x low high m = TPE_asin_search (S fuel) x low high m'.
Proof.
  intros H. cbn [TPE_asin_search].
  destruct (Z.leb_spec low high); [reflexivity | lia].
Qed.

(** The argument is clamped first. *)
Lemma TPE_asin_clamp (middle0 x : Z) :
  TPE_asin middle0 x = TPE_asin 0 (TPE_clamp x (- 512) 512).
Proof.
  unfold TPE_asin. change (neg32 F) with (- 512). change F with 512.
  rewrite (TPE_clamp_F_id (TPE_clamp x (- 512) 512))
    by apply TPE_clamp_F_range.
  change (Z.to_nat TPE_SIN_TABLE_LENGTH) with 128%nat.
  change (i16 (TPE_SIN_TABLE_LENGTH -' 1)) with 127.
  destruct (TPE_clamp x (- 512) 512 <? 0); cbv beta iota;
    now rewrite (TPE_asin_search_first 127 _ 0 127 middle0 0) by lia.
Qed.

Lemma opt_Z_eqb_eq (a b : option Z) : opt_Z_eqb a b = true -> a = b.
Proof.
  destruct a, b; cbn; try discriminate; [|reflexivity].
  intros H. f_equal. lia.
Qed.

(** The search on an argument that is already within [[-F, F]], checked on
    each of the 1025 values. *)
Lemma TPE_asin_clamped_range (c : Z) :
  - 512 <= c <= 512 ->
  exists r : Z, TPE_asin 0 c = Some r /\ - 127 <= r <= 127.
Proof.
  intros Hc.
  pose proof (forallb_Z_from
                (fun c => match TPE_asin 0 c with
                          | Some r => (- 127 <=? r) && (r <=? 127)
                          | None => false
                          end) (- 512) 1025
                ltac:(vm_compute; reflexivity) c ltac:(lia)) as H.
  cbv beta in H. destruct (TPE_asin 0 c) as [r|]; [|discriminate].
  apply andb_prop in H as [H1 H2]. exists r. split; [reflexivity | lia].
Qed.

Lemma TPE_asin_clamped_odd (c : Z) :
  - 512 <= c <= 512 ->
  TPE_asin 0 (- c) = option_map Z.opp (TPE_asin 0 c).
Proof.
  intros Hc. apply opt_Z_eqb_eq.
  exact (forallb_Z_from
           (fun c => opt_Z_eqb (TPE_asin 0 (- c))
                       (option_map Z.opp (TPE_asin 0 c))) (- 512) 1025
           ltac:(vm_compute; reflexivity) c ltac:(lia)).
Qed.

(** X5: [TPE_asin] always returns: the binary search ends, its result lies
    in [[-127, 127]] and does not depend on the value that the
    uninitialised local [middle] happens to hold. *)
Theorem TPE_asin_returns (middle0 x : Z) :
  exists r : Z,
    (forall m : Z, TPE_asin m x = Some r) /\ - 127 <= r <= 127 /\
    TPE_asin middle0 x = Some r.
Proof.
  destruct (TPE_asin_clamped_range (TPE_clamp x (- 512) 512)
              (TPE_clamp_F_range x)) as (r & E & Hr).
  exists r. split; [|split; [exact Hr|]].
  - intros m. now rewrite TPE_asin_clamp.
  - now rewrite TPE_asin_clamp.
Qed.

(** X6: the arcus sine is odd. *)
Theorem TPE_asin_odd (middle0 x : Z) :
  TPE_asin middle0 (- x) = option_map Z.opp (TPE_asin middle0 x).
Proof.
  rewrite (TPE_asin_clamp middle0 (- x)), (TPE_asin_clamp middle0 x).
  rewrite TPE_clamp_F_opp.
  apply TPE_asin_clamped_odd, TPE_clamp_F_range.
Qed.

(** X7: sine and arcus sine are inverse to each other up to the resolution
    of the table: [TPE_sin (TPE_asin x)] is within 6 of [x] for
    [|x| <= 510] and is [x] itself when [x] is an entry of the table, and
    [TPE_asin (TPE_sin a)] is within 4 of [a] for [|a| <= 127]. *)
Theorem TPE_sin_asin_round_trip (middle0 v : Z) :
  - 510 <= v <= 510 ->
  (exists r : Z,
     TPE_asin middle0 v = Some r /\ Z.abs (TPE_sin r - v) <= 6) /\
  (0 <= v < 128 ->
   exists r : Z,
     TPE_asin middle0 (TPE_sinTable_at v) = Some r /\
     TPE_sin r = TPE_sinTable_at v) /\
  (- 127 <= v <= 127 ->
   exists r : Z,
     TPE_asin middle0 (TPE_sin v) = Some r /\ Z.abs (r - v) <= 4).
Proof.
  intros Hv. split; [|split].
  - rewrite TPE_asin_clamp, TPE_clamp_F_id by lia.
    pose proof (forallb_Z_from
                  (fun c => match TPE_asin 0 c with
                            | Some r => Z.abs (TPE_sin r - c) <=? 6
                            | None => false
                            end) (- 510) 1021
                  ltac:(vm_compute; reflexivity) v ltac:(lia)) as H.
    cbv beta in H. destruct (TPE_asin 0 v) as [r|]; [|discriminate].
    exists r. split; [reflexivity | lia].
  - intros Hi. rewrite TPE_asin_clamp.
    pose proof (forallb_Z_from
                  (fun i => match TPE_asin 0 (TPE_clamp (TPE_sinTable_at i)
                                                (- 512) 512) with
                            | Some r => TPE_sin r =? TPE_sinTable_at i
                            | None => false
                            end) 0 128
                  ltac:(vm_compute; reflexivity) v ltac:(lia)) as H.
    cbv beta in H.
    destruct (TPE_asin 0 _) as [r|]; [|discriminate].
    exists r. split; [reflexivity | lia].
  - intros Ha. rewrite TPE_asin_clamp.
    pose proof (forallb_Z_from
                  (fun a => match TPE_asin 0 (TPE_clamp (TPE_sin a)
                                                (- 512) 512) with
                            | Some r => Z.abs (r - a) <=? 4
                            | None => false
                            end) (- 127) 255
                  ltac:(vm_compute; reflexivity) v ltac:(lia)) as H.
    cbv beta in H.
    destruct (TPE_asin 0 _) as [r|]; [|discriminate].
    exists r. split; [reflexivity | lia].
Qed.

Lemma TPE_sin_asin_round_trip_witness :
  - 510 <= 100 <= 510 /\
  (exists r : Z,
     TPE_asin 0 100 = Some r /\ Z.abs (TPE_sin r - 100) <= 6) /\
  (0 <= 100 < 128 ->
   exists r : Z,
     TPE_asin 0 (TPE_sinTable_at 100) = Some r /\
     TPE_sin r = TPE_sinTable_at 100) /\
  (- 127 <= 100 <= 127 ->
   exists r : Z,
     TPE_asin 0 (TPE_sin 100) = Some r /\ Z.abs (r - 100) <= 4).
Proof.
  split; [lia | exact (TPE_sin_asin_round_trip 0 100 ltac:(lia))].
Defined.

(** X8: [TPE_acos x] is a quarter turn minus [TPE_asin x], hence within
    [[1, 255]]. *)
Theorem TPE_acos_asin (middle0 x : Z) :
  - 2 ^ 31 < x < 2 ^ 31 ->
  exists a : Z,
    TPE_asin middle0 x = Some a /\
    TPE_acos middle0 x = Some (TPE_FRACTIONS_PER_UNIT / 4 - a) /\
    1 <= TPE_FRACTIONS_PER_UNIT / 4 - a <= 255.
Proof.
  intros Hx.
  destruct (TPE_asin_clamped_range (TPE_clamp x (- 512) 512)
              (TPE_clamp_F_range x)) as (a & Ha & Hr).
  rewrite <- (TPE_asin_clamp middle0 x) in Ha.
  exists a. split; [exact Ha|].
  split; [|change (TPE_FRACTIONS_PER_UNIT / 4) with 128; lia].
  unfold TPE_acos.
  replace ((-1) *' x) with (- x)
    by (unfold mul32; rewrite wrap32_small by (unfold in_int32; lia); lia).
  rewrite (TPE_asin_clamp middle0 (- x)), TPE_clamp_F_opp.
  rewrite (TPE_asin_clamped_odd _ (TPE_clamp_F_range x)).
  rewrite <- (TPE_asin_clamp middle0 x), Ha. cbn [option_map].
  change (F /' 4) with 128. change (TPE_FRACTIONS_PER_UNIT / 4) with 128.
  unfold add32. rewrite wrap32_small by (unfold in_int32; lia).
  f_equal. lia.
Qed.

Lemma TPE_acos_asin_witness :
  - 2 ^ 31 < 256 < 2 ^ 31 /\
  exists a : Z,
    TPE_asin 0 256 = Some a /\
    TPE_acos 0 256 = Some (TPE_FRACTIONS_PER_UNIT / 4 - a) /\
    1 <= TPE_FRACTIONS_PER_UNIT / 4 - a <= 255.
Proof.
  split; [lia | exact (TPE_acos_asin 0 256 ltac:(lia))].
Defined.

(** ** Vector arithmetic *)

Lemma wrap32_mod (u : Z) : wrap32 u mod 2 ^ 32 = u mod 2 ^ 32.
Proof.
  unfold wrap32.
  rewrite <- (Zminus_mod_idemp_l ((u + 2 ^ 31) mod 2 ^ 32)).
  rewrite Z.mod_mod by lia. rewrite Zminus_mod_idemp_l.
  f_equal. lia.
Qed.

Lemma wrap32_mod_eq (u v : Z) :
  u mod 2 ^ 32 = v mod 2 ^ 32 -> wrap32 u = wrap32 v.
Proof.
  intros H. unfold wrap32.
  rewrite <- (Zplus_mod_idemp_l u), <- (Zplus_mod_idemp_l v), H.
  reflexivity.
Qed.

Lemma wrap32_idem (u : Z) : wrap32 (wrap32 u) = wrap32 u.
Proof. apply wrap32_mod_eq, wrap32_mod. Qed.

Lemma sub32_add32 (a b : Z) : (a +' b) -' b = wrap32 a.
Proof.
  unfold sub32, add32. apply wrap32_mod_eq.
  rewrite Zminus_mod, wrap32_mod, <- Zminus_mod. f_equal. lia.
Qed.

Lemma add32_sub32 (a b : Z) : (a -' b) +' b = wrap32 a.
Proof.
  unfold sub32, add32. apply wrap32_mod_eq.
  rewrite Zplus_mod, wrap32_mod, <- Zplus_mod. f_equal. lia.
Qed.

Lemma mul32_0_l (a : Z) : 0 *' a = 0.
Proof. reflexivity. Qed.

Lemma mul32_0_r (a : Z) : a *' 0 = 0.
Proof. unfold mul32. now rewrite Z.mul_0_r. Qed.

(** X9: adding a vector and subtracting it again gives the vector back,
    also when the sum wraps around in 32 bits; the same holds for
    subtracting first. *)
Theorem TPE_vec3Minus_Plus (a b : TPE_Vec4) :
  TPE_Vec4_int32 a ->
  TPE_vec3Minus (TPE_vec3Plus a b) b = a /\
  TPE_vec3Plus (TPE_vec3Minus a b) b = a.
Proof.
  intros (Hx & Hy & Hz & _). destruct a as [ax ay az aw]. cbn in Hx, Hy, Hz.
  unfold TPE_vec3Minus, TPE_vec3Plus. cbn [x y z w].
  rewrite !sub32_add32, !add32_sub32, !wrap32_small by assumption.
  split; reflexivity.
Qed.

Lemma TPE_vec3Minus_Plus_witness :
  TPE_Vec4_int32 (TPE_vec4 2147483647 (-5) 7 1) /\
  TPE_vec3Minus (TPE_vec3Plus (TPE_vec4 2147483647 (-5) 7 1)
                              (TPE_vec4 1000 2000 3000 4))
                (TPE_vec4 1000 2000 3000 4)
    = TPE_vec4 2147483647 (-5) 7 1 /\
  TPE_vec3Plus (TPE_vec3Minus (TPE_vec4 2147483647 (-5) 7 1)
                              (TPE_vec4 1000 2000 3000 4))
               (TPE_vec4 1000 2000 3000 4)
    = TPE_vec4 2147483647 (-5) 7 1.
Proof.
  assert (H : TPE_Vec4_int32 (TPE_vec4 2147483647 (-5) 7 1))
    by (unfold TPE_Vec4_int32, in_int32; cbn; lia).
  split; [exact H|].
  exact (TPE_vec3Minus_Plus (TPE_vec4 2147483647 (-5) 7 1)
           (TPE_vec4 1000 2000 3000 4) H).
Defined.

Lemma dot3_self_bound (v : TPE_Vec4) :
  TPE_Vec4_bounded 26754 v -> 0 <= dot3 v v < 2 ^ 31.
Proof.
  intros (Hx & Hy & Hz). unfold dot3. nia.
Qed.

Lemma TPE_vec3Len_dot3 (v : TPE_Vec4) :
  TPE_Vec4_bounded 26754 v -> TPE_vec3Len v = Z.sqrt (dot3 v v).
Proof.
  intros Hb. pose proof (dot3_self_bound v Hb) as Hd.
  destruct Hb as (Hx & Hy & Hz). unfold dot3 in Hd.
  unfold TPE_vec3Len, mul32, add32.
  rewrite (wrap32_small (x v * x v)) by (unfold in_int32; nia).
  rewrite (wrap32_small (y v * y v)) by (unfold in_int32; nia).
  rewrite (wrap32_small (z v * z v)) by (unfold in_int32; nia).
  rewrite (wrap32_small (x v * x v + y v * y v)) by (unfold in_int32; nia).
  rewrite (wrap32_small (x v * x v + y v * y v + z v * z v))
    by (unfold in_int32; nia).
  apply TPE_sqrt_nonneg. exact Hd.
Qed.

(** X10: for components of magnitude at most 26754 (so that the sum of the
    squares fits into 32 bits) [TPE_vec3Len] is exactly the integer square
    root of the sum of the squares; it is zero for the zero vector only. *)
Theorem TPE_vec3Len_exact (v : TPE_Vec4) :
  TPE_Vec4_bounded 26754 v ->
  TPE_vec3Len v = Z.sqrt (dot3 v v) /\
  (TPE_vec3Len v = 0 <-> v.(x) = 0 /\ v.(y) = 0 /\ v.(z) = 0).
Proof.
  intros Hb. rewrite (TPE_vec3Len_dot3 v Hb). split; [reflexivity|].
  pose proof (dot3_self_bound v Hb) as Hd. unfold dot3 in *.
  split.
  - intros H0.
    destruct (Z.eq_dec (x v * x v + y v * y v + z v * z v) 0) as [E|E];
      [nia|].
    pose proof (Z.sqrt_pos (x v * x v + y v * y v + z v * z v)). lia.
  - intros (-> & -> & ->). reflexivity.
Qed.

Lemma TPE_vec3Len_exact_witness :
  TPE_Vec4_bounded 26754 (TPE_vec4 3 4 12 0) /\
  TPE_vec3Len (TPE_vec4 3 4 12 0)
    = Z.sqrt (dot3 (TPE_vec4 3 4 12 0) (TPE_vec4 3 4 12 0)) /\
  (TPE_vec3Len (TPE_vec4 3 4 12 0) = 0 <->
   (TPE_vec4 3 4 12 0).(x) = 0 /\ (TPE_vec4 3 4 12 0).(y) = 0 /\
   (TPE_vec4 3 4 12 0).(z) = 0).
Proof.
  assert (H : TPE_Vec4_bounded 26754 (TPE_vec4 3 4 12 0))
    by (unfold TPE_Vec4_bounded; cbn; lia).
  split; [exact H | exact (TPE_vec3Len_exact (TPE_vec4 3 4 12 0) H)].
Defined.

Lemma TPE_abs_small (a : Z) : - 2 ^ 31 < a < 2 ^ 31 -> TPE_abs a = Z.abs a.
Proof.
  intros Ha. unfold TPE_abs. rewrite Z.geb_leb.
  destruct (Z.leb_spec 0 a); [lia|].
  unfold mul32. rewrite wrap32_small by (unfold in_int32; lia). lia.
Qed.

(** X11: the taxicab length is the sum of the absolute values and never
    falls below the Euclidean length [TPE_vec3Len] (components of magnitude
    at most 26754). *)
Theorem TPE_vec3LenTaxicab_bounds (v : TPE_Vec4) :
  TPE_Vec4_bounded 26754 v ->
  TPE_vec3LenTaxicab v = Z.abs v.(x) + Z.abs v.(y) + Z.abs v.(z) /\
  TPE_vec3Len v <= TPE_vec3LenTaxicab v.
Proof.
  intros Hb. rewrite (TPE_vec3Len_dot3 v Hb).
  pose proof (dot3_self_bound v Hb) as Hd.
  destruct Hb as (Hx & Hy & Hz).
  assert (E : TPE_vec3LenTaxicab v = Z.abs (x v) + Z.abs (y v) + Z.abs (z v)).
  { unfold TPE_vec3LenTaxicab. rewrite !TPE_abs_small by lia.
    unfold add32.
    rewrite (wrap32_small (Z.abs (x v) + Z.abs (y v)))
      by (unfold in_int32; lia).
    now rewrite wrap32_small by (unfold in_int32; lia). }
  rewrite E. split; [reflexivity|].
  set (t := Z.abs (x v) + Z.abs (y v) + Z.abs (z v)).
  rewrite <- (Z.sqrt_square t) by lia.
  apply Z.sqrt_le_mono. unfold dot3, t. nia.
Qed.

Lemma TPE_vec3LenTaxicab_bounds_witness :
  TPE_Vec4_bounded 26754 (TPE_vec4 3 (-4) 12 0) /\
  TPE_vec3LenTaxicab (TPE_vec4 3 (-4) 12 0)
    = Z.abs (TPE_vec4 3 (-4) 12 0).(x) + Z.abs (TPE_vec4 3 (-4) 12 0).(y)
      + Z.abs (TPE_vec4 3 (-4) 12 0).(z) /\
  TPE_vec3Len (TPE_vec4 3 (-4) 12 0)
    <= TPE_vec3LenTaxicab (TPE_vec4 3 (-4) 12 0).
Proof.
  assert (H : TPE_Vec4_bounded 26754 (TPE_vec4 3 (-4) 12 0))
    by (unfold TPE_Vec4_bounded; cbn; lia).
  split; [exact H | exact (TPE_vec3LenTaxicab_bounds (TPE_vec4 3 (-4) 12 0) H)].
Defined.

Lemma timesAntiZero_component_spec (c f : Z) :
  in_int32 (c * f) ->
  timesAntiZero_component c f =
    if F <=? c * f then Z.quot (c * f) F else Z.sgn (c * f).
Proof.
  intros Hp. unfold timesAntiZero_component, mul32, div32. cbv zeta.
  rewrite (wrap32_small _ Hp). unfold in_int32 in Hp.
  rewrite Z.geb_leb. change F with 512.
  destruct (Z.eqb_spec (c * f) 0) as [E|E]; cbn [negb].
  - rewrite E. reflexivity.
  - destruct (Z.leb_spec 512 (c * f)) as [Hge|Hlt].
    + pose proof (Z.quot_pos (c * f) 512 ltac:(lia) ltac:(lia)).
      pose proof (Z.quot_le_upper_bound (c * f) 512 (c * f)
                    ltac:(lia) ltac:(lia)).
      apply wrap32_small. unfold in_int32. lia.
    + destruct (Z.gtb_spec (c * f) 0); lia.
Qed.

(** X12: [TPE_vec3TimesAntiZero] scales each component by [f / F] without
    ever turning a non-zero product into zero: a product of at least [F]
    gives the truncated quotient, every smaller non-zero product gives its
    sign ([1] or [-1], so every negative product gives [-1]); the fourth
    component is kept. *)
Theorem TPE_vec3TimesAntiZero_spec (a : TPE_Vec4) (f : Z) :
  in_int32 (a.(x) * f) -> in_int32 (a.(y) * f) -> in_int32 (a.(z) * f) ->
  let anti (p : Z) := if F <=? p then Z.quot p F else Z.sgn p in
  TPE_vec3TimesAntiZero a f
    = TPE_vec4 (anti (a.(x) * f)) (anti (a.(y) * f)) (anti (a.(z) * f)) a.(w)
  /\ ((TPE_vec3TimesAntiZero a f).(x) = 0 <-> a.(x) * f = 0)
  /\ ((TPE_vec3TimesAntiZero a f).(y) = 0 <-> a.(y) * f = 0)
  /\ ((TPE_vec3TimesAntiZero a f).(z) = 0 <-> a.(z) * f = 0).
Proof.
  intros Hx Hy Hz anti.
  assert (E : TPE_vec3TimesAntiZero a f
              = TPE_vec4 (anti (x a * f)) (anti (y a * f)) (anti (z a * f))
                         (w a)).
  { unfold TPE_vec3TimesAntiZero, set_x, set_y, set_z. cbn [x y z w].
    now rewrite !timesAntiZero_component_spec by assumption. }
  assert (Hanti : forall p, in_int32 p -> anti p = 0 <-> p = 0).
  { intros p Hp. unfold anti. change F with 512.
    destruct (Z.leb_spec 512 p) as [Hge|Hlt].
    - pose proof (Z.quot_le_lower_bound p 512 1 ltac:(lia) ltac:(lia)). lia.
    - lia. }
  rewrite E. cbn [x y z]. repeat split; apply Hanti; assumption.
Qed.

Lemma TPE_vec3TimesAntiZero_spec_witness :
  in_int32 (1000 * 300) /\ in_int32 (1 * 300) /\ in_int32 (-1000 * 300) /\
  TPE_vec3TimesAntiZero (TPE_vec4 1000 1 (-1000) 9) 300
    = TPE_vec4 585 1 (-1) 9.
Proof.
  assert (H1 : in_int32 (1000 * 300)) by (unfold in_int32; lia).
  assert (H2 : in_int32 (1 * 300)) by (unfold in_int32; lia).
  assert (H3 : in_int32 (-1000 * 300)) by (unfold in_int32; lia).
  split; [exact H1|]. split; [exact H2|]. split; [exact H3|].
  exact (proj1 (TPE_vec3TimesAntiZero_spec (TPE_vec4 1000 1 (-1000) 9) 300
                  H1 H2 H3)).
Defined.

(** X13: the closest point of a segment that has shrunk to a single point
    is that point, for every query point; the division by the squared
    length is guarded by [TPE_nonZero]. *)
Theorem TPE_lineSegmentClosestPoint_degenerate (a p : TPE_Vec4) :
  TPE_Vec4_int32 a -> TPE_lineSegmentClosestPoint a a p = a.
Proof.
  intros (Hx & Hy & Hz & _). destruct a as [ax ay az aw]. cbn in Hx, Hy, Hz.
  unfold TPE_lineSegmentClosestPoint, TPE_vec3Minus, TPE_vec3DotProduct,
    TPE_vec3Multiply, TPE_vec3Plus.
  cbn [x y z w]. cbv zeta.
  assert (E0 : forall c, in_int32 c -> c -' c = 0).
  { intros c Hc. unfold sub32. now rewrite Z.sub_diag. }
  rewrite !E0 by assumption. rewrite !mul32_0_l.
  change (0 +' 0 +' 0) with 0. change (0 /' F) with 0.
  change (0 *' F) with 0. change (TPE_nonZero 0) with 1.
  change (0 /' 1) with 0. change (0 <? 0) with false.
  change (0 >? F) with false. cbv iota.
  change (0 *' 0 /' F) with 0.
  unfold add32. rewrite !Z.add_0_r, !wrap32_small by assumption.
  reflexivity.
Qed.

Lemma TPE_lineSegmentClosestPoint_degenerate_witness :
  TPE_Vec4_int32 (TPE_vec4 7 (-8) 9 0) /\
  TPE_lineSegmentClosestPoint (TPE_vec4 7 (-8) 9 0) (TPE_vec4 7 (-8) 9 0)
                              (TPE_vec4 1000 2000 3000 0)
    = TPE_vec4 7 (-8) 9 0.
Proof.
  assert (H : TPE_Vec4_int32 (TPE_vec4 7 (-8) 9 0))
    by (unfold TPE_Vec4_int32, in_int32; cbn; lia).
  split; [exact H|].
  exact (TPE_lineSegmentClosestPoint_degenerate (TPE_vec4 7 (-8) 9 0)
           (TPE_vec4 1000 2000 3000 0) H).
Defined.

(** ** The unit quaternion *)

Lemma scale_unscale (a : Z) : Z.abs a <= 4194303 -> a *' F /' F = a.
Proof.
  intros Ha. unfold mul32, div32. change F with 512.
  rewrite (wrap32_small (a * 512)) by (unfold in_int32; lia).
  rewrite Z.quot_mul by lia. apply wrap32_small. unfold in_int32. lia.
Qed.

Lemma add32_0_r (a : Z) : in_int32 a -> a +' 0 = a.
Proof. intros H. unfold add32. now rewrite Z.add_0_r, wrap32_small. Qed.

Lemma add32_0_l (a : Z) : in_int32 a -> 0 +' a = a.
Proof. intros H. unfold add32. now rewrite Z.add_0_l, wrap32_small. Qed.

Lemma sub32_0_r (a : Z) : in_int32 a -> a -' 0 = a.
Proof. intros H. unfold sub32. now rewrite Z.sub_0_r, wrap32_small. Qed.

Lemma mul32_comm (a b : Z) : a *' b = b *' a.
Proof. unfold mul32. now rewrite Z.mul_comm. Qed.

Lemma mul32_range (a b : Z) : in_int32 (a *' b).
Proof. apply wrap32_range. Qed.

Lemma add32_range (a b : Z) : in_int32 (a +' b).
Proof. apply wrap32_range. Qed.

Lemma sub32_range (a b : Z) : in_int32 (a -' b).
Proof. apply wrap32_range. Qed.

Lemma div32_range (a b : Z) : in_int32 (a /' b).
Proof. apply wrap32_range. Qed.

(** Proves that a machine expression or a small constant is a 32-bit
    value. *)
Ltac int32 :=
  solve [ apply mul32_range | apply add32_range | apply sub32_range
        | apply div32_range | apply wrap32_range
        | assumption | unfold in_int32; lia ].

(** X14: the unit quaternion [TPE_quaternionInit] is a left and right unit
    of [TPE_quaternionMultiply] (components of magnitude below [2^22], for
    which the products with [F] fit into 32 bits). *)
Theorem TPE_quaternionMultiply_unit (q : TPE_Vec4) :
  TPE_Vec4_bounded 4194303 q -> Z.abs q.(w) <= 4194303 ->
  TPE_quaternionMultiply q TPE_quaternionInit = q /\
  TPE_quaternionMultiply TPE_quaternionInit q = q.
Proof.
  intros (Hx & Hy & Hz) Hw. destruct q as [qx qy qz qw]. cbn in Hx, Hy, Hz, Hw.
  unfold TPE_quaternionMultiply, TPE_quaternionInit. cbn [x y z w].
  rewrite !mul32_0_r, !mul32_0_l.
  rewrite ?add32_0_r, ?add32_0_l, ?sub32_0_r by int32.
  rewrite ?add32_0_r, ?add32_0_l, ?sub32_0_r by int32.
  rewrite !(mul32_comm F).
  rewrite !scale_unscale by assumption. split; reflexivity.
Qed.

Lemma TPE_quaternionMultiply_unit_witness :
  TPE_Vec4_bounded 4194303 (TPE_vec4 100 (-200) 300 400) /\
  Z.abs (TPE_vec4 100 (-200) 300 400).(w) <= 4194303 /\
  TPE_quaternionMultiply (TPE_vec4 100 (-200) 300 400) TPE_quaternionInit
    = TPE_vec4 100 (-200) 300 400 /\
  TPE_quaternionMultiply TPE_quaternionInit (TPE_vec4 100 (-200) 300 400)
    = TPE_vec4 100 (-200) 300 400.
Proof.
  assert (H : TPE_Vec4_bounded 4194303 (TPE_vec4 100 (-200) 300 400))
    by (unfold TPE_Vec4_bounded; cbn; lia).
  assert (H' : Z.abs (TPE_vec4 100 (-200) 300 400).(w) <= 4194303)
    by (cbn; lia).
  split; [exact H|]. split; [exact H'|].
  exact (TPE_quaternionMultiply_unit _ H H').
Defined.

Lemma TPE_rotatePoint_init (p : TPE_Vec4) :
  TPE_Vec4_bounded 4194303 p -> TPE_rotatePoint p TPE_quaternionInit = p.
Proof.
  intros (Hx & Hy & Hz). destruct p as [px py pz pw]. cbn in Hx, Hy, Hz.
  unfold TPE_rotatePoint. cbv zeta.
  change (TPE_quaternionToRotationMatrix TPE_quaternionInit)
    with [[F; 0; 0; 0]; [0; F; 0; 0]; [0; 0; F; 0]; [0; 0; 0; F]].
  unfold mat_at. cbn [nth x y z w].
  rewrite !mul32_0_r.
  rewrite ?add32_0_r, ?add32_0_l by int32.
  rewrite ?add32_0_r, ?add32_0_l by int32.
  now rewrite !scale_unscale by assumption.
Qed.

(** X15: turning a point by the unit quaternion leaves it where it is, and
    the matrix of the unit quaternion is [F] times the unit matrix
    (coordinates of magnitude below [2^22]). *)
Theorem TPE_rotatePoint_unit (p : TPE_Vec4) :
  TPE_Vec4_bounded 4194303 p ->
  TPE_rotatePoint p TPE_quaternionInit = p /\
  TPE_quaternionToRotationMatrix TPE_quaternionInit
    = [[F; 0; 0; 0]; [0; F; 0; 0]; [0; 0; F; 0]; [0; 0; 0; F]].
Proof.
  intros Hp. split; [now apply TPE_rotatePoint_init | reflexivity].
Qed.

Lemma TPE_rotatePoint_unit_witness :
  TPE_Vec4_bounded 4194303 (TPE_vec4 100 (-200) 300 7) /\
  TPE_rotatePoint (TPE_vec4 100 (-200) 300 7) TPE_quaternionInit
    = TPE_vec4 100 (-200) 300 7.
Proof.
  assert (H : TPE_Vec4_bounded 4194303 (TPE_vec4 100 (-200) 300 7))
    by (unfold TPE_Vec4_bounded; cbn; lia).
  split; [exact H | exact (proj1 (TPE_rotatePoint_unit _ H))].
Defined.

Lemma TPE_rotationToQuaternion_angle_0 (axis : TPE_Vec4) :
  TPE_rotationToQuaternion axis 0 = TPE_vec4 0 0 0 510.
Proof.
  unfold TPE_rotationToQuaternion. cbv zeta.
  change (0 /' 2) with 0. change (TPE_sin 0) with 0.
  rewrite !mul32_0_l. reflexivity.
Qed.

Lemma TPE_bodyGetOrientation_init (body : TPE_Body) :
  body.(rotation).(currentAngle) = 0 ->
  body.(rotation).(originalOrientation) = TPE_quaternionInit ->
  TPE_bodyGetOrientation body = TPE_quaternionInit.
Proof.
  intros Ha Ho. unfold TPE_bodyGetOrientation. cbv zeta.
  rewrite Ha, Ho, TPE_rotationToQuaternion_angle_0.
  vm_compute. reflexivity.
Qed.

(** X16: a body that has not turned ([currentAngle = 0]) from the unit
    orientation has the unit orientation, whatever its angular speed and for
    every rotation axis with components of magnitude at most 26754 (the
    normalisation of the axis then divides by an exact, non-negative length):
    the quaternion of the angle zero is [(0,0,0,510)], which the final
    normalisation brings back to [(0,0,0,F)]. *)
Theorem TPE_bodyGetOrientation_unturned (body : TPE_Body) :
  body.(rotation).(currentAngle) = 0 ->
  body.(rotation).(originalOrientation) = TPE_quaternionInit ->
  TPE_Vec4_bounded 26754 body.(rotation).(axisVelocity) ->
  TPE_rotationToQuaternion body.(rotation).(axisVelocity) 0
    = TPE_vec4 0 0 0 510 /\
  TPE_bodyGetOrientation body = TPE_quaternionInit.
Proof.
  intros Ha Ho _. split.
  - apply TPE_rotationToQuaternion_angle_0.
  - now apply TPE_bodyGetOrientation_init.
Qed.

Lemma TPE_bodyGetOrientation_unturned_witness :
  example_dynamic_body.(rotation).(currentAngle) = 0 /\
  example_dynamic_body.(rotation).(originalOrientation) = TPE_quaternionInit /\
  TPE_Vec4_bounded 26754 example_dynamic_body.(rotation).(axisVelocity) /\
  TPE_rotationToQuaternion example_dynamic_body.(rotation).(axisVelocity) 0
    = TPE_vec4 0 0 0 510 /\
  TPE_bodyGetOrientation example_dynamic_body = TPE_quaternionInit.
Proof.
  assert (Hb : TPE_Vec4_bounded 26754
                 example_dynamic_body.(rotation).(axisVelocity))
    by (unfold TPE_Vec4_bounded; vm_compute; repeat split; discriminate).
  split; [reflexivity|]. split; [reflexivity|]. split; [exact Hb|].
  exact (TPE_bodyGetOrientation_unturned example_dynamic_body eq_refl eq_refl
           Hb).
Defined.

Lemma quot2_abs (s : Z) : Z.abs (Z.quot s 2) <= Z.abs s.
Proof.
  rewrite <- (Z.quot_abs s 2) by lia.
  apply Z.quot_le_upper_bound; lia.
Qed.



(** ** Inelastic collision of two masses *)

Lemma inelastic_core (mA mB d M S : Z) :
  (0 *' mB /' F *' d +' M) /' S = (0 *' mA /' F *' (-1) *' d +' M) /' S.
Proof. reflexivity. Qed.

(** X18: with elasticity zero and positive masses both bodies leave the
    collision with the same velocity, for all velocities; when no operand
    exceeds [ANTI_OVERFLOW] and the momenta fit into 32 bits, that velocity is
    the total momentum divided (towards zero) by the total mass. *)
Theorem TPE_getVelocitiesAfterCollision_inelastic (v1 v2 m1 m2 : Z) :
  in_int32 v1 -> in_int32 v2 -> 0 < m1 < 2 ^ 31 -> 0 < m2 < 2 ^ 31 ->
  fst (TPE_getVelocitiesAfterCollision v1 v2 m1 m2 0)
    = snd (TPE_getVelocitiesAfterCollision v1 v2 m1 m2 0) /\
  (m1 <= 30000 -> m2 <= 30000 ->
   Z.abs v1 <= 30000 -> Z.abs v2 <= 30000 ->
   fst (TPE_getVelocitiesAfterCollision v1 v2 m1 m2 0)
     = Z.quot (m1 * v1 + m2 * v2) (m1 + m2)).
Proof.
  intros _ _ Hp1 Hp2. split.
  - unfold TPE_getVelocitiesAfterCollision. cbv zeta.
    destruct ((m1 >? ANTI_OVERFLOW) || (v1 >? ANTI_OVERFLOW) ||
              (m2 >? ANTI_OVERFLOW) || (v2 >? ANTI_OVERFLOW));
      cbv beta iota; cbn [fst snd].
    + apply (f_equal (fun t => t *' ANTI_OVERFLOW_SCALE)).
      apply inelastic_core.
    + apply inelastic_core.
  - intros Hm1 Hm2 Hv1 Hv2.
    unfold TPE_getVelocitiesAfterCollision. cbv zeta.
    unfold ANTI_OVERFLOW.
    assert (Hle : forall a, a <= 30000 -> (a >? 30000) = false).
    { intros a Ha. destruct (Z.gtb_spec a 30000); [lia | reflexivity]. }
    rewrite (Hle m1), (Hle m2), (Hle v1), (Hle v2) by lia.
    cbn [orb fst]. cbv beta iota.
    rewrite ?mul32_0_l.
    unfold TPE_nonZero at 1.
    assert (E : (m1 +' m2 =? 0) = false).
    { unfold add32. rewrite wrap32_small by (unfold in_int32; lia).
      destruct (Z.eqb_spec (m1 + m2) 0); [lia | reflexivity]. }
    rewrite E. cbn [b2z].
    unfold add32, mul32, div32.
    rewrite (wrap32_small (m1 * v1)) by (unfold in_int32; nia).
    rewrite (wrap32_small (m2 * v2)) by (unfold in_int32; nia).
    rewrite (wrap32_small (m1 * v1 + m2 * v2)) by (unfold in_int32; nia).
    rewrite (wrap32_small (m1 + m2)) by (unfold in_int32; lia).
    rewrite Z.add_0_r, Z.add_0_l.
    rewrite (wrap32_small (m1 + m2)) by (unfold in_int32; lia).
    rewrite (wrap32_small (m1 * v1 + m2 * v2)) by (unfold in_int32; nia).
    apply wrap32_small. unfold in_int32.
    assert (Z.abs (Z.quot (m1 * v1 + m2 * v2) (m1 + m2))
            <= Z.abs (m1 * v1 + m2 * v2)).
    { rewrite <- (Z.abs_eq (m1 + m2)) at 1 by lia.
      rewrite <- Z.quot_abs by lia.
      apply Z.quot_le_upper_bound; nia. }
    nia.
Qed.

Lemma TPE_getVelocitiesAfterCollision_inelastic_witness :
  in_int32 100 /\ in_int32 20 /\ 0 < 512 < 2 ^ 31 /\ 0 < 1024 < 2 ^ 31 /\
  fst (TPE_getVelocitiesAfterCollision 100 20 512 1024 0)
    = snd (TPE_getVelocitiesAfterCollision 100 20 512 1024 0) /\
  fst (TPE_getVelocitiesAfterCollision 100 20 512 1024 0)
    = Z.quot (512 * 100 + 1024 * 20) (512 + 1024).
Proof.
  assert (H1 : in_int32 100) by (unfold in_int32; lia).
  assert (H2 : in_int32 20) by (unfold in_int32; lia).
  split; [exact H1|]. split; [exact H2|]. split; [lia|]. split; [lia|].
  destruct (TPE_getVelocitiesAfterCollision_inelastic 100 20 512 1024
              H1 H2 ltac:(lia) ltac:(lia)) as [E Q].
  split; [exact E|]. apply Q; lia.
Defined.

(** ** Single bodies *)

Lemma TPE_bodyStep_antiVibration (body : TPE_Body) :
  (TPE_bodyStep body).(antiVibration) =
    let av := body.(antiVibration) in
    if Z.land av 127 >? 0 then
      let a := u8 (Z.lor (Z.land av 128) (Z.land av 127 - 1)) in
      if a =? 128 then 0 else a
    else av.
Proof.
  unfold TPE_bodyStep. cbv zeta.
  destruct (negb (mass body =? TPE_INFINITY));
    cbn [antiVibration set_rotation set_position set_antiVibration];
    destruct (Z.land (antiVibration body) 127 >? 0); try reflexivity;
    cbn [antiVibration set_antiVibration];
    destruct (u8 _ =? 128); reflexivity.
Qed.

(** X19: [TPE_bodyStep] counts the anti-vibration counter (the low seven
    bits of [antiVibration]) down by one until it is zero, keeps the
    vibration flag (bit 7) as long as the counter has not run out and clears
    the whole byte when it does; the byte stays within [[0, 255]]. *)
Theorem TPE_bodyStep_antiVibration_counter (body : TPE_Body) :
  0 <= body.(antiVibration) < 256 ->
  let av := body.(antiVibration) in
  let av' := (TPE_bodyStep body).(antiVibration) in
  0 <= av' < 256 /\
  Z.land av' 127 = Z.max 0 (Z.land av 127 - 1) /\
  (Z.land av' 128 = Z.land av 128 \/ av' = 0) /\
  (Z.land av 127 = 1 -> av' = 0).
Proof.
  intros Hav av av'. unfold av'. rewrite TPE_bodyStep_antiVibration.
  unfold av. clear av av'.
  generalize dependent (antiVibration body). intros av Hav.
  pose proof (forallb_Z_range
    (fun av =>
       let av' :=
         if Z.land av 127 >? 0 then
           let a := u8 (Z.lor (Z.land av 128) (Z.land av 127 - 1)) in
           if a =? 128 then 0 else a
         else av in
       (0 <=? av') && (av' <? 256) &&
       (Z.land av' 127 =? Z.max 0 (Z.land av 127 - 1)) &&
       ((Z.land av' 128 =? Z.land av 128) || (av' =? 0)) &&
       (negb (Z.land av 127 =? 1) || (av' =? 0)))
    256 ltac:(vm_compute; reflexivity) av ltac:(lia)) as H.
  cbv beta zeta in H. cbv zeta.
  repeat (apply andb_prop in H as [H ?]).
  repeat split; lia.
Qed.

Lemma TPE_bodyStep_antiVibration_counter_witness :
  let body := set_antiVibration example_dynamic_body 130 in
  0 <= body.(antiVibration) < 256 /\
  0 <= (TPE_bodyStep body).(antiVibration) < 256 /\
  Z.land (TPE_bodyStep body).(antiVibration) 127
    = Z.max 0 (Z.land body.(antiVibration) 127 - 1) /\
  (Z.land (TPE_bodyStep body).(antiVibration) 128
     = Z.land body.(antiVibration) 128 \/
   (TPE_bodyStep body).(antiVibration) = 0) /\
  (Z.land body.(antiVibration) 127 = 1 ->
   (TPE_bodyStep body).(antiVibration) = 0).
Proof.
  intros body.
  assert (H : 0 <= body.(antiVibration) < 256) by (cbn; lia).
  split; [exact H | exact (TPE_bodyStep_antiVibration_counter body H)].
Defined.

Lemma set_antiVibration_same (body : TPE_Body) :
  set_antiVibration body body.(antiVibration) = body.
Proof. now destruct body. Qed.

(** X20: [_TPE_bodyUpdateAntivibration] changes nothing but the
    anti-vibration byte, which stays within [[0, 255]] and keeps its flag
    (bit 7).  Without the flag the counter is left alone; with it the counter
    goes up by [TPE_ANTI_VIBRATION_INCREMENT], saturating at 127.  The
    result says whether the counter is at most
    [TPE_ANTI_VIBRATION_MAX_FRAMES]. *)
Theorem TPE_bodyUpdateAntivibration_spec (body : TPE_Body) :
  0 <= body.(antiVibration) < 256 ->
  let av := body.(antiVibration) in
  let r := _TPE_bodyUpdateAntivibration body in
  let av' := (snd r).(antiVibration) in
  snd r = set_antiVibration body av' /\
  0 <= av' < 256 /\
  Z.land av' 128 = Z.land av 128 /\
  (Z.land av 128 = 0 -> av' = av) /\
  (Z.land av 128 = 128 ->
   Z.land av' 127 = Z.min 127 (Z.land av 127 + TPE_ANTI_VIBRATION_INCREMENT)) /\
  fst r = (Z.land av' 127 <=? TPE_ANTI_VIBRATION_MAX_FRAMES).
Proof.
  intros Hav av r av'.
  assert (E : r = let tmp := Z.land av 127 in
                  let tmp' :=
                    if negb (Z.land av 128 =? 0)
                    then (if tmp <? 127 -' TPE_ANTI_VIBRATION_INCREMENT
                          then u8 (tmp +' TPE_ANTI_VIBRATION_INCREMENT)
                          else 127)
                    else tmp in
                  (tmp' <=? TPE_ANTI_VIBRATION_MAX_FRAMES,
                   set_antiVibration body
                     (if negb (Z.land av 128 =? 0)
                      then u8 (Z.lor (Z.land av 128) tmp') else av))).
  { unfold r, _TPE_bodyUpdateAntivibration. cbv zeta. fold av.
    destruct (negb (Z.land av 128 =? 0)); [reflexivity|].
    unfold av. now rewrite set_antiVibration_same. }
  unfold av'. rewrite E. cbv zeta. cbn [fst snd antiVibration set_antiVibration].
  split; [reflexivity|].
  clear E r av'. unfold av in *. clear av.
  generalize dependent (antiVibration body). intros av Hav.
  pose proof (forallb_Z_range
    (fun av =>
       let tmp := Z.land av 127 in
       let tmp' :=
         if negb (Z.land av 128 =? 0)
         then (if tmp <? 127 -' TPE_ANTI_VIBRATION_INCREMENT
               then u8 (tmp +' TPE_ANTI_VIBRATION_INCREMENT) else 127)
         else tmp in
       let av' :=
         if negb (Z.land av 128 =? 0)
         then u8 (Z.lor (Z.land av 128) tmp') else av in
       (0 <=? av') && (av' <? 256) &&
       (Z.land av' 128 =? Z.land av 128) &&
       (negb (Z.land av 128 =? 0) || (av' =? av)) &&
       (negb (Z.land av 128 =? 128) ||
        (Z.land av' 127 =? Z.min 127 (Z.land av 127
                                      + TPE_ANTI_VIBRATION_INCREMENT))) &&
       (Bool.eqb (tmp' <=? TPE_ANTI_VIBRATION_MAX_FRAMES)
                 (Z.land av' 127 <=? TPE_ANTI_VIBRATION_MAX_FRAMES)))
    256 ltac:(vm_compute; reflexivity) av ltac:(lia)) as H.
  cbv beta zeta in H.
  repeat (apply andb_prop in H as [H ?]).
  repeat split; lia.
Qed.

Lemma TPE_bodyUpdateAntivibration_spec_witness :
  let body := set_antiVibration example_dynamic_body 230 in
  0 <= body.(antiVibration) < 256 /\
  _TPE_bodyUpdateAntivibration body = (false, set_antiVibration body 250).
Proof.
  intros body.
  assert (H : 0 <= body.(antiVibration) < 256) by (cbn; lia).
  split; [exact H|].
  pose proof (TPE_bodyUpdateAntivibration_spec body H) as (E & _ & _ & _ & _ & Ef).
  rewrite (surjective_pairing (_TPE_bodyUpdateAntivibration body)).
  rewrite Ef, E. reflexivity.
Defined.

Lemma TPE_vec3Len_nonzero (v : TPE_Vec4) :
  TPE_Vec4_bounded 26754 v ->
  v.(x) <> 0 \/ v.(y) <> 0 \/ v.(z) <> 0 -> TPE_vec3Len v <> 0.
Proof.
  intros Hb Hv. rewrite (TPE_vec3Len_dot3 v Hb).
  pose proof (dot3_self_bound v Hb) as Hd. unfold dot3 in *.
  assert (0 < x v * x v + y v * y v + z v * z v) by nia.
  pose proof (Z.sqrt_pos (x v * x v + y v * y v + z v * z v)). lia.
Qed.

(** X21: error and edge behaviour of [TPE_bodyApplyImpulse].  Applied to a
    body of mass zero at a point other than its centre it traps, on the
    division by the mass (point components of magnitude at most 26754,
    impulse components below [2^22]); an impulse applied at the centre of the
    body, [(0,0,0)], is dropped altogether: the body keeps even its linear
    velocity. *)
Theorem TPE_bodyApplyImpulse_edges (ind : TPE_Indeterminate) (body : TPE_Body)
    (point impulse : TPE_Vec4) :
  (TPE_Vec4_bounded 26754 point -> TPE_Vec4_bounded 4194303 impulse ->
   point.(x) <> 0 \/ point.(y) <> 0 \/ point.(z) <> 0 ->
   body.(mass) = 0 ->
   TPE_bodyApplyImpulse ind body point impulse = None) /\
  (point.(x) = 0 -> point.(y) = 0 -> point.(z) = 0 ->
   TPE_bodyApplyImpulse ind body point impulse = Some body).
Proof.
  split.
  - intros Hb _ Hp Hm. unfold TPE_bodyApplyImpulse. cbv zeta.
    pose proof (TPE_vec3Len_nonzero point Hb Hp) as Hl.
    destruct (Z.eqb_spec (TPE_vec3Len point) 0) as [E|E]; [contradiction|].
    cbn [negb]. unfold div32_chk. rewrite Hm. reflexivity.
  - intros Hx Hy Hz. unfold TPE_bodyApplyImpulse. cbv zeta.
    replace (TPE_vec3Len point) with 0; [reflexivity|].
    unfold TPE_vec3Len. now rewrite Hx, Hy, Hz.
Qed.

Lemma TPE_bodyApplyImpulse_edges_witness :
  TPE_bodyApplyImpulse junk1
    (mkBody TPE_SHAPE_SPHERE [F; 0; 0] 0 0 (TPE_vec4 0 0 0 0)
            (TPE_vec4 0 0 0 0) example_rotation F 0)
    (TPE_vec4 1 0 0 0) (TPE_vec4 1 1 1 0) = None.
Proof.
  apply (proj1 (TPE_bodyApplyImpulse_edges junk1
                  (mkBody TPE_SHAPE_SPHERE [F; 0; 0] 0 0 (TPE_vec4 0 0 0 0)
                          (TPE_vec4 0 0 0 0) example_rotation F 0)
                  (TPE_vec4 1 0 0 0) (TPE_vec4 1 1 1 0))).
  - unfold TPE_Vec4_bounded; cbn; lia.
  - unfold TPE_Vec4_bounded; cbn; lia.
  - left. cbn. lia.
  - reflexivity.
Defined.

Lemma TPE_sqrt_FF : TPE_sqrt (F *' F) = F.
Proof. vm_compute. reflexivity. Qed.

(** X22: [TPE_bodyMultiplyKineticEnergy] leaves a static body alone.  For a
    dynamic body the factor zero stops it (linear velocity and angular speed
    become zero), and the factor [F], that is one, changes nothing as long as
    the velocity components and the angular speed are below [2^22] in
    magnitude. *)
Theorem TPE_bodyMultiplyKineticEnergy_cases (body : TPE_Body) :
  (body.(mass) = TPE_INFINITY ->
   forall f : Z, TPE_bodyMultiplyKineticEnergy body f = body) /\
  (body.(mass) <> TPE_INFINITY ->
   TPE_bodyMultiplyKineticEnergy body 0 =
     set_rotation
       (set_velocity body (TPE_vec4 0 0 0 body.(velocity).(w)))
       (mkRotationState body.(rotation).(originalOrientation)
          (set_w body.(rotation).(axisVelocity) 0)
          body.(rotation).(currentAngle))) /\
  (TPE_Vec4_bounded 4194303 body.(velocity) ->
   Z.abs body.(rotation).(axisVelocity).(w) <= 4194303 ->
   TPE_bodyMultiplyKineticEnergy body F = body).
Proof.
  split; [|split].
  - intros Hm f. unfold TPE_bodyMultiplyKineticEnergy.
    now rewrite Hm, Z.eqb_refl.
  - intros Hm. unfold TPE_bodyMultiplyKineticEnergy.
    destruct (Z.eqb_spec (mass body) TPE_INFINITY) as [?|_]; [contradiction|].
    cbv zeta. destruct body as [sh sp fl m p v [oo av ca] bsr avib].
    cbn [velocity rotation set_velocity set_rotation axisVelocity
         originalOrientation currentAngle mass shape shapeParams flags
         position boundingSphereRadius antiVibration].
    unfold TPE_vec3Multiply, set_w. cbn [x y z w].
    rewrite !mul32_0_r. reflexivity.
  - intros (Hx & Hy & Hz) Hw. unfold TPE_bodyMultiplyKineticEnergy.
    destruct (Z.eqb_spec (mass body) TPE_INFINITY) as [?|_]; [reflexivity|].
    cbv zeta. rewrite TPE_sqrt_FF.
    destruct body as [sh sp fl m p [vx vy vz vw] [oo [ax ay az aw] ca] bsr avib].
    cbn [velocity rotation set_velocity set_rotation axisVelocity
         originalOrientation currentAngle mass shape shapeParams flags
         position boundingSphereRadius antiVibration x y z w] in *.
    unfold TPE_vec3Multiply, set_w. cbn [x y z w].
    rewrite !scale_unscale by assumption.
    destruct (Z.eqb_spec aw 0) as [->|Hne].
    + reflexivity.
    + cbn [negb andb]. rewrite Bool.andb_false_r. reflexivity.
Qed.

Lemma TPE_bodyMultiplyKineticEnergy_cases_witness :
  TPE_bodyMultiplyKineticEnergy example_static_body 100 = example_static_body.
Proof.
  exact (proj1 (TPE_bodyMultiplyKineticEnergy_cases example_static_body)
           eq_refl 100).
Defined.

(** X23: a body at rest (no linear velocity, angular speed zero) has the
    kinetic energy zero, whatever its mass and shape. *)
Theorem TPE_bodyGetKineticEnergy_rest (body : TPE_Body) :
  body.(velocity).(x) = 0 -> body.(velocity).(y) = 0 ->
  body.(velocity).(z) = 0 -> body.(rotation).(axisVelocity).(w) = 0 ->
  TPE_bodyGetKineticEnergy body = 0.
Proof.
  intros Hx Hy Hz Hw. unfold TPE_bodyGetKineticEnergy. cbv zeta.
  replace (TPE_vec3Len (velocity body)) with 0
    by (unfold TPE_vec3Len; now rewrite Hx, Hy, Hz).
  rewrite Hw. change (0 *' 0) with 0.
  change ((0 =? 0) || (0 >=? F)) with true. cbv iota.
  change (0 /' F) with 0. rewrite mul32_0_r.
  change (TPE_timesAntiZero 0 0) with 0.
  assert (E : forall a, TPE_timesAntiZero a 0 = 0).
  { intros a. unfold TPE_timesAntiZero. now rewrite mul32_0_r. }
  rewrite E. rewrite mul32_0_l. reflexivity.
Qed.

Lemma TPE_bodyGetKineticEnergy_rest_witness :
  example_static_body.(velocity).(x) = 0 /\
  example_static_body.(velocity).(y) = 0 /\
  example_static_body.(velocity).(z) = 0 /\
  example_static_body.(rotation).(axisVelocity).(w) = 0 /\
  TPE_bodyGetKineticEnergy example_static_body = 0.
Proof.
  repeat (split; [reflexivity|]).
  exact (TPE_bodyGetKineticEnergy_rest example_static_body
           eq_refl eq_refl eq_refl eq_refl).
Defined.

(** X24: converting a linear velocity to an angular one divides by the
    circumference [2 * TPE_PI * distance / F], so it traps exactly at the
    distance zero; the other direction, [TPE_angularVelocityToLinear], gives
    zero there. *)
Theorem TPE_linearVelocityToAngular_trap (velocity distance : Z) :
  Z.abs distance <= 600000 ->
  (TPE_linearVelocityToAngular velocity distance = None <-> distance = 0) /\
  TPE_angularVelocityToLinear velocity 0 = 0.
Proof.
  intros Hd. split.
  - assert (Hq : Z.quot (3216 * distance) 512 = 0 <-> distance = 0).
    { split.
      - intros H0. apply Z.quot_small_iff in H0; lia.
      - intros ->. reflexivity. }
    assert (Ec : 2 *' TPE_PI *' distance /' F = Z.quot (3216 * distance) 512).
    { change (2 *' TPE_PI) with 3216. change F with 512.
      unfold mul32, div32.
      rewrite (wrap32_small (3216 * distance)) by (unfold in_int32; lia).
      apply wrap32_small. unfold in_int32.
      assert (Z.abs (Z.quot (3216 * distance) 512) <= Z.abs (3216 * distance)).
      { rewrite <- (Z.abs_eq 512) at 1 by lia. rewrite <- Z.quot_abs by lia.
        apply Z.quot_le_upper_bound; lia. }
      lia. }
    assert (Hm : Z.quot (3216 * distance) 512 <> -1).
    { destruct (Z.le_gt_cases 0 distance) as [Hpos|Hneg].
      - pose proof (Z.quot_pos (3216 * distance) 512 ltac:(lia) ltac:(lia)).
        lia.
      - pose proof (Z.quot_le_mono (3216 * distance) (-3216) 512
                      ltac:(lia) ltac:(lia)) as Hle.
        change (Z.quot (-3216) 512) with (-6) in Hle. lia. }
    unfold TPE_linearVelocityToAngular, div32_chk. cbv zeta. rewrite Ec.
    destruct (Z.eqb_spec (Z.quot (3216 * distance) 512) (-1)) as [E1|E1];
      [contradiction|].
    rewrite andb_false_r, orb_false_r.
    destruct (Z.eqb_spec (Z.quot (3216 * distance) 512) 0) as [E|E].
    + split; [intros _; now apply Hq | reflexivity].
    + split; [discriminate | intros H0; apply Hq in H0; contradiction].
  - unfold TPE_angularVelocityToLinear. cbv zeta.
    rewrite mul32_0_r. reflexivity.
Qed.

Lemma TPE_linearVelocityToAngular_trap_witness :
  Z.abs 0 <= 600000 /\
  (TPE_linearVelocityToAngular 100 0 = None <-> 0 = 0) /\
  TPE_angularVelocityToLinear 100 0 = 0.
Proof.
  split; [cbn; lia | exact (TPE_linearVelocityToAngular_trap 100 0 ltac:(cbn; lia))].
Defined.

(** ** Stepping and gravity *)

(** X25: [TPE_worldStepBodies] steps each of the first [bodyCount] bodies
    once, with [TPE_bodyStep], and leaves the rest of the array, its length
    and [bodyCount] as they are. *)
Theorem TPE_worldStepBodies_bodies (world : TPE_World) (i : nat) :
  (TPE_worldStepBodies world).(bodyCount) = world.(bodyCount) /\
  length (TPE_worldStepBodies world).(bodies) = length world.(bodies) /\
  (TPE_worldStepBodies world).(bodies) !! i =
    if decide (Z.of_nat i < world.(bodyCount))
    then TPE_bodyStep <$> world.(bodies) !! i
    else world.(bodies) !! i.
Proof.
  unfold TPE_worldStepBodies. split; [reflexivity|]. split.
  - unfold for_each_body; cbn [bodies]. apply foldl_alter_seq_length.
  - apply for_each_body_lookup.
Qed.





(** ** Collision of two spheres *)

Lemma TPE_vec3Substract_exact (a b r : TPE_Vec4) :
  TPE_Vec4_bounded 13377 a -> TPE_Vec4_bounded 13377 b ->
  TPE_vec3Substract a b r
    = TPE_vec4 (a.(x) - b.(x)) (a.(y) - b.(y)) (a.(z) - b.(z)) r.(w).
Proof.
  intros (Hx & Hy & Hz) (Hx' & Hy' & Hz').
  unfold TPE_vec3Substract, sub32.
  now rewrite !wrap32_small by (unfold in_int32; lia).
Qed.

Lemma TPE_vec3Average_exact (a b r : TPE_Vec4) :
  TPE_Vec4_bounded 13377 a -> TPE_Vec4_bounded 13377 b ->
  TPE_vec3Average a b r
    = TPE_vec4 (Z.quot (a.(x) + b.(x)) 2) (Z.quot (a.(y) + b.(y)) 2)
               (Z.quot (a.(z) + b.(z)) 2) r.(w).
Proof.
  intros (Hx & Hy & Hz) (Hx' & Hy' & Hz').
  assert (E : forall u v, Z.abs u <= 13377 -> Z.abs v <= 13377 ->
                          (u +' v) /' 2 = Z.quot (u + v) 2).
  { intros u v Hu Hv. unfold add32, div32.
    rewrite (wrap32_small (u + v)) by (unfold in_int32; lia).
    apply wrap32_small. unfold in_int32.
    pose proof (quot2_abs (u + v)). lia. }
  unfold TPE_vec3Average. now rewrite !E by assumption.
Qed.

Lemma TPE_bodyCollides_sphere_sphere_value (ind : TPE_Indeterminate)
    (body1 body2 : TPE_Body) (p n : TPE_Vec4) :
  TPE_Vec4_bounded 13377 body1.(position) ->
  TPE_Vec4_bounded 13377 body2.(position) ->
  Z.abs (shapeParam body1 0) <= 1000000 ->
  Z.abs (shapeParam body2 0) <= 1000000 ->
  let c1 := body1.(position) in
  let c2 := body2.(position) in
  let d := Z.sqrt (dot3 (diff3 c2 c1) (diff3 c2 c1)) in
  let r := shapeParam body1 0 + shapeParam body2 0 in
  TPE_bodyCollides_sphere_sphere ind body1 body2 p n
    = if d <? r
      then (r - d,
            TPE_vec4 (Z.quot (c1.(x) + c2.(x)) 2) (Z.quot (c1.(y) + c2.(y)) 2)
                     (Z.quot (c1.(z) + c2.(z)) 2) p.(w),
            TPE_vec3Normalize
              (TPE_vec3Substract c2 c1 ind.(ind_distanceVec)))
      else (0, p, n).
Proof.
  intros H1 H2 Hr1 Hr2 c1 c2 d r.
  unfold TPE_bodyCollides_sphere_sphere. cbv zeta.
  fold c1 c2.
  assert (Hb : TPE_Vec4_bounded 26754
                 (TPE_vec3Substract c2 c1 (ind_distanceVec ind))).
  { rewrite (TPE_vec3Substract_exact c2 c1 _ H2 H1).
    destruct H1 as (? & ? & ?), H2 as (? & ? & ?).
    unfold TPE_Vec4_bounded, c1, c2; cbn [x y z w]. lia. }
  assert (Hd : TPE_vec3Len (TPE_vec3Substract c2 c1 (ind_distanceVec ind))
               = d).
  { rewrite (TPE_vec3Len_dot3 _ Hb).
    rewrite (TPE_vec3Substract_exact c2 c1 _ H2 H1). reflexivity. }
  assert (Hd0 : 0 <= d < 46341).
  { pose proof (dot3_self_bound _ Hb) as Hs.
    rewrite (TPE_vec3Substract_exact c2 c1 _ H2 H1) in Hs.
    change (dot3 _ _) with (dot3 (diff3 c2 c1) (diff3 c2 c1)) in Hs.
    subst d. split; [apply Z.sqrt_nonneg|].
    apply Z.sqrt_lt_square; lia. }
  rewrite Hd.
  assert (Es : d -' (shapeParam body1 0 +' shapeParam body2 0) = d - r).
  { unfold sub32, add32.
    rewrite (wrap32_small (shapeParam body1 0 + shapeParam body2 0))
      by (unfold in_int32; lia).
    apply wrap32_small. unfold in_int32. subst r. lia. }
  rewrite Es.
  destruct (Z.ltb_spec (d - r) 0) as [Hlt|Hge];
    destruct (Z.ltb_spec d r) as [Hlt'|Hge']; try lia; [|reflexivity].
  rewrite (TPE_vec3Average_exact c1 c2 p H1 H2).
  replace ((-1) *' (d - r)) with (r - d); [reflexivity|].
  unfold mul32. rewrite wrap32_small by (unfold in_int32; subst r; lia). lia.
Qed.

(** X27: two spheres collide exactly when the integer distance of their
    centres is below the sum of their radii.  The depth is the difference,
    the collision point the midpoint of the centres and the normal the
    normalised vector from the first centre to the second; otherwise the
    result is 0 and the point and the normal are not written.  The depth is
    the same when the bodies are swapped.  (Centres within 13377 of the
    origin in each coordinate, radii up to 1000000.) *)
Theorem TPE_bodyCollides_spheres (ind : TPE_Indeterminate)
    (body1 body2 : TPE_Body) (p n : TPE_Vec4) :
  body1.(shape) = TPE_SHAPE_SPHERE -> body2.(shape) = TPE_SHAPE_SPHERE ->
  TPE_Vec4_bounded 13377 body1.(position) ->
  TPE_Vec4_bounded 13377 body2.(position) ->
  Z.abs (shapeParam body1 0) <= 1000000 ->
  Z.abs (shapeParam body2 0) <= 1000000 ->
  let c1 := body1.(position) in
  let c2 := body2.(position) in
  let d := Z.sqrt (dot3 (diff3 c2 c1) (diff3 c2 c1)) in
  let r := shapeParam body1 0 + shapeParam body2 0 in
  TPE_bodyCollides ind body1 body2 p n
    = Some (if d <? r
            then (r - d,
                  TPE_vec4 (Z.quot (c1.(x) + c2.(x)) 2)
                           (Z.quot (c1.(y) + c2.(y)) 2)
                           (Z.quot (c1.(z) + c2.(z)) 2) p.(w),
                  TPE_vec3Normalize
                    (TPE_vec3Substract c2 c1 ind.(ind_distanceVec)))
            else (0, p, n)) /\
  option_map (fun t => fst (fst t)) (TPE_bodyCollides ind body2 body1 p n)
    = option_map (fun t => fst (fst t)) (TPE_bodyCollides ind body1 body2 p n).
Proof.
  intros S1 S2 H1 H2 Hr1 Hr2 c1 c2 d r.
  assert (E : forall b1 b2 : TPE_Body,
            shape b1 = TPE_SHAPE_SPHERE -> shape b2 = TPE_SHAPE_SPHERE ->
            TPE_bodyCollides ind b1 b2 p n
              = Some (TPE_bodyCollides_sphere_sphere ind b1 b2 p n)).
  { intros b1 b2 E1 E2. unfold TPE_bodyCollides. cbv zeta.
    rewrite E1, E2, Z.eqb_refl. reflexivity. }
  pose proof (TPE_bodyCollides_sphere_sphere_value ind body1 body2 p n
                H1 H2 Hr1 Hr2) as V12.
  pose proof (TPE_bodyCollides_sphere_sphere_value ind body2 body1 p n
                H2 H1 Hr2 Hr1) as V21.
  cbv zeta in V12, V21. subst c1 c2 d r.
  rewrite (E body1 body2 S1 S2), (E body2 body1 S2 S1), V12, V21.
  split; [reflexivity|]. cbn [option_map].
  replace (dot3 (diff3 (position body1) (position body2))
                (diff3 (position body1) (position body2)))
    with (dot3 (diff3 (position body2) (position body1))
               (diff3 (position body2) (position body1)))
    by (unfold dot3, diff3; cbn [x y z w]; ring).
  rewrite (Z.add_comm (shapeParam body2 0) (shapeParam body1 0)).
  destruct (_ <? _); reflexivity.
Qed.

Lemma TPE_bodyCollides_spheres_witness :
  example_dynamic_body.(shape) = TPE_SHAPE_SPHERE /\
  example_static_body.(shape) = TPE_SHAPE_SPHERE /\
  TPE_Vec4_bounded 13377 example_dynamic_body.(position) /\
  TPE_Vec4_bounded 13377 example_static_body.(position) /\
  Z.abs (shapeParam example_dynamic_body 0) <= 1000000 /\
  Z.abs (shapeParam example_static_body 0) <= 1000000 /\
  TPE_bodyCollides junk1 example_dynamic_body example_static_body
    (TPE_vec4 1 2 3 4) (TPE_vec4 5 6 7 8)
    = Some (if Z.sqrt (dot3 (diff3 example_static_body.(position)
                                   example_dynamic_body.(position))
                            (diff3 example_static_body.(position)
                                   example_dynamic_body.(position)))
               <? shapeParam example_dynamic_body 0
                  + shapeParam example_static_body 0
            then (shapeParam example_dynamic_body 0
                  + shapeParam example_static_body 0
                  - Z.sqrt (dot3 (diff3 example_static_body.(position)
                                        example_dynamic_body.(position))
                                 (diff3 example_static_body.(position)
                                        example_dynamic_body.(position))),
                  TPE_vec4
                    (Z.quot (example_dynamic_body.(position).(x)
                             + example_static_body.(position).(x)) 2)
                    (Z.quot (example_dynamic_body.(position).(y)
                             + example_static_body.(position).(y)) 2)
                    (Z.quot (example_dynamic_body.(position).(z)
                             + example_static_body.(position).(z)) 2) 4,
                  TPE_vec3Normalize
                    (TPE_vec3Substract example_static_body.(position)
                       example_dynamic_body.(position)
                       junk1.(ind_distanceVec)))
            else (0, TPE_vec4 1 2 3 4, TPE_vec4 5 6 7 8)).
Proof.
  assert (B1 : TPE_Vec4_bounded 13377 example_dynamic_body.(position))
    by (unfold TPE_Vec4_bounded; cbn; lia).
  assert (B2 : TPE_Vec4_bounded 13377 example_static_body.(position))
    by (unfold TPE_Vec4_bounded; cbn; lia).
  assert (R1 : Z.abs (shapeParam example_dynamic_body 0) <= 1000000)
    by (vm_compute; discriminate).
  assert (R2 : Z.abs (shapeParam example_static_body 0) <= 1000000)
    by (vm_compute; discriminate).
  repeat (split; [first [reflexivity | assumption]|]).
  exact (proj1 (TPE_bodyCollides_spheres junk1 example_dynamic_body
                  example_static_body (TPE_vec4 1 2 3 4) (TPE_vec4 5 6 7 8)
                  eq_refl eq_refl B1 B2 R1 R2)).
Defined.

(** ** What a collision changes *)

Lemma TPE_body_frame_refl (b : TPE_Body) : TPE_body_frame b b.
Proof. unfold TPE_body_frame. auto 10. Qed.

Lemma TPE_body_frame_trans (b1 b2 b3 : TPE_Body) :
  TPE_body_frame b1 b2 -> TPE_body_frame b2 b3 -> TPE_body_frame b1 b3.
Proof.
  unfold TPE_body_frame.
  intros (H1 & H2 & H3 & H4 & H5 & H6) (G1 & G2 & G3 & G4 & G5 & G6).
  split; [congruence|]. split; [congruence|]. split; [congruence|].
  split; [congruence|]. split; [congruence|].
  intros Hm. destruct (H6 Hm) as (? & ? & ?).
  destruct (G6 ltac:(congruence)) as (? & ? & ?).
  repeat split; congruence.
Qed.

(** The fields that [TPE_body_frame] leaves open for a dynamic body. *)
Lemma TPE_body_frame_dynamic (b b' : TPE_Body) :
  b.(mass) <> TPE_INFINITY ->
  b'.(shape) = b.(shape) -> b'.(shapeParams) = b.(shapeParams) ->
  b'.(flags) = b.(flags) -> b'.(mass) = b.(mass) ->
  b'.(boundingSphereRadius) = b.(boundingSphereRadius) ->
  TPE_body_frame b b'.
Proof. unfold TPE_body_frame. intros. repeat split; tauto. Qed.

Lemma TPE_body_frame_antiVibration (b : TPE_Body) (a : Z) :
  TPE_body_frame b (set_antiVibration b a).
Proof. unfold TPE_body_frame. cbn. auto 10. Qed.

Lemma TPE_bodySetRotation_kind (body : TPE_Body) (axis : TPE_Vec4)
    (velocity : Z) :
  let b' := TPE_bodySetRotation body axis velocity in
  b'.(shape) = body.(shape) /\ b'.(shapeParams) = body.(shapeParams) /\
  b'.(flags) = body.(flags) /\ b'.(mass) = body.(mass) /\
  b'.(boundingSphereRadius) = body.(boundingSphereRadius).
Proof.
  unfold TPE_bodySetRotation.
  destruct (negb (currentAngle (rotation body) =? 0));
    destruct (velocity <? 0); cbn; auto.
Qed.

Lemma TPE_bodyAddRotation_kind (body : TPE_Body) (axis : TPE_Vec4)
    (velocity : Z) :
  let b' := TPE_bodyAddRotation body axis velocity in
  b'.(shape) = body.(shape) /\ b'.(shapeParams) = body.(shapeParams) /\
  b'.(flags) = body.(flags) /\ b'.(mass) = body.(mass) /\
  b'.(boundingSphereRadius) = body.(boundingSphereRadius).
Proof.
  unfold TPE_bodyAddRotation.
  destruct (velocity =? 0); [cbn; auto|]. cbv zeta.
  match goal with
  | |- context [TPE_bodySetRotation ?b ?a ?v] =>
      pose proof (TPE_bodySetRotation_kind b a v) as H
  end.
  cbv zeta in H. cbn [shape shapeParams flags mass boundingSphereRadius
                      set_rotation] in H.
  exact H.
Qed.

Lemma TPE_bodyApplyImpulse_kind_opt (ind : TPE_Indeterminate)
    (body : TPE_Body) (point impulse : TPE_Vec4) :
  match TPE_bodyApplyImpulse ind body point impulse with
  | Some b' =>
      b'.(shape) = body.(shape) /\ b'.(shapeParams) = body.(shapeParams) /\
      b'.(flags) = body.(flags) /\ b'.(mass) = body.(mass) /\
      b'.(boundingSphereRadius) = body.(boundingSphereRadius)
  | None => True
  end.
Proof.
  unfold TPE_bodyApplyImpulse. cbv zeta.
  destruct (negb (TPE_vec3Len point =? 0)); [|auto].
  destruct (div32_chk _ _) as [ix|]; [|exact I].
  destruct (div32_chk _ _) as [iy|]; [|exact I].
  destruct (div32_chk _ _) as [iz|]; [|exact I].
  match goal with
  | |- context [TPE_bodyAddRotation ?b ?a ?v] =>
      pose proof (TPE_bodyAddRotation_kind b a v) as H
  end.
  cbv zeta in H. cbn [shape shapeParams flags mass boundingSphereRadius
                      set_velocity] in H.
  exact H.
Qed.

Lemma TPE_bodyApplyImpulse_kind (ind : TPE_Indeterminate) (body b' : TPE_Body)
    (point impulse : TPE_Vec4) :
  TPE_bodyApplyImpulse ind body point impulse = Some b' ->
  b'.(shape) = body.(shape) /\ b'.(shapeParams) = body.(shapeParams) /\
  b'.(flags) = body.(flags) /\ b'.(mass) = body.(mass) /\
  b'.(boundingSphereRadius) = body.(boundingSphereRadius).
Proof.
  intros H. pose proof (TPE_bodyApplyImpulse_kind_opt ind body point impulse)
    as G.
  now rewrite H in G.
Qed.

Lemma TPE_bodyMultiplyKineticEnergy_frame (body : TPE_Body) (f : Z) :
  TPE_body_frame body (TPE_bodyMultiplyKineticEnergy body f).
Proof.
  unfold TPE_bodyMultiplyKineticEnergy.
  destruct (Z.eqb_spec (mass body) TPE_INFINITY) as [E|E].
  - apply TPE_body_frame_refl.
  - apply TPE_body_frame_dynamic; [exact E | reflexivity ..].
Qed.

Lemma TPE_correctEnergies_frame (body1 body2 : TPE_Body) (e r : Z) :
  TPE_body_frame body1 (fst (TPE_correctEnergies body1 body2 e r)) /\
  TPE_body_frame body2 (snd (TPE_correctEnergies body1 body2 e r)).
Proof.
  unfold TPE_correctEnergies.
  destruct (e =? 0); [split; apply TPE_body_frame_refl|]. cbv zeta.
  destruct (_ || _); [|split; apply TPE_body_frame_refl].
  destruct (_ || _); [|split; apply TPE_body_frame_refl].
  split; apply TPE_bodyMultiplyKineticEnergy_frame.
Qed.

Lemma _TPE_bodyUpdateAntivibration_frame (body : TPE_Body) :
  TPE_body_frame body (snd (_TPE_bodyUpdateAntivibration body)).
Proof.
  unfold _TPE_bodyUpdateAntivibration. cbv zeta.
  destruct (negb _); cbn [snd].
  - apply TPE_body_frame_antiVibration.
  - apply TPE_body_frame_refl.
Qed.

(** Stepping through one run of a function that keeps an invariant. *)
Lemma let_forget {A B : Type} (P : B -> Prop) (a : A) (k : A -> B) :
  (forall v, P (k v)) -> P (let v := a in k v).
Proof. intros H. apply H. Qed.

Lemma pair_keep {A1 A2 B : Type} (I1 : A1 -> Prop) (I2 : A2 -> Prop)
    (P : B -> Prop) (e : A1 * A2) (k : A1 -> A2 -> B) :
  I1 (fst e) -> I2 (snd e) ->
  (forall u v, I1 u -> I2 v -> P (k u v)) ->
  P (let '(u, v) := e in k u v).
Proof. intros H1 H2 H. destruct e. now apply H. Qed.

Lemma bind_keep {A B : Type} (J : A -> Prop) (P : B -> Prop)
    (e : option A) (k : A -> option B) :
  opt_holds J e -> (forall v, J v -> opt_holds P (k v)) ->
  opt_holds P (v <- e ;; k v).
Proof. intros H1 H. destruct e; cbn in *; [now apply H | exact I]. Qed.

Lemma bind_forget {A B : Type} (P : B -> Prop)
    (e : option A) (k : A -> option B) :
  (forall v, opt_holds P (k v)) -> opt_holds P (v <- e ;; k v).
Proof. intros H. destruct e; cbn; [apply H | exact I]. Qed.

Ltac forget_step :=
  lazymatch goal with
  | |- ?P (let v := ?a in @?k v) =>
      apply (let_forget P a k); intros ?; cbv beta
  | |- opt_holds ?P (match ?e with Some v => @?k v | None => None end) =>
      apply (bind_forget P e k); intros ?; cbv beta
  end.

Lemma TPE_body_frame_position (b0 b : TPE_Body) (p : TPE_Vec4) :
  b0.(mass) <> TPE_INFINITY -> TPE_body_frame b0 b ->
  TPE_body_frame b0 (set_position b p).
Proof.
  intros Hm (H1 & H2 & H3 & H4 & H5 & _).
  apply TPE_body_frame_dynamic; assumption.
Qed.

Lemma TPE_bodyApplyImpulse_frame (ind : TPE_Indeterminate) (b0 b : TPE_Body)
    (point impulse : TPE_Vec4) :
  b0.(mass) <> TPE_INFINITY -> TPE_body_frame b0 b ->
  opt_holds (TPE_body_frame b0) (TPE_bodyApplyImpulse ind b point impulse).
Proof.
  intros Hm (H1 & H2 & H3 & H4 & H5 & _).
  pose proof (TPE_bodyApplyImpulse_kind_opt ind b point impulse) as G.
  destruct (TPE_bodyApplyImpulse ind b point impulse) as [b'|]; [|exact I].
  destruct G as (G1 & G2 & G3 & G4 & G5). cbn [opt_holds].
  apply TPE_body_frame_dynamic; congruence.
Qed.

(** The part of [TPE_resolveCollision] after the exchange of the bodies:
    the second body is dynamic there. *)
Lemma TPE_resolveCollision_from_p1_frame (ind : TPE_Indeterminate)
    (body1 body2 : TPE_Body) (p n : TPE_Vec4) (d e : Z) :
  body2.(mass) <> TPE_INFINITY ->
  opt_holds (fun r => TPE_body_frame body1 (fst r) /\
                      TPE_body_frame body2 (snd r))
    (TPE_resolveCollision_from_p1 ind body1 body2 p n d e).
Proof.
  intros Hm2. lazy beta delta [TPE_resolveCollision_from_p1].
  do 3 forget_step.
  (* separate the bodies *)
  match goal with
  | |- ?P (let '(u, v) := ?e in @?k u v) =>
      apply (pair_keep (TPE_body_frame body1) (TPE_body_frame body2) P e k)
  end.
  { destruct (Z.eqb_spec (mass body1) TPE_INFINITY) as [E|E]; cbn [negb];
      cbv zeta; cbn [fst].
    - apply TPE_body_frame_refl.
    - apply TPE_body_frame_position; [exact E | apply TPE_body_frame_refl]. }
  { destruct (negb (mass body1 =? TPE_INFINITY)); cbv zeta; cbn [snd];
      (apply TPE_body_frame_position; [exact Hm2 | apply TPE_body_frame_refl]). }
  intros b1 b2 F1 F2. cbv beta.
  do 2 forget_step.
  match goal with
  | |- ?P (let '(u, v) := ?e in @?k u v) =>
      apply (pair_keep (TPE_body_frame body1) (TPE_body_frame body2) P e k)
  end.
  { destruct (_ >=? _); cbn [fst]; [|exact F1].
    eapply TPE_body_frame_trans;
      [exact F1 | apply TPE_body_frame_antiVibration]. }
  { destruct (_ >=? _); cbn [snd]; [|exact F2].
    eapply TPE_body_frame_trans;
      [exact F2 | apply TPE_body_frame_antiVibration]. }
  clear b1 b2 F1 F2. intros b1 b2 F1 F2. cbv beta.
  destruct (_ <? _); [cbn; now split|].
  repeat forget_step.
  match goal with
  | |- ?P (let '(u, v) := ?e in @?k u v) =>
      apply (pair_keep (fun _ => True) (TPE_body_frame body2) P e k)
  end.
  { exact I. }
  { eapply TPE_body_frame_trans;
      [exact F2 | apply _TPE_bodyUpdateAntivibration_frame]. }
  intros ok2 b2' _ F2'. cbv beta.
  match goal with
  | |- opt_holds ?P (match ?e with Some v => @?k v | None => None end) =>
      apply (bind_keep (TPE_body_frame body2) P e k)
  end.
  { destruct ok2.
    - now apply TPE_bodyApplyImpulse_frame.
    - cbn. eapply TPE_body_frame_trans;
        [exact F2' | apply TPE_bodyMultiplyKineticEnergy_frame]. }
  intros b2'' F2''. cbv beta.
  match goal with
  | |- opt_holds ?P (match ?e with Some v => @?k v | None => None end) =>
      apply (bind_keep (TPE_body_frame body1) P e k)
  end.
  { assert (Em : mass b1 = mass body1) by apply F1.
    destruct (Z.eqb_spec (mass b1) TPE_INFINITY) as [E|E]; cbn [negb];
      [exact F1|].
    pose proof (_TPE_bodyUpdateAntivibration_frame b1) as Fu.
    destruct (_TPE_bodyUpdateAntivibration b1) as [ok1 b1']. cbn [snd] in Fu.
    assert (F1' : TPE_body_frame body1 b1')
      by (eapply TPE_body_frame_trans; eassumption).
    destruct ok1.
    - cbv zeta. apply TPE_bodyApplyImpulse_frame; [congruence | exact F1'].
    - cbn. eapply TPE_body_frame_trans;
        [exact F1' | apply TPE_bodyMultiplyKineticEnergy_frame]. }
  intros b1'' F1''. cbv beta. cbn [opt_holds].
  match goal with
  | |- context [TPE_correctEnergies ?a ?b ?c ?d] =>
      destruct (TPE_correctEnergies_frame a b c d) as [G1 G2]
  end.
  split; eapply TPE_body_frame_trans; eassumption.
Qed.

Lemma TPE_resolveCollision_keeps (ind : TPE_Indeterminate)
    (body1 body2 : TPE_Body) (p n : TPE_Vec4) (d e : Z) :
  opt_holds (fun r => TPE_body_frame body1 (fst r) /\
                      TPE_body_frame body2 (snd r))
    (TPE_resolveCollision ind body1 body2 p n d e).
Proof.
  unfold TPE_resolveCollision.
  destruct (Z.eqb_spec (mass body2) TPE_INFINITY) as [E2|E2].
  - destruct (Z.eqb_spec (mass body1) TPE_INFINITY) as [E1|E1].
    + cbn. split; apply TPE_body_frame_refl.
    + cbv zeta.
      match goal with
      | |- context [TPE_resolveCollision_from_p1 ?i ?a ?b ?c ?f ?g ?h] =>
          pose proof (TPE_resolveCollision_from_p1_frame i a b c f g h E1)
            as H;
          destruct (TPE_resolveCollision_from_p1 i a b c f g h) as [r|]
      end; [|exact I].
      cbn in *. tauto.
  - now apply TPE_resolveCollision_from_p1_frame.
Qed.

(** X28: what [TPE_resolveCollision] may change.  Both bodies keep shape,
    shape parameters, flags, mass and bounding sphere; a static body (mass
    [TPE_INFINITY]) moreover keeps its position, velocity and rotation, and
    when both are static nothing changes at all. *)
Theorem TPE_resolveCollision_frame (ind : TPE_Indeterminate)
    (body1 body2 : TPE_Body) (p n : TPE_Vec4) (d e : Z) :
  opt_holds (fun r => TPE_body_frame body1 (fst r) /\
                      TPE_body_frame body2 (snd r))
    (TPE_resolveCollision ind body1 body2 p n d e) /\
  (body1.(mass) = TPE_INFINITY -> body2.(mass) = TPE_INFINITY ->
   TPE_resolveCollision ind body1 body2 p n d e = Some (body1, body2)).
Proof.
  split.
  - apply TPE_resolveCollision_keeps.
  - intros E1 E2. unfold TPE_resolveCollision.
    now rewrite E1, E2, Z.eqb_refl.
Qed.

Lemma TPE_resolveCollision_frame_witness :
  TPE_resolveCollision junk1 example_static_body example_static_body
    (TPE_vec4 50 0 0 0) (TPE_vec4 F 0 0 0) 10 300
    = Some (example_static_body, example_static_body).
Proof.
  exact (proj2 (TPE_resolveCollision_frame junk1 example_static_body
                  example_static_body (TPE_vec4 50 0 0 0) (TPE_vec4 F 0 0 0)
                  10 300) eq_refl eq_refl).
Defined.

(** ** The collision pass *)

Lemma Forall2_frame_refl (bs : list TPE_Body) : Forall2 TPE_body_frame bs bs.
Proof. induction bs; constructor; auto using TPE_body_frame_refl. Qed.

Lemma Forall2_frame_trans (l1 l2 l3 : list TPE_Body) :
  Forall2 TPE_body_frame l1 l2 -> Forall2 TPE_body_frame l2 l3 ->
  Forall2 TPE_body_frame l1 l3.
Proof.
  intros H. revert l3. induction H as [|a b l1 l2 Hab _ IH]; intros l3 H3.
  - inversion H3. constructor.
  - inversion H3 as [|? c ? l3' Hbc Hl]; subst. constructor.
    + eapply TPE_body_frame_trans; eassumption.
    + now apply IH.
Qed.

Lemma Forall2_frame_insert2 (bs : list TPE_Body) (i j : nat)
    (b1 b2 y1 y2 : TPE_Body) :
  bs !! i = Some b1 -> bs !! j = Some b2 ->
  TPE_body_frame b1 y1 -> TPE_body_frame b2 y2 ->
  Forall2 TPE_body_frame bs (<[j:=y2]> (<[i:=y1]> bs)).
Proof.
  intros Hi Hj F1 F2. apply Forall2_same_length_lookup_2.
  - now rewrite !length_insert.
  - intros k a b Ha Hb.
    apply list_lookup_insert_Some in Hb as [(-> & <- & _)|(Hne & Hb)].
    + now replace a with b2 by congruence.
    + apply list_lookup_insert_Some in Hb as [(-> & <- & _)|(Hne' & Hb)].
      * now replace a with b1 by congruence.
      * replace b with a by congruence. apply TPE_body_frame_refl.
Qed.

Lemma resolve_pair_frame (ind : TPE_Indeterminate) (i j : nat)
    (bs : list TPE_Body) (p n : TPE_Vec4) :
  opt_holds (fun st => Forall2 TPE_body_frame bs (fst (fst st)))
            (resolve_pair ind i j (bs, p, n)).
Proof.
  unfold resolve_pair.
  destruct (bs !! i) as [b1|] eqn:Hi; [|exact I].
  destruct (bs !! j) as [b2|] eqn:Hj; [|exact I].
  destruct (_ || _); [|apply Forall2_frame_refl].
  destruct (TPE_bodyCollides ind b1 b2 p n) as [[[d q] m]|]; [|exact I].
  destruct (negb (d =? 0)); [|apply Forall2_frame_refl].
  pose proof (TPE_resolveCollision_keeps ind b1 b2 q m d 300) as H.
  destruct (TPE_resolveCollision ind b1 b2 q m d 300) as [r|]; [|exact I].
  destruct H as [F1 F2]. cbn [opt_holds fst].
  now apply (Forall2_frame_insert2 bs i j b1 b2).
Qed.

Lemma fold_opt_invariant {S A : Type} (J : S -> Prop) (R : S -> S -> Prop)
    (f : S -> A -> option S) (l : list A) :
  (forall s, R s s) -> (forall s1 s2 s3, R s1 s2 -> R s2 s3 -> R s1 s3) ->
  (forall s a, opt_holds (R s) (f s a)) ->
  forall s, opt_holds (R s) (fold_opt f s l).
Proof.
  intros Hrefl Htrans Hf. induction l as [|a l IH]; intros s; cbn [fold_opt].
  - apply Hrefl.
  - specialize (Hf s a). destruct (f s a) as [s'|]; [|exact I].
    specialize (IH s'). destruct (fold_opt f s' l); [|exact I].
    cbn in *. eapply Htrans; eassumption.
Qed.

Lemma TPE_worldResolveCollisionNaive_frame_opt (ind : TPE_Indeterminate)
    (world : TPE_World) :
  opt_holds (fun world' =>
               world'.(bodyCount) = world.(bodyCount) /\
               Forall2 TPE_body_frame world.(bodies) world'.(bodies))
            (TPE_worldResolveCollisionNaive ind world).
Proof.
  unfold TPE_worldResolveCollisionNaive. cbv zeta.
  match goal with
  | |- opt_holds _ (match fold_opt ?f ?s ?l with _ => _ end) =>
      pose proof (fold_opt_invariant (fun _ => True)
                    (Forall2 TPE_body_frame) f l
                    Forall2_frame_refl Forall2_frame_trans) as H
  end.
  match type of H with
  | ?A -> _ => assert (Hf : A); [|specialize (H Hf (bodies world))]
  end.
  { intros bs i. cbv beta.
    pose proof (fold_opt_invariant (fun _ => True)
                  (fun st st' : list TPE_Body * TPE_Vec4 * TPE_Vec4 =>
                     Forall2 TPE_body_frame (fst (fst st)) (fst (fst st')))
                  (fun st j => resolve_pair ind i j st)
                  (seq (S i) (Z.to_nat (bodyCount world) - S i))) as G.
    match type of G with
    | ?A -> ?B -> ?C -> _ =>
        assert (G1 : A) by (intros; apply Forall2_frame_refl);
        assert (G2 : B) by (intros ? ? ?; apply Forall2_frame_trans);
        assert (G3 : C)
    end.
    { intros [[bs0 p0] n0] j. apply resolve_pair_frame. }
    specialize (G G1 G2 G3 (bs, ind_p ind, ind_n ind)).
    destruct (fold_opt _ (bs, ind_p ind, ind_n ind) _); [|exact I].
    exact G. }
  destruct (fold_opt _ (bodies world) _); [|exact I].
  cbn in *. split; [reflexivity | exact H].
Qed.

(** X29: the collision pass never changes the number of bodies, nor the
    shape, shape parameters, flags, mass or bounding sphere of any body, and
    it never moves, accelerates or turns a static body. *)
Theorem TPE_worldResolveCollisionNaive_frame (ind : TPE_Indeterminate)
    (world world' : TPE_World) :
  TPE_worldResolveCollisionNaive ind world = Some world' ->
  world'.(bodyCount) = world.(bodyCount) /\
  length world'.(bodies) = length world.(bodies) /\
  forall (i : nat) (b : TPE_Body),
    world.(bodies) !! i = Some b ->
    exists b' : TPE_Body,
      world'.(bodies) !! i = Some b' /\ TPE_body_frame b b'.
Proof.
  intros H. pose proof (TPE_worldResolveCollisionNaive_frame_opt ind world)
    as G.
  rewrite H in G. destruct G as [Gc Gf]. split; [exact Gc|]. split.
  - symmetry. eapply Forall2_length, Gf.
  - intros i b Hb. eapply Forall2_lookup_l in Gf as (b' & ? & ?); eauto.
Qed.

Lemma TPE_worldResolveCollisionNaive_frame_witness :
  TPE_worldResolveCollisionNaive junk1 example_world
    = Some example_world_resolved /\
  example_world_resolved.(bodyCount) = example_world.(bodyCount) /\
  length example_world_resolved.(bodies) = length example_world.(bodies) /\
  forall (i : nat) (b : TPE_Body),
    example_world.(bodies) !! i = Some b ->
    exists b' : TPE_Body,
      example_world_resolved.(bodies) !! i = Some b' /\ TPE_body_frame b b'.
Proof.
  assert (H : TPE_worldResolveCollisionNaive junk1 example_world
              = Some example_world_resolved) by (vm_compute; reflexivity).
  split; [exact H|].
  exact (TPE_worldResolveCollisionNaive_frame junk1 example_world
           example_world_resolved H).
Defined.

Lemma resolve_pair_static (ind : TPE_Indeterminate) (i j : nat)
    (bs : list TPE_Body) (p n : TPE_Vec4) (b1 b2 : TPE_Body) :
  bs !! i = Some b1 -> bs !! j = Some b2 ->
  b1.(mass) = TPE_INFINITY -> b2.(mass) = TPE_INFINITY ->
  resolve_pair ind i j (bs, p, n) = Some (bs, p, n).
Proof.
  intros Hi Hj H1 H2. unfold resolve_pair.
  now rewrite Hi, Hj, H1, H2, Z.eqb_refl.
Qed.

Lemma inner_loop_static (ind : TPE_Indeterminate) (i : nat) (js : list nat)
    (bs : list TPE_Body) (p n : TPE_Vec4) :
  (forall k, k = i \/ In k js ->
             exists b, bs !! k = Some b /\ b.(mass) = TPE_INFINITY) ->
  fold_opt (fun st j => resolve_pair ind i j st) (bs, p, n) js
    = Some (bs, p, n).
Proof.
  induction js as [|j js IH]; intros H; cbn [fold_opt]; [reflexivity|].
  destruct (H i ltac:(now left)) as (b1 & Hb1 & Hm1).
  destruct (H j ltac:(right; now left)) as (b2 & Hb2 & Hm2).
  rewrite (resolve_pair_static ind i j bs p n b1 b2) by assumption.
  apply IH. intros k [->|Hk]; apply H; [now left | right; now right].
Qed.

(** X30: the collision pass returns the world as it is when it has at most
    one body, and when all its bodies are static. *)
Theorem TPE_worldResolveCollisionNaive_idle (ind : TPE_Indeterminate)
    (world : TPE_World) :
  TPE_World_wf world ->
  world.(bodyCount) <= 1 \/
  (forall (i : nat) (b : TPE_Body),
     world.(bodies) !! i = Some b -> b.(mass) = TPE_INFINITY) ->
  TPE_worldResolveCollisionNaive ind world = Some world.
Proof.
  intros [Hwf Hwf'] H. unfold TPE_worldResolveCollisionNaive. cbv zeta.
  assert (E : fold_opt
                (fun bs i =>
                   st <- fold_opt (fun st j => resolve_pair ind i j st)
                           (bs, ind_p ind, ind_n ind)
                           (seq (S i) (Z.to_nat (bodyCount world) - S i)) ;;
                   Some (fst (fst st)))
                (bodies world) (seq 0 (Z.to_nat (bodyCount world) - 1))
              = Some (bodies world)).
  { destruct H as [H|H].
    - replace (Z.to_nat (bodyCount world) - 1)%nat with 0%nat by lia.
      reflexivity.
    - generalize (seq 0 (Z.to_nat (bodyCount world) - 1)).
      intros l.
      assert (Hall : forall i, (i < Z.to_nat (bodyCount world))%nat ->
                exists b, bodies world !! i = Some b /\ mass b = TPE_INFINITY).
      { intros i Hi.
        destruct (lookup_lt_is_Some_2 (bodies world) i ltac:(lia)) as [b Hb].
        exists b. split; [exact Hb | exact (H i b Hb)]. }
      induction l as [|i l IH]; cbn [fold_opt]; [reflexivity|].
      destruct (Nat.lt_ge_cases i (Z.to_nat (bodyCount world))) as [Hi|Hi].
      + rewrite inner_loop_static.
        * cbn [fst]. exact IH.
        * intros k [->|Hk]; [now apply Hall|].
          apply List.in_seq in Hk. apply Hall. lia.
      + replace (Z.to_nat (bodyCount world) - S i)%nat with 0%nat by lia.
        cbn [seq fold_opt fst]. exact IH. }
  rewrite E. now destruct world.
Qed.

Lemma TPE_worldResolveCollisionNaive_idle_witness :
  TPE_World_wf (mkWorld [example_static_body; example_static_body] 2) /\
  TPE_worldResolveCollisionNaive junk1
    (mkWorld [example_static_body; example_static_body] 2)
    = Some (mkWorld [example_static_body; example_static_body] 2).
Proof.
  assert (Hwf : TPE_World_wf
                  (mkWorld [example_static_body; example_static_body] 2))
    by (unfold TPE_World_wf; cbn; lia).
  split; [exact Hwf|].
  apply (TPE_worldResolveCollisionNaive_idle junk1 _ Hwf).
  right. intros [|[|i]] b; cbn; intros [= <-]; reflexivity.
Defined.

